(** * atlas-graph: builder, differ, cross-project linker and simulator

    A shallow embedding of [atlas_graph/builder.py], [differ.py],
    [cross_project.py] and [simulator.py], with the properties their
    specification states about them, and of the DOT and XML helpers of
    [export.py] and the detection and scoring of [doc_intel.py], with
    further properties read off the code.

    Conventions of the embedding.
    - A Python [str] is a [string], read as a sequence of code points
      below 256; [lower], [strip] and slicing are written out for that
      range.
    - A Python [dict] whose iteration order is observed is an ordered
      association list with unique keys ([PyDict]); a dict that is only
      looked up is a [gmap]; a Python [set] is a [gset].
    - Logging calls have no effect on any value and are left out.
    - Fields filled by a [uuid4] default factory on freshly built result
      objects ([GraphDiff.id], [CrossProjectEdge.id]) are left out: no
      function here reads them. *)

From Stdlib Require Import Ascii QArith.
From stdpp Require Import base list strings gmap.

Set Warnings "-register-all".

Local Open Scope string_scope.
Local Open Scope list_scope.
Local Open Scope nat_scope.

(** ** The SDK data model *)

(** Modelled from the spec: the enumeration [NodeType] of
    [atlas_sdk.enums]; its members are the node categories of the data
    model, the same twelve that [export._node_color] lists. *)
Inductive NodeType : Type :=
  | PIPELINE | JOB | STAGE | STEP | REPOSITORY | ARTIFACT
  | CONTAINER_IMAGE | RUNNER | SECRET_REF | ENVIRONMENT
  | EXTERNAL_SERVICE | DOC_FILE.

#[global] Instance NodeType_eq_dec : EqDecision NodeType.
Proof. solve_decision. Defined.

(** [str(node_type)] and the f-string rendering: the member's value, as
    the keys of [export._node_color] spell it. *)
Definition node_type_str (t : NodeType) : string :=
  match t with
  | PIPELINE => "pipeline" | JOB => "job" | STAGE => "stage"
  | STEP => "step" | REPOSITORY => "repository" | ARTIFACT => "artifact"
  | CONTAINER_IMAGE => "container_image" | RUNNER => "runner"
  | SECRET_REF => "secret_ref" | ENVIRONMENT => "environment"
  | EXTERNAL_SERVICE => "external_service" | DOC_FILE => "doc_file"
  end.

(** Modelled from the spec: the enumeration [EdgeType] of
    [atlas_sdk.enums], with the relations the data model names. *)
Inductive EdgeType : Type := CALLS | PRODUCES | CONSUMES | TRIGGERS.

#[global] Instance EdgeType_eq_dec : EqDecision EdgeType.
Proof. solve_decision. Defined.

Definition edge_type_str (t : EdgeType) : string :=
  match t with
  | CALLS => "calls" | PRODUCES => "produces"
  | CONSUMES => "consumes" | TRIGGERS => "triggers"
  end.

Definition EdgeType_code (t : EdgeType) : nat :=
  match t with CALLS => 0 | PRODUCES => 1 | CONSUMES => 2 | TRIGGERS => 3 end.

Definition EdgeType_of_code (n : nat) : option EdgeType :=
  match n with
  | 0 => Some CALLS | 1 => Some PRODUCES | 2 => Some CONSUMES
  | 3 => Some TRIGGERS | _ => None
  end.

#[global] Instance EdgeType_countable : Countable EdgeType.
Proof.
  apply (inj_countable EdgeType_code EdgeType_of_code).
  by intros [].
Defined.

(** Metadata values: [None], booleans, integers, strings and lists of
    them.  Floats and nested mappings are outside the embedding. *)
Inductive value : Type :=
  | VNone
  | VBool (b : bool)
  | VInt (z : Z)
  | VStr (s : string)
  | VList (l : list value).

(** Python's [==] on these values: [bool] is a subclass of [int], so
    [True == 1]; lists are equal when they have the same length and equal
    items. *)
Fixpoint py_eq (a b : value) {struct a} : bool :=
  match a, b with
  | VNone, VNone => true
  | VBool x, VBool y => bool_decide (x = y)
  | VBool x, VInt y => Z.eqb (Z.b2z x) y
  | VInt x, VBool y => Z.eqb x (Z.b2z y)
  | VInt x, VInt y => Z.eqb x y
  | VStr x, VStr y => bool_decide (x = y)
  | VList xs, VList ys =>
      (fix items (xs ys : list value) {struct xs} : bool :=
         match xs, ys with
         | [], [] => true
         | x :: xs', y :: ys' => py_eq x y && items xs' ys'
         | _, _ => false
         end) xs ys
  | _, _ => false
  end.

(** [Node.metadata : dict[str, Any]]. *)
Abbreviation Metadata := (gmap string value).

(** [a == b] on two metadata dicts: equal sizes, and every key of [a] is a
    key of [b] with an equal value. *)
Definition metadata_eq (a b : Metadata) : bool :=
  bool_decide (size a = size b) &&
  forallb (λ kv, match b !! kv.1 with
                 | Some v' => py_eq kv.2 v'
                 | None => false
                 end) (map_to_list a).

Definition metadata_ne (a b : Metadata) : bool := negb (metadata_eq a b).

(** Modelled from the spec: [atlas_sdk.models.nodes.Node], with the fields
    the graph engine reads. *)
Record Node : Type := mkNode {
  node_id : string;
  node_type : NodeType;
  node_name : string;
  metadata : Metadata;
}.

(** Modelled from the spec: [atlas_sdk.models.edges.Edge]. *)
Record Edge : Type := mkEdge {
  edge_id : string;
  edge_type : EdgeType;
  source_node_id : string;
  target_node_id : string;
}.

#[global] Instance Edge_eq_dec : EqDecision Edge.
Proof. solve_decision. Defined.

(** Modelled from the spec: [atlas_sdk.models.graph.CICDGraph], an
    identified, named graph owning an ordered collection of nodes and one
    of edges. *)
Record CICDGraph : Type := mkGraph {
  graph_id : string;
  graph_name : string;
  platform : option string;
  nodes : list Node;
  edges : list Edge;
}.

(** Modelled from the spec: [CICDGraph.add_node] and [CICDGraph.add_edge]
    append to the ordered collections. *)
Definition add_node (g : CICDGraph) (n : Node) : CICDGraph :=
  mkGraph (graph_id g) (graph_name g) (platform g) (nodes g ++ [n]) (edges g).

Definition add_edge (g : CICDGraph) (e : Edge) : CICDGraph :=
  mkGraph (graph_id g) (graph_name g) (platform g) (nodes g) (edges g ++ [e]).

(** Modelled from the spec: [CICDGraph.get_node], the lookup of a node by
    its id. *)
Definition get_node (g : CICDGraph) (id : string) : option Node :=
  snd <$> list_find (λ n, node_id n = id) (nodes g).

(** The matching key of a node. *)
Definition node_key (n : Node) : NodeType * string := (node_type n, node_name n).

(** ** GraphBuilder ([builder.py]) *)

Module Builder.

(** The builder owns the graph under construction and the index
    ["type:name" -> node id] of the nodes it has accepted. *)
Record GraphBuilder : Type := mkBuilder {
  _graph : CICDGraph;
  _node_index : gmap string string;
}.

(** [GraphBuilder.__init__]. The id of the new graph comes from the
    caller here. *)
Definition new (gid name : string) (plat : option string) : GraphBuilder :=
  mkBuilder (mkGraph gid name plat [] []) ∅.

(** [key = f"{node.node_type}:{node.name}"]. *)
Definition index_key (node : Node) : string :=
  node_type_str (node_type node) +:+ ":" +:+ node_name node.

(** One iteration of the loop of [add_nodes]. *)
Definition add_nodes_step (b : GraphBuilder) (node : Node) : GraphBuilder :=
  let key := index_key node in
  if decide (_node_index b !! key = None)
  then mkBuilder (add_node (_graph b) node)
                 (<[key := node_id node]> (_node_index b))
  else b.

Definition add_nodes (b : GraphBuilder) (ns : list Node) : GraphBuilder :=
  foldl add_nodes_step b ns.

(** [valid_ids = {n.id for n in self._graph.nodes}]. *)
Definition valid_ids (b : GraphBuilder) : gset string :=
  list_to_set (node_id <$> nodes (_graph b)).

(** One iteration of the loop of [add_edges], for the set [ids] computed
    before the loop. *)
Definition add_edges_step (ids : gset string) (b : GraphBuilder) (edge : Edge)
    : GraphBuilder :=
  if decide (source_node_id edge ∈ ids ∧ target_node_id edge ∈ ids)
  then mkBuilder (add_edge (_graph b) edge) (_node_index b)
  else b.

Definition add_edges (b : GraphBuilder) (es : list Edge) : GraphBuilder :=
  let ids := valid_ids b in
  foldl (add_edges_step ids) b es.

Definition build (b : GraphBuilder) : CICDGraph := _graph b.

Definition from_parse_result (gid name : string) (ns : list Node)
    (es : list Edge) (plat : option string) : CICDGraph :=
  let builder := new gid name plat in
  let builder := add_nodes builder ns in
  let builder := add_edges builder es in
  build builder.

(** A use of one builder instance: any sequence of calls of its two
    mutators. *)
Inductive call : Type :=
  | AddNodes (ns : list Node)
  | AddEdges (es : list Edge).

Definition do_call (b : GraphBuilder) (c : call) : GraphBuilder :=
  match c with
  | AddNodes ns => add_nodes b ns
  | AddEdges es => add_edges b es
  end.

Definition run (b : GraphBuilder) (cs : list call) : GraphBuilder :=
  foldl do_call b cs.

(** All nodes handed to [add_nodes] by a sequence of calls, in order. *)
Definition inputs (cs : list call) : list Node :=
  cs ≫= λ c, match c with AddNodes ns => ns | AddEdges _ => [] end.

(** *** Notions used to state the builder's properties *)

(** The ids [add_edges] validates against, as a list. *)
Definition ids (b : GraphBuilder) : list string :=
  node_id <$> nodes (build b).

(** The state of a builder after the nodes [seen] have been handed to it:
    the index knows exactly the keys seen, and for every key the graph
    holds the first node seen with it and no other. *)
Record tracks (b : GraphBuilder) (seen : list Node) : Prop := {
  tracks_index : ∀ n,
    _node_index b !! index_key n = None
    ↔ filter (λ m, node_key m = node_key n) seen = [];
  tracks_first : ∀ k,
    filter (λ m, node_key m = k) (nodes (_graph b))
    = option_list (head (filter (λ m, node_key m = k) seen));
  tracks_order : nodes (_graph b) `sublist_of` seen;
}.

(** Every edge of the builder's graph joins two nodes of that graph. *)
Definition closed (b : GraphBuilder) : Prop :=
  Forall (λ e, source_node_id e ∈ ids b ∧ target_node_id e ∈ ids b)
    (edges (build b)).

End Builder.

(** ** Insertion-ordered dictionaries *)

Module PyDict.
Section dict.
Context {K V : Type} `{EqDecision K}.

(** [d[k]], [None] standing for [KeyError]. *)
Fixpoint get (d : list (K * V)) (k : K) : option V :=
  match d with
  | [] => None
  | (k', v) :: d' => if decide (k' = k) then Some v else get d' k
  end.

(** [k in d]. *)
Definition mem (d : list (K * V)) (k : K) : bool :=
  bool_decide (is_Some (get d k)).

(** [d[k] = v]: a key already present keeps its position and takes the
    new value, a new key goes to the end. *)
Fixpoint set (d : list (K * V)) (k : K) (v : V) : list (K * V) :=
  match d with
  | [] => [(k, v)]
  | (k', v') :: d' =>
      if decide (k' = k) then (k', v) :: d' else (k', v') :: set d' k v
  end.

Definition keys (d : list (K * V)) : list K := fst <$> d.
End dict.
End PyDict.

(** ** GraphDiffer ([differ.py]) *)

Module Differ.

Record NodeChange : Type := mkNodeChange {
  nc_change_type : string;
  nc_node_name : string;
  nc_node_type : string;
  nc_details : string;
}.

Record EdgeChange : Type := mkEdgeChange {
  ec_change_type : string;
  ec_edge_type : string;
  ec_source : string;
  ec_target : string;
}.

Record GraphDiff : Type := mkGraphDiff {
  before_graph_id : string;
  after_graph_id : string;
  before_name : string;
  after_name : string;
  node_changes : list NodeChange;
  edge_changes : list EdgeChange;
}.

Definition total_changes (d : GraphDiff) : nat :=
  length (node_changes d) + length (edge_changes d).

Definition added_nodes (d : GraphDiff) : nat :=
  length (filter (λ c, nc_change_type c = "added") (node_changes d)).

Definition removed_nodes (d : GraphDiff) : nat :=
  length (filter (λ c, nc_change_type c = "removed") (node_changes d)).

Definition has_changes (d : GraphDiff) : bool :=
  bool_decide (0 < total_changes d).

(** [result.node_changes.append(c)] and [result.edge_changes.append(c)]. *)
Definition push_node_change (r : GraphDiff) (c : NodeChange) : GraphDiff :=
  mkGraphDiff (before_graph_id r) (after_graph_id r) (before_name r)
    (after_name r) (node_changes r ++ [c]) (edge_changes r).

Definition push_edge_change (r : GraphDiff) (c : EdgeChange) : GraphDiff :=
  mkGraphDiff (before_graph_id r) (after_graph_id r) (before_name r)
    (after_name r) (node_changes r) (edge_changes r ++ [c]).

(** [{(n.node_type, n.name): n for n in ns}]. *)
Definition index_nodes (ns : list Node) : list (NodeType * string * Node) :=
  foldl (λ d n, PyDict.set d (node_type n, node_name n) n) [] ns.

(** [{(e.edge_type, e.source_node_id, e.target_node_id) for e in es}]. *)
Definition edge_keys (es : list Edge) : gset (EdgeType * string * string) :=
  list_to_set ((λ e, (edge_type e, source_node_id e, target_node_id e)) <$> es).

(** [s[:8]]. *)
Definition take8 (s : string) : string := String.substring 0 8 s.

Definition added_pass (before_nodes after_nodes : list (NodeType * string * Node))
    (result : GraphDiff) : GraphDiff :=
  foldl (λ r kn,
           let '(key, node) := kn in
           if PyDict.mem before_nodes key then r
           else push_node_change r
                  (mkNodeChange "added" (node_name node)
                     (node_type_str (node_type node)) ""))
        result after_nodes.

Definition removed_pass (before_nodes after_nodes : list (NodeType * string * Node))
    (result : GraphDiff) : GraphDiff :=
  foldl (λ r kn,
           let '(key, node) := kn in
           if PyDict.mem after_nodes key then r
           else push_node_change r
                  (mkNodeChange "removed" (node_name node)
                     (node_type_str (node_type node)) ""))
        result before_nodes.

(** The third loop runs over the keys of [before_nodes] and reads both
    dicts at the key; the read of [before_nodes] cannot miss. *)
Definition modified_pass (before_nodes after_nodes : list (NodeType * string * Node))
    (result : GraphDiff) : GraphDiff :=
  foldl (λ r key,
           if PyDict.mem after_nodes key then
             match PyDict.get before_nodes key, PyDict.get after_nodes key with
             | Some b, Some a =>
                 if metadata_ne (metadata b) (metadata a)
                 then push_node_change r
                        (mkNodeChange "modified" (node_name a)
                           (node_type_str (node_type a)) "metadata changed")
                 else r
             | _, _ => r
             end
           else r)
        result (PyDict.keys before_nodes).

(** One loop over a difference of edge-key sets.  Python leaves the
    iteration order of a set open; [elements] fixes one. *)
Definition edge_pass (change : string) (ks : gset (EdgeType * string * string))
    (result : GraphDiff) : GraphDiff :=
  foldl (λ r edge_key,
           push_edge_change r
             (mkEdgeChange change (edge_type_str edge_key.1.1)
                (take8 edge_key.1.2) (take8 edge_key.2)))
        result (elements ks).

Definition diff (before after : CICDGraph) : GraphDiff :=
  let result :=
    mkGraphDiff (graph_id before) (graph_id after)
      (graph_name before) (graph_name after) [] [] in
  let before_nodes := index_nodes (nodes before) in
  let after_nodes := index_nodes (nodes after) in
  let result := added_pass before_nodes after_nodes result in
  let result := removed_pass before_nodes after_nodes result in
  let result := modified_pass before_nodes after_nodes result in
  let before_edges := edge_keys (edges before) in
  let after_edges := edge_keys (edges after) in
  let result := edge_pass "added" (after_edges ∖ before_edges) result in
  let result := edge_pass "removed" (before_edges ∖ after_edges) result in
  result.

(** *** Notions used to state the differ's properties *)

(** The keys of a graph's nodes, and the node its index holds for a key:
    the last node of the graph carrying it (the only one, in a graph with
    no two nodes of the same type and name). *)
Definition keys_of (g : CICDGraph) : list (NodeType * string) :=
  node_key <$> nodes g.

Definition indexed (g : CICDGraph) (k : NodeType * string) : option Node :=
  last (filter (λ n, node_key n = k) (nodes g)).

(** The change reported for a key. *)
Definition change_of (change details : string) (k : NodeType * string)
    : NodeChange :=
  mkNodeChange change k.2 (node_type_str k.1) details.

(** Whether the third pass reports key [k]. *)
Definition differs (before_nodes after_nodes : list (NodeType * string * Node))
    (k : NodeType * string) : bool :=
  match PyDict.get before_nodes k, PyDict.get after_nodes k with
  | Some b, Some a => metadata_ne (metadata b) (metadata a)
  | _, _ => false
  end.

(** The key of an edge, and the change reported for an edge key. *)
Definition edge_key (e : Edge) : EdgeType * string * string :=
  (edge_type e, source_node_id e, target_node_id e).

Definition edge_change_of (change : string) (k : EdgeType * string * string)
    : EdgeChange :=
  mkEdgeChange change (edge_type_str k.1.1) (take8 k.1.2) (take8 k.2).

(** The name and type a node change reports. *)
Definition reported (c : NodeChange) : string * string :=
  (nc_node_name c, nc_node_type c).

End Differ.

(** ** String methods used by the linker *)

Module PyStr.

Definition code (c : ascii) : nat := nat_of_ascii c.

(** [str.isspace] on one code point below 256. *)
Definition is_space (c : ascii) : bool :=
  let n := code c in
  ((9 <=? n) && (n <=? 13)) || ((28 <=? n) && (n <=? 32))
  || (n =? 133) || (n =? 160).

(** Upper-case letters below 256: A to Z, and the accented capitals
    except the multiplication sign. *)
Definition is_upper (c : ascii) : bool :=
  let n := code c in
  ((65 <=? n) && (n <=? 90))
  || ((192 <=? n) && (n <=? 222) && negb (n =? 215)).

Definition lower_char (c : ascii) : ascii :=
  if is_upper c then ascii_of_nat (code c + 32) else c.

(** [s.lower()]. *)
Fixpoint lower (s : string) : string :=
  match s with
  | EmptyString => EmptyString
  | String c s' => String (lower_char c) (lower s')
  end.

Fixpoint lstrip (s : string) : string :=
  match s with
  | EmptyString => EmptyString
  | String c s' => if is_space c then lstrip s' else s
  end.

Fixpoint rev_onto (s acc : string) : string :=
  match s with
  | EmptyString => acc
  | String c s' => rev_onto s' (String c acc)
  end.

Definition reverse (s : string) : string := rev_onto s EmptyString.

Definition rstrip (s : string) : string := reverse (lstrip (reverse s)).

(** [s.strip()]. *)
Definition strip (s : string) : string := rstrip (lstrip s).

(** [s.startswith(p)]. *)
Definition startswith (s p : string) : bool := String.prefix p s.

(** [s[n:]]. *)
Fixpoint drop (n : nat) (s : string) : string :=
  match n, s with
  | 0, _ => s
  | S n', EmptyString => EmptyString
  | S n', String _ s' => drop n' s'
  end.

End PyStr.

(** ** CrossProjectLinker ([cross_project.py]) *)

Module Linker.

(** Modelled from the spec: [atlas_sdk.models.graph.CrossProjectEdge];
    [confidence] defaults to 1. *)
Record CrossProjectEdge : Type := mkCrossEdge {
  cx_source_graph_id : string;
  cx_source_node_id : string;
  cx_target_graph_id : string;
  cx_target_node_id : string;
  link_type : string;
  confidence : Q;
}.

(** Modelled from the spec: [atlas_sdk.models.graph.MultiProjectGraph], a
    name, the member graphs and the cross-project edges; [add_graph] and
    [add_cross_edge] append, [total_nodes] sums over the members. *)
Record MultiProjectGraph : Type := mkMulti {
  multi_name : string;
  graphs : list CICDGraph;
  cross_edges : list CrossProjectEdge;
}.

Definition add_graph (m : MultiProjectGraph) (g : CICDGraph) : MultiProjectGraph :=
  mkMulti (multi_name m) (graphs m ++ [g]) (cross_edges m).

Definition add_cross_edge (m : MultiProjectGraph) (e : CrossProjectEdge)
    : MultiProjectGraph :=
  mkMulti (multi_name m) (graphs m) (cross_edges m ++ [e]).

Definition total_nodes (m : MultiProjectGraph) : nat :=
  foldr (λ g acc, length (nodes g) + acc) 0 (graphs m).

(** The class constants; both sets are only tested for membership. *)
Definition LINKABLE_TYPES : list NodeType :=
  [ARTIFACT; CONTAINER_IMAGE; SECRET_REF; ENVIRONMENT; EXTERNAL_SERVICE].

Definition TRIGGER_EDGE_TYPES : gset EdgeType := {[ TRIGGERS ]}.

(** One iteration of the loop of [_normalize]. *)
Definition strip_prefix (name prefix : string) : string :=
  if PyStr.startswith name prefix
  then PyStr.drop (String.length prefix) name
  else name.

Definition _normalize (name : string) : string :=
  let name := PyStr.strip (PyStr.lower name) in
  let name := foldl strip_prefix name ["secret:"; "env:"; "image:"] in
  PyStr.strip name.

Definition _link_type_for (node_type : string) : string :=
  let mapping : gmap string string :=
    list_to_map
      [ (node_type_str ARTIFACT, "shared_artifact");
        (node_type_str CONTAINER_IMAGE, "shared_image");
        (node_type_str SECRET_REF, "shared_secret");
        (node_type_str ENVIRONMENT, "shared_env");
        (node_type_str EXTERNAL_SERVICE, "shared_service") ] in
  default "shared_resource" (mapping !! node_type).

(** The pipeline index of [_detect_triggers]: a later pipeline of the same
    normalized name overwrites the earlier entry. *)
Definition pipeline_index_of (gs : list CICDGraph) : gmap string (string * string) :=
  foldl (λ idx g,
           foldl (λ idx n,
                    if decide (node_type n = PIPELINE)
                    then <[_normalize (node_name n) := (graph_id g, node_id n)]> idx
                    else idx)
                 idx (nodes g))
        ∅ gs.

(** The body of the edge loop of [_detect_triggers] for one edge [e] of
    graph [g]. *)
Definition trigger_step (pipeline_index : gmap string (string * string))
    (g : CICDGraph) (acc : list CrossProjectEdge) (e : Edge)
    : list CrossProjectEdge :=
  if decide (edge_type e ∈ TRIGGER_EDGE_TYPES) then
    match get_node g (target_node_id e) with
    | None => acc
    | Some target_node =>
        let target_name := _normalize (node_name target_node) in
        match pipeline_index !! target_name with
        | None => acc
        | Some (tg_id, tn_id) =>
            if decide (tg_id ≠ graph_id g)
            then acc ++ [mkCrossEdge (graph_id g) (source_node_id e)
                           tg_id tn_id "cross_trigger" (7 # 10)]
            else acc
        end
    end
  else acc.

Definition _detect_triggers (gs : list CICDGraph) : list CrossProjectEdge :=
  let pipeline_index := pipeline_index_of gs in
  foldl (λ acc g, foldl (trigger_step pipeline_index g) acc (edges g)) [] gs.

(** [node_index[key].append(loc)] on a [defaultdict(list)]. *)
Definition index_append (node_index : list (string * string * list (string * string)))
    (key : string * string) (loc : string * string)
    : list (string * string * list (string * string)) :=
  PyDict.set node_index key (default [] (PyDict.get node_index key) ++ [loc]).

Definition node_index_of (gs : list CICDGraph)
    : list (string * string * list (string * string)) :=
  foldl (λ idx graph,
           foldl (λ idx node,
                    if decide (node_type node ∈ LINKABLE_TYPES)
                    then index_append idx
                           (node_type_str (node_type node),
                            _normalize (node_name node))
                           (graph_id graph, node_id node)
                    else idx)
                 idx (nodes graph))
        [] gs.

(** The body of the loop over [node_index.items()]: the first location is
    the source, the others the targets. *)
Definition link_key (multi : MultiProjectGraph)
    (item : string * string * list (string * string)) : MultiProjectGraph :=
  let '((node_type, _name), locations) := item in
  if length locations <? 2 then multi
  else
    let link_type := _link_type_for node_type in
    match locations with
    | [] => multi
    | (source_graph_id, source_node_id) :: rest =>
        foldl (λ multi target,
                 let '(target_graph_id, target_node_id) := target in
                 if decide (source_graph_id = target_graph_id) then multi
                 else add_cross_edge multi
                        (mkCrossEdge source_graph_id source_node_id
                           target_graph_id target_node_id link_type 1))
              multi rest
    end.

Definition link (gs : list CICDGraph) (name : string) : MultiProjectGraph :=
  let multi := mkMulti name [] [] in
  let multi := foldl add_graph multi gs in
  let node_index := node_index_of gs in
  let multi := foldl link_key multi node_index in
  let trigger_edges := _detect_triggers gs in
  let multi := foldl add_cross_edge multi trigger_edges in
  multi.

(** *** Notions used to state the linker's properties *)

(** The prefixes [_normalize] knows, and the normalization as the
    specification words it: lowercase, trim, strip one of the prefixes if
    present. *)
Definition prefixes : list string := ["secret:"; "env:"; "image:"].

Definition one_prefix_rest (name : string) : string :=
  let s := PyStr.strip (PyStr.lower name) in
  match list_find (λ p, PyStr.startswith s p = true) prefixes with
  | Some (_, p) => PyStr.drop (String.length p) s
  | None => s
  end.

Definition normalize_one_prefix (name : string) : string :=
  PyStr.strip (one_prefix_rest name).

(** Every location of every entry lies in the graph of id [gid]. *)
Definition within (gid : string)
    (idx : list (string * string * list (string * string))) : Prop :=
  Forall (λ item, Forall (λ loc : string * string, loc.1 = gid) item.2) idx.

(** The edges the shared-resource pass emits for one entry of the index,
    and the edge the trigger pass emits for one edge of a graph. *)
Definition item_edges (item : string * string * list (string * string))
    : list CrossProjectEdge :=
  match item.2 with
  | [] | [_] => []
  | (sg, sn) :: rest =>
      (λ t : string * string,
         mkCrossEdge sg sn t.1 t.2 (_link_type_for item.1.1) 1)
      <$> filter (λ t : string * string, sg ≠ t.1) rest
  end.

Definition trigger_edge (pipeline_index : gmap string (string * string))
    (g : CICDGraph) (e : Edge) : option CrossProjectEdge :=
  if decide (edge_type e = TRIGGERS) then
    target_node ← get_node g (target_node_id e);
    t ← pipeline_index !! _normalize (node_name target_node);
    if decide (t.1 ≠ graph_id g)
    then Some (mkCrossEdge (graph_id g) (source_node_id e) t.1 t.2
                 "cross_trigger" (7 # 10))
    else None
  else None.

(** [x] joins the node [n1] of [g1] to the node [n2] of [g2], two graphs
    of [gs] of different ids, as nodes of type [ty] and normalized name
    [nm]. *)
Definition shared_on (gs : list CICDGraph) (ty : NodeType) (nm : string)
    (x : CrossProjectEdge) : Prop :=
  ∃ g1 n1 g2 n2,
    g1 ∈ gs ∧ n1 ∈ nodes g1 ∧ g2 ∈ gs ∧ n2 ∈ nodes g2
    ∧ node_type n1 = ty ∧ node_type n2 = ty
    ∧ _normalize (node_name n1) = nm ∧ _normalize (node_name n2) = nm
    ∧ graph_id g1 ≠ graph_id g2
    ∧ x = mkCrossEdge (graph_id g1) (node_id n1) (graph_id g2) (node_id n2)
            (_link_type_for (node_type_str ty)) 1.

Definition shared_link (gs : list CICDGraph) (x : CrossProjectEdge) : Prop :=
  ∃ ty nm, ty ∈ LINKABLE_TYPES ∧ shared_on gs ty nm x.

(** [x] goes from the source of a TRIGGERS edge [e] of [g], whose target
    is the node [t] of [g], to a pipeline [p] of another graph [g2] with
    the normalized name of [t]. *)
Definition trigger_link (gs : list CICDGraph) (x : CrossProjectEdge) : Prop :=
  ∃ g e t g2 p,
    g ∈ gs ∧ e ∈ edges g ∧ edge_type e = TRIGGERS
    ∧ t ∈ nodes g ∧ node_id t = target_node_id e
    ∧ g2 ∈ gs ∧ p ∈ nodes g2 ∧ node_type p = PIPELINE
    ∧ _normalize (node_name p) = _normalize (node_name t)
    ∧ graph_id g2 ≠ graph_id g
    ∧ x = mkCrossEdge (graph_id g) (source_node_id e) (graph_id g2)
            (node_id p) "cross_trigger" (7 # 10).

(** Every location of an index entry is the place of a linkable node of
    a graph of [gs] with the type and normalized name of the entry's
    key. *)
Definition entry_of (gs : list CICDGraph) (key : string * string)
    (locs : list (string * string)) : Prop :=
  Forall (λ loc, ∃ g n, g ∈ gs ∧ n ∈ nodes g
                       ∧ node_type n ∈ LINKABLE_TYPES
                       ∧ loc = (graph_id g, node_id n)
                       ∧ node_type_str (node_type n) = key.1
                       ∧ _normalize (node_name n) = key.2) locs.

(** The index records every linkable node under its key. *)
Definition recorded (idx : list (string * string * list (string * string)))
    (g : CICDGraph) (n : Node) : Prop :=
  ∃ locs,
    PyDict.get idx (node_type_str (node_type n), _normalize (node_name n))
    = Some locs
    ∧ (graph_id g, node_id n) ∈ locs.

End Linker.

(** ** DiffSimulator ([simulator.py]) *)

(** [simulate] deep-copies its graph and then assigns into the metadata
    dicts of the copy, so the embedding keeps an explicit object store:
    graphs, nodes, edges and metadata dicts are objects at locations, and
    a node refers to its metadata dict by location. *)

Module Simulator.

Abbreviation loc := nat.

Inductive obj : Type :=
  | ONode (id : string) (ty : NodeType) (name : string) (meta : loc)
  | OEdge (e : Edge)
  | ODict (d : Metadata)
  | OGraph (id name : string) (plat : option string)
           (node_refs edge_refs : list loc).

(** The store: location [l] holds the [l]-th object; allocation appends. *)
Abbreviation heap := (list obj).

(** Computations over a state [S] that can fail.  On stores built by the
    program no read ever fails; [None] covers stores with a dangling or
    ill-typed reference. *)
Definition ST (S A : Type) : Type := S → option (A * S).

Definition ret {S A} (a : A) : ST S A := λ s, Some (a, s).

Definition bind {S A B} (m : ST S A) (k : A → ST S B) : ST S B :=
  λ s, match m s with
       | Some (a, s') => k a s'
       | None => None
       end.

Notation "x ←; m ;; k" := (bind m (λ x, k))
  (at level 100, m at next level, right associativity).

(** [[f(x) for x in xs]] and [for x in xs: f(x)] in [ST]. *)
Fixpoint for_each {S A B} (f : A → ST S B) (xs : list A) : ST S (list B) :=
  match xs with
  | [] => ret []
  | x :: xs' => y ←; f x ;; ys ←; for_each f xs' ;; ret (y :: ys)
  end.

(** *** Reading the store *)

Definition read_node (h : heap) (l : loc) : option Node :=
  match h !! l with
  | Some (ONode id ty name m) =>
      match h !! m with
      | Some (ODict d) => Some (mkNode id ty name d)
      | _ => None
      end
  | _ => None
  end.

Definition read_edge (h : heap) (l : loc) : option Edge :=
  match h !! l with
  | Some (OEdge e) => Some e
  | _ => None
  end.

(** The graph value that the object at [l] stands for. *)
Definition read_graph (h : heap) (l : loc) : option CICDGraph :=
  match h !! l with
  | Some (OGraph id name plat ns es) =>
      ns' ← mapM (read_node h) ns;
      es' ← mapM (read_edge h) es;
      Some (mkGraph id name plat ns' es')
  | _ => None
  end.

(** *** [copy.deepcopy] *)

(** The state of a deep copy: the store and the memo, which sends every
    object already copied to its copy, so that sharing inside the copied
    structure is reproduced. *)
Abbreviation copying := (heap * gmap loc loc)%type.

Definition memoized (l : loc) (fresh : ST copying loc) : ST copying loc :=
  λ st, match st.2 !! l with
        | Some l' => Some (l', st)
        | None =>
            match fresh st with
            | Some (l', (h, memo)) => Some (l', (h, <[l := l']> memo))
            | None => None
            end
        end.

Definition alloc (o : obj) : ST copying loc :=
  λ st, Some (length st.1, (st.1 ++ [o], st.2)).

Definition copy_dict (l : loc) : ST copying loc :=
  λ st, match st.1 !! l with
        | Some (ODict d) => memoized l (alloc (ODict d)) st
        | _ => None
        end.

Definition copy_node (l : loc) : ST copying loc :=
  λ st, match st.1 !! l with
        | Some (ONode id ty name m) =>
            memoized l (m' ←; copy_dict m ;; alloc (ONode id ty name m')) st
        | _ => None
        end.

Definition copy_edge (l : loc) : ST copying loc :=
  λ st, match st.1 !! l with
        | Some (OEdge e) => memoized l (alloc (OEdge e)) st
        | _ => None
        end.

(** [deepcopy(graph)]: the location of the copy and the extended store. *)
Definition deepcopy (l : loc) : ST heap loc :=
  λ h, match h !! l with
       | Some (OGraph id name plat ns es) =>
           match (ns' ←; for_each copy_node ns ;;
                  es' ←; for_each copy_edge es ;;
                  alloc (OGraph id name plat ns' es')) (h, ∅) with
           | Some (l', (h', _)) => Some (l', h')
           | None => None
           end
       | _ => None
       end.

(** *** The simulator *)

(** Modelled from the spec: [atlas_sdk.models.findings.Finding], with its
    rule id and affected node ids. *)
Record Finding : Type := mkFinding {
  finding_rule_id : string;
  finding_affected_node_ids : list string;
}.

(** Modelled from the spec: [RefactorSuggestion] and [RefactorPlan] of
    [atlas_sdk.models.refactors]. *)
Record RefactorSuggestion : Type := mkSuggestion {
  rule_id : string;
  description : string;
  risk_level : string;
  effort_estimate : string;
  before_snippet : string;
  after_snippet : string;
  affected_node_ids : list string;
}.

Record RefactorPlan : Type := mkPlan {
  plan_ident : string;
  plan_name : string;
  suggestions : list RefactorSuggestion;
}.

(** [d[k] = v] on the dict object at [m]. *)
Definition dict_setitem (m : loc) (k : string) (v : value) : ST heap () :=
  λ h, match h !! m with
       | Some (ODict d) => Some ((), <[m := ODict (<[k := v]> d)]> h)
       | _ => None
       end.

(** The body of the loop of [_apply_suggestion] for the node at [ln]. *)
Definition annotate (s : RefactorSuggestion) (ln : loc) : ST heap () :=
  λ h, match h !! ln with
       | Some (ONode id _ _ m) =>
           if decide (id ∈ affected_node_ids s)
           then (_ ←; dict_setitem m "refactored" (VBool true) ;;
                 dict_setitem m "refactor_rule" (VStr (rule_id s))) h
           else Some ((), h)
       | _ => None
       end.

Definition _apply_suggestion (graph : loc) (s : RefactorSuggestion) : ST heap () :=
  λ h, match h !! graph with
       | Some (OGraph _ _ _ ns _) =>
           (_ ←; for_each (annotate s) ns ;; ret ()) h
       | _ => None
       end.

(** The copy of the graph with every suggestion of the plan applied. *)
Definition project (graph : loc) (plan : RefactorPlan) : ST heap loc :=
  projected_graph ←; deepcopy graph ;;
  _ ←; for_each (_apply_suggestion projected_graph) (suggestions plan) ;;
  ret projected_graph.

(** [remaining = [f for f in findings if f.rule_id not in fixed_rule_ids]]. *)
Definition fixed_rule_ids (plan : RefactorPlan) : gset string :=
  list_to_set (rule_id <$> suggestions plan).

Definition remaining (findings : list Finding) (plan : RefactorPlan)
    : list Finding :=
  filter (λ f, finding_rule_id f ∉ fixed_rule_ids plan) findings.

Section simulate.
(** The scoring collaborator [atlas_report.scorer.compute_scores] is not
    part of this repository: a function from a graph to its three
    scores, over any type of scores. *)
Context {score : Type}.

Record Scores : Type := mkScores {
  complexity_score : score;
  fragility_score : score;
  maturity_score : score;
}.

Variable compute_scores : CICDGraph → Scores.

(** Modelled from the spec: [ScoreDelta] and [SimulationResult] of
    [atlas_sdk.models.simulation].  [diff_preview], the text built by
    [_generate_diff], is not part of the embedding. *)
Record ScoreDelta : Type := mkScoreDelta {
  metric : string;
  delta_before : score;
  delta_after : score;
}.

Record SimulationResult : Type := mkResult {
  result_plan_id : string;
  result_graph_id : string;
  findings_removed : nat;
  findings_remaining : nat;
  score_deltas : list ScoreDelta;
  projected_node_count : nat;
  projected_edge_count : nat;
}.

Definition simulate (graph : loc) (findings : list Finding)
    (plan : RefactorPlan) : ST heap SimulationResult :=
  λ h,
    g ← read_graph h graph;
    let current_scores := compute_scores g in
    let remaining := remaining findings plan in
    let removed_count := length findings - length remaining in
    '(projected_graph, h') ← project graph plan h;
    p ← read_graph h' projected_graph;
    let projected_scores := compute_scores p in
    let deltas :=
      [ mkScoreDelta "complexity" (complexity_score current_scores)
          (complexity_score projected_scores);
        mkScoreDelta "fragility" (fragility_score current_scores)
          (fragility_score projected_scores);
        mkScoreDelta "maturity" (maturity_score current_scores)
          (maturity_score projected_scores) ] in
    Some (mkResult (plan_ident plan) (graph_id g) removed_count
            (length remaining) deltas
            (length (nodes p)) (length (edges p)), h').
End simulate.

(** *** Notions used to state the simulator's properties *)

(** [h'] holds every object of [h], unchanged, where [h] holds it. *)
Definition preserves (h h' : heap) : Prop :=
  ∀ l o, h !! l = Some o → h' !! l = Some o.

(** In the store [h], the object at [l'] is a copy of the object [o] made
    after the store had [n0] objects: the same fields, and for a node a
    metadata dict of its own with the same contents. *)
Inductive mirrors (n0 : nat) (h : heap) : obj → loc → Prop :=
  | mirrors_dict d l' :
      h !! l' = Some (ODict d) → mirrors n0 h (ODict d) l'
  | mirrors_edge e l' :
      h !! l' = Some (OEdge e) → mirrors n0 h (OEdge e) l'
  | mirrors_node id ty nm m d m' l' :
      h !! m = Some (ODict d) →
      h !! l' = Some (ONode id ty nm m') →
      n0 ≤ m' →
      h !! m' = Some (ODict d) →
      mirrors n0 h (ONode id ty nm m) l'.

Definition copy_of (n0 : nat) (h : heap) (l l' : loc) : Prop :=
  n0 ≤ l' ∧ ∃ o, h !! l = Some o ∧ mirrors n0 h o l'.

(** The invariant of a running deep copy that started on a store of [n0]
    objects: the memo sends objects to copies of them. *)
Record copy_inv (n0 : nat) (st : copying) : Prop := {
  ci_memo : ∀ l l', st.2 !! l = Some l' → copy_of n0 st.1 l l';
  ci_len : n0 ≤ length st.1;
}.

(** A copied node lies past the original store, and so does its
    metadata dict. *)
Definition fresh_node (n0 : nat) (h : heap) (l' : loc) : Prop :=
  n0 ≤ l'
  ∧ ∃ id ty nm m' d,
      h !! l' = Some (ONode id ty nm m') ∧ n0 ≤ m' ∧ h !! m' = Some (ODict d).

(** The store while suggestions are applied to the copy at [lp] of the
    graph [g], made on the store [h0]: the objects of [h0] are as they
    were, and the copy still has the nodes and edges of [g], each node
    with a metadata dict past [h0]. *)
Record proj_inv (h0 : heap) (lp : loc) (g : CICDGraph) (ns' es' : list loc)
    (h : heap) : Prop := {
  pj_frame : preserves h0 h;
  pj_graph :
    h !! lp = Some (OGraph (graph_id g) (graph_name g) (platform g) ns' es');
  pj_nodes :
    Forall2 (λ k n, length h0 ≤ k
                    ∧ ∃ m d, h !! k = Some (ONode (node_id n) (node_type n)
                                              (node_name n) m)
                             ∧ length h0 ≤ m ∧ h !! m = Some (ODict d))
      ns' (nodes g);
  pj_edges :
    Forall2 (λ k e, length h0 ≤ k ∧ h !! k = Some (OEdge e)) es' (edges g);
}.

(** Same identity, type and name: what the simulation leaves alone in a
    node. *)
Definition same_node (p n : Node) : Prop :=
  node_id p = node_id n ∧ node_type p = node_type n
  ∧ node_name p = node_name n.

(** The copy at [lp] in [h'] shares nothing with the store [h]: the graph
    object, its nodes, their metadata dicts and its edges all lie past
    [h], where [h] holds no object. *)
Definition separate (h h' : heap) (lp : loc) : Prop :=
  length h ≤ lp
  ∧ ∃ id name plat ns es,
      h' !! lp = Some (OGraph id name plat ns es)
      ∧ Forall (fresh_node (length h) h') ns
      ∧ Forall (λ e, length h ≤ e ∧ is_Some (read_edge h' e)) es.

(** A store in the shape of the simulator's test: a pipeline and a job
    joined by an edge, two findings on the job, and a plan with one
    suggestion for the first of them. *)
Definition example_heap : heap :=
  [ ODict ∅;
    ONode "n1" PIPELINE "Pipeline" 0;
    ODict {[ "timeout" := VInt 30 ]};
    ONode "n2" JOB "Build" 2;
    OEdge (mkEdge "e1" CALLS "n1" "n2");
    OGraph "g" "Test CI" None [1; 3] [4] ].

Definition example_graph : CICDGraph :=
  mkGraph "g" "Test CI" None
    [ mkNode "n1" PIPELINE "Pipeline" ∅;
      mkNode "n2" JOB "Build" {[ "timeout" := VInt 30 ]} ]
    [ mkEdge "e1" CALLS "n1" "n2" ].

Definition example_findings : list Finding :=
  [ mkFinding "no-timeout" ["n2"]; mkFinding "unpinned-images" ["n2"] ].

Definition example_plan : RefactorPlan :=
  mkPlan "p" "Test CI"
    [ mkSuggestion "no-timeout" "Add timeout" "low" "5m" "runs-on: ubuntu"
        "timeout-minutes: 30" ["n2"] ].

(** A scorer to run the example with: it counts annotated nodes. *)
Definition example_scores (g : CICDGraph) : @Scores nat :=
  mkScores (length (nodes g)) (length (edges g))
    (length (filter (λ n, is_Some (metadata n !! "refactored")) (nodes g))).

(** What the annotations leave of a metadata dict, and what they put
    into it. *)
Definition agree (d d0 : Metadata) : Prop :=
  ∀ key, key ≠ "refactored" → key ≠ "refactor_rule" → d !! key = d0 !! key.

Definition marked (plan : RefactorPlan) (d : Metadata) : Prop :=
  d !! "refactored" = Some (VBool true)
  ∧ ∃ s, s ∈ suggestions plan
         ∧ d !! "refactor_rule" = Some (VStr (rule_id s)).

(** The store while suggestions are applied, with the contents of the
    dicts: each node of the copy has the metadata of its original outside
    the two annotation keys, and the nodes in [must] (a location and the
    id of the node there) are marked. *)
Definition mark_inv (h0 : heap) (lp : loc) (g : CICDGraph)
    (ns' es' : list loc) (plan : RefactorPlan)
    (must : loc → string → Prop) (h : heap) : Prop :=
  proj_inv h0 lp g ns' es' h
  ∧ Forall2 (λ k n, ∃ m d,
               h !! k = Some (ONode (node_id n) (node_type n) (node_name n) m)
               ∧ h !! m = Some (ODict d)
               ∧ agree d (metadata n)
               ∧ (must k (node_id n) → marked plan d))
      ns' (nodes g).

(** A plan whose only suggestion names no node of the example graph,
    and a plan with no suggestion. *)
Definition stray_plan : RefactorPlan :=
  mkPlan "q" "Stray"
    [ mkSuggestion "no-timeout" "Add timeout" "low" "5m" "" "" ["n9"] ].

Definition empty_plan : RefactorPlan := mkPlan "e" "Empty" [].

End Simulator.

(** ** More string methods *)

Module PyText.

Definition quote : ascii := "034"%char.
Definition newline : ascii := "010"%char.
Definition slash : ascii := "/"%char.

(** [s.replace(old, new)] for a pattern [old] of one character. *)
Fixpoint replace_char (old : ascii) (new : string) (s : string) : string :=
  match s with
  | EmptyString => EmptyString
  | String c s' =>
      if decide (c = old) then new +:+ replace_char old new s'
      else String c (replace_char old new s')
  end.

(** [c in s] for one character. *)
Fixpoint has_char (c : ascii) (s : string) : bool :=
  match s with
  | EmptyString => false
  | String d s' => bool_decide (d = c) || has_char c s'
  end.

(** [sub in s]. *)
Fixpoint contains (sub s : string) : bool :=
  PyStr.startswith s sub
  || match s with
     | EmptyString => false
     | String _ s' => contains sub s'
     end.

(** [s.endswith(suffix)]. *)
Definition endswith (s suffix : string) : bool :=
  PyStr.startswith (PyStr.reverse s) (PyStr.reverse suffix).

(** [s.rsplit(sep, 1)[-1]] for a separator of one character: what
    follows the last separator, or all of [s] when it has none. *)
Fixpoint rsplit_last (sep : ascii) (s : string) : string :=
  match s with
  | EmptyString => EmptyString
  | String c s' =>
      if has_char sep s' then rsplit_last sep s'
      else if decide (c = sep) then s' else s
  end.

(** [sep.join(lines)]. *)
Fixpoint join (sep : string) (lines : list string) : string :=
  match lines with
  | [] => EmptyString
  | [l] => l
  | l :: rest => l +:+ sep +:+ join sep rest
  end.

(** The number of occurrences of a character. *)
Fixpoint count_char (c : ascii) (s : string) : nat :=
  match s with
  | EmptyString => 0
  | String d s' => (if decide (d = c) then 1 else 0) + count_char c s'
  end.

End PyText.

(** ** Export helpers ([export.py]) *)

Module Exporter.
Import PyText.

Definition amp : ascii := "&"%char.
Definition lt : ascii := "<"%char.
Definition gt : ascii := ">"%char.

Definition _xml_escape (text : string) : string :=
  replace_char quote "&quot;"
    (replace_char gt "&gt;"
       (replace_char lt "&lt;"
          (replace_char amp "&amp;" text))).

Definition _dot_escape (text : string) : string :=
  replace_char newline "\n"
    (replace_char quote (String "\"%char (String quote EmptyString)) text).

Definition _node_color (node_type : string) : string :=
  let colors : gmap string string :=
    list_to_map
      [ ("pipeline", "#4CAF50"); ("job", "#2196F3"); ("stage", "#03A9F4");
        ("step", "#00BCD4"); ("repository", "#FF9800");
        ("artifact", "#FFC107"); ("container_image", "#9C27B0");
        ("runner", "#607D8B"); ("secret_ref", "#F44336");
        ("environment", "#8BC34A"); ("external_service", "#795548");
        ("doc_file", "#E91E63") ] in
  default "lightblue" (colors !! node_type).

(** The characters around the pieces of a DOT statement. *)
Definition q : string := String quote EmptyString.

(** The two loops of [export_dot]: one statement per node, one per
    edge. *)
Definition dot_node_line (node : Node) : string :=
  let label :=
    node_name node +:+ "\n(" +:+ node_type_str (node_type node) +:+ ")" in
  let color := _node_color (node_type_str (node_type node)) in
  "  " +:+ q +:+ _dot_escape (node_id node) +:+ q +:+ " "
  +:+ "[label=" +:+ q +:+ _dot_escape label +:+ q
  +:+ ", fillcolor=" +:+ q +:+ color +:+ q +:+ "];".

Definition dot_edge_line (edge : Edge) : string :=
  "  " +:+ q +:+ _dot_escape (source_node_id edge) +:+ q +:+ " -> "
  +:+ q +:+ _dot_escape (target_node_id edge) +:+ q +:+ " "
  +:+ "[label=" +:+ q +:+ _dot_escape (edge_type_str (edge_type edge))
  +:+ q +:+ "];".

Definition dot_lines (graph : CICDGraph) : list string :=
  let lines :=
    ["digraph " +:+ q +:+ _dot_escape (graph_name graph) +:+ q +:+ " {"] in
  let lines := lines ++ ["  rankdir=LR;"] in
  let lines :=
    lines ++ ["  node [shape=box, style=filled, fillcolor=lightblue];"] in
  let lines := lines ++ [""] in
  let lines := foldl (λ lines node, lines ++ [dot_node_line node])
                 lines (nodes graph) in
  let lines := lines ++ [""] in
  let lines := foldl (λ lines edge, lines ++ [dot_edge_line edge])
                 lines (edges graph) in
  lines ++ ["}"].

Definition export_dot (graph : CICDGraph) : string :=
  join (String newline EmptyString) (dot_lines graph).

(** *** Notions used to state the export properties *)

(** One-pass escaping of a character, as XML text. *)
Definition xml_char (c : ascii) : string :=
  if decide (c = amp) then "&amp;"
  else if decide (c = lt) then "&lt;"
  else if decide (c = gt) then "&gt;"
  else if decide (c = quote) then "&quot;"
  else String c EmptyString.

Fixpoint xml_one_pass (s : string) : string :=
  match s with
  | EmptyString => EmptyString
  | String c s' => xml_char c +:+ xml_one_pass s'
  end.

End Exporter.

(** ** Documentation detection ([doc_intel.py]) *)

Module DocIntel.
Import PyText.

(** Modelled from the spec: the members of [atlas_sdk.enums.DocType] that
    [detect_doc_files]
    returns. *)
Inductive DocType : Type :=
  | README | ARCHITECTURE | RUNBOOK | SECURITY_POLICY | CODEOWNERS
  | ADR | DOCS_DIR.

#[global] Instance DocType_eq_dec : EqDecision DocType.
Proof. solve_decision. Defined.

(** [basename = lower.rsplit("/", 1)[-1] if "/" in lower else lower]. *)
Definition basename_of (lower : string) : string :=
  if has_char slash lower then rsplit_last slash lower else lower.

(** The body of the loop of [detect_doc_files] for one path: the entry
    appended to [results], if any. *)
Definition classify (path : string) : option (string * DocType) :=
  let lower := PyStr.lower path in
  let basename := basename_of lower in
  if bool_decide (basename ∈ ["readme.md"; "readme.rst"; "readme.txt";
                              "readme"])
  then Some (path, README)
  else if bool_decide (basename ∈ ["architecture.md"; "arch.md"])
  then Some (path, ARCHITECTURE)
  else if bool_decide (basename ∈ ["runbook.md"; "playbook.md"])
  then Some (path, RUNBOOK)
  else if bool_decide (basename ∈ ["security.md"; "security_policy.md"])
  then Some (path, SECURITY_POLICY)
  else if bool_decide (basename ∈ ["codeowners"; ".github/codeowners"])
  then Some (path, CODEOWNERS)
  else if contains "adr" lower && endswith basename ".md"
  then Some (path, ADR)
  else if contains "docs/" lower || contains "doc/" lower
  then Some (path, DOCS_DIR)
  else None.

Definition detect_doc_files (file_paths : list string)
    : list (string * DocType) :=
  foldl (λ results path,
           match classify path with
           | Some r => results ++ [r]
           | None => results
           end) [] file_paths.

(** The expected categories, in the order of the dictionary. *)
Definition _EXPECTED_DOCS : list (string * string) :=
  [ ("readme", "README file");
    ("architecture", "Architecture documentation");
    ("runbook", "Runbook / operations guide");
    ("security_policy", "Security policy");
    ("codeowners", "Code ownership file") ].

(** The two floating-point fields hold decimals that the code writes or
    multiples of 20, which [round] returns exactly: the embedding keeps
    them as rationals. *)
Record DocScore : Type := mkDocScore {
  total_expected : nat;
  found : list string;
  missing : list string;
  coverage_pct : Q;
  drift_warnings : list string;
  drift_score : Q;
}.

Definition new_score : DocScore :=
  mkDocScore (length _EXPECTED_DOCS) [] [] 0 [] 0.

Definition append_found (score : DocScore) (doc_label : string) : DocScore :=
  mkDocScore (total_expected score) (found score ++ [doc_label])
    (missing score) (coverage_pct score) (drift_warnings score)
    (drift_score score).

Definition append_missing (score : DocScore) (doc_label : string)
    : DocScore :=
  mkDocScore (total_expected score) (found score)
    (missing score ++ [doc_label]) (coverage_pct score)
    (drift_warnings score) (drift_score score).

Definition set_coverage (score : DocScore) (pct : Q) : DocScore :=
  mkDocScore (total_expected score) (found score) (missing score) pct
    (drift_warnings score) (drift_score score).

(** [max(a, b)]: the first argument unless the second is greater. *)
Definition py_max (a b : Q) : Q := if Qle_bool b a then a else b.

(** [score.drift_warnings.append(warning)] followed by
    [score.drift_score = max(score.drift_score, level)]. *)
Definition warn (score : DocScore) (warning : string) (level : Q)
    : DocScore :=
  mkDocScore (total_expected score) (found score) (missing score)
    (coverage_pct score) (drift_warnings score ++ [warning])
    (py_max (drift_score score) level).

Definition deploy_warning : string :=
  "Pipeline deploys to environments but no runbook documentation found".

Definition secrets_warning : string :=
  "Pipeline uses secrets but no security policy documentation found".

Section score_documentation.
(** [DocFileNode] belongs to [atlas_sdk]: for a node that is a
    [DocFileNode], the value of its [doc_type]; [None] for a node of
    another class. *)
Variable doc_type_value : Node → option string.

Definition found_types_of (graph : CICDGraph) : gset string :=
  let doc_nodes := filter (λ n, node_type n = DOC_FILE) (nodes graph) in
  foldl (λ found_types node,
           match doc_type_value node with
           | Some v => found_types ∪ {[ v ]}
           | None => found_types
           end) ∅ doc_nodes.

Definition score_documentation (graph : CICDGraph) : DocScore :=
  let found_types := found_types_of graph in
  let score := new_score in
  let score :=
    foldl (λ score '(doc_key, doc_label),
             if decide (doc_key ∈ found_types)
             then append_found score doc_label
             else append_missing score doc_label)
      score _EXPECTED_DOCS in
  let score :=
    if decide (0 < total_expected score)
    then set_coverage score
           (inject_Z (Z.of_nat (length (found score)))
            / inject_Z (Z.of_nat (total_expected score)) * 100)%Q
    else score in
  let has_deploy :=
    existsb (λ n, bool_decide (node_type n ∈ [ENVIRONMENT; STAGE])
                  && contains "deploy" (PyStr.lower (node_name n)))
      (nodes graph) in
  let has_runbook := bool_decide ("runbook" ∈ found_types) in
  let score :=
    if has_deploy && negb has_runbook
    then warn score deploy_warning (1 # 2)%Q
    else score in
  let has_secrets :=
    existsb (λ n, bool_decide (node_type n = SECRET_REF)) (nodes graph) in
  let has_security := bool_decide ("security_policy" ∈ found_types) in
  let score :=
    if has_secrets && negb has_security
    then warn score secrets_warning (3 # 10)%Q
    else score in
  score.

End score_documentation.

End DocIntel.

(** * Properties *)

(** ** Python equality on metadata *)

Lemma py_eq_refl (v : value) : py_eq v v = true.
Proof.
  revert v. fix IH 1. intros [| b | z | s | l]; simpl.
  - done.
  - by apply bool_decide_eq_true.
  - by apply Z.eqb_eq.
  - by apply bool_decide_eq_true.
  - induction l as [| x l IHl]; [done |].
    by rewrite IH, IHl.
Qed.

Lemma metadata_eq_refl (m : Metadata) : metadata_eq m m = true.
Proof.
  unfold metadata_eq. apply andb_true_iff. split.
  - by apply bool_decide_eq_true.
  - apply forallb_forall. intros [k v] Hin. simpl.
    apply list_elem_of_In, elem_of_map_to_list in Hin.
    rewrite Hin. apply py_eq_refl.
Qed.

Lemma filter_one {A} (P : A → Prop) `{!∀ x, Decision (P x)} (x : A) :
  filter P [x] = if decide (P x) then [x] else [].
Proof. by rewrite filter_cons, filter_nil. Qed.

Lemma filter_none {A} (P : A → Prop) `{!∀ x, Decision (P x)} (l : list A) :
  (∀ x, x ∈ l → ¬ P x) → filter P l = [].
Proof.
  induction l as [| x l IH]; intros Hl; [done |].
  rewrite filter_cons, decide_False by (apply Hl; by left).
  apply IH. intros y Hy. apply Hl. by right.
Qed.

Lemma Forall2_through {A B C} (P : A → B → Prop) (R : A → C → Prop)
    (Q : B → C → Prop) (xs : list A) (ys : list B) (zs : list C) :
  Forall2 P xs ys → Forall2 R xs zs →
  (∀ x y z, P x y → R x z → Q y z) → Forall2 Q ys zs.
Proof.
  intros HP. revert zs. induction HP as [| x y xs ys Hxy HP IH];
    intros zs HR HQ.
  - apply Forall2_nil_inv_l in HR as ->. constructor.
  - apply Forall2_cons_inv_l in HR as (z & zs' & Hxz & HR & ->).
    constructor; [by apply (HQ x) | by apply IH].
Qed.

(** ** GraphBuilder *)

Module BuilderProps.
Import Builder.

(** The string key of the index separates exactly the pairs
    [(node_type, name)]: no type renders with a colon in it. *)
Lemma index_key_inj (n m : Node) :
  index_key n = index_key m ↔ node_key n = node_key m.
Proof.
  unfold index_key, node_key. split.
  - destruct (node_type n), (node_type m); intros H;
      cbv [node_type_str String.append] in H;
      try discriminate H; injection H as H; by rewrite H.
  - intros [= -> ->]. done.
Qed.

Lemma add_edges_step_nodes ids b e :
  _node_index (add_edges_step ids b e) = _node_index b
  ∧ nodes (_graph (add_edges_step ids b e)) = nodes (_graph b).
Proof. unfold add_edges_step. by case_decide. Qed.

Lemma add_edges_nodes b es :
  _node_index (add_edges b es) = _node_index b
  ∧ nodes (_graph (add_edges b es)) = nodes (_graph b).
Proof.
  unfold add_edges. generalize (valid_ids b). intros s.
  revert b. induction es as [| e es IH]; intros b; simpl; [done |].
  destruct (IH (add_edges_step s b e)) as [-> ->].
  apply add_edges_step_nodes.
Qed.

Lemma add_edges_step_edges s b e :
  edges (_graph (add_edges_step s b e))
  = edges (_graph b)
    ++ filter (λ e, source_node_id e ∈ s ∧ target_node_id e ∈ s) [e].
Proof.
  unfold add_edges_step. rewrite filter_one.
  case_decide; simpl; [done | by rewrite app_nil_r].
Qed.

Lemma foldl_add_edges_step_edges s b es :
  edges (_graph (foldl (add_edges_step s) b es))
  = edges (_graph b)
    ++ filter (λ e, source_node_id e ∈ s ∧ target_node_id e ∈ s) es.
Proof.
  revert b. induction es as [| e es IH]; intros b; simpl.
  - by rewrite app_nil_r.
  - rewrite IH, add_edges_step_edges, <- app_assoc.
    f_equal. by rewrite <- filter_app.
Qed.

(** What one [add_edges] call appends: the edges of its argument with
    both endpoints among the ids of the nodes present at the call. *)
Lemma add_edges_edges b es :
  edges (build (add_edges b es))
  = edges (build b)
    ++ filter (λ e, source_node_id e ∈ ids b ∧ target_node_id e ∈ ids b) es.
Proof.
  unfold build, add_edges. rewrite foldl_add_edges_step_edges. f_equal.
  apply list_filter_iff. intros e. unfold valid_ids, ids, build.
  by rewrite !elem_of_list_to_set.
Qed.

Lemma add_nodes_step_edges b n :
  edges (_graph (add_nodes_step b n)) = edges (_graph b).
Proof. unfold add_nodes_step. by case_decide. Qed.

Lemma add_nodes_edges b ns :
  edges (_graph (add_nodes b ns)) = edges (_graph b).
Proof.
  unfold add_nodes. revert b. induction ns as [| n ns IH]; intros b; simpl.
  - done.
  - by rewrite IH, add_nodes_step_edges.
Qed.

Lemma tracks_new gid name plat : tracks (new gid name plat) [].
Proof. split; simpl; [intros n; by rewrite lookup_empty | done | done]. Qed.

Lemma tracks_step b seen n :
  tracks b seen → tracks (add_nodes_step b n) (seen ++ [n]).
Proof.
  intros [Hidx Hfirst Hord]. unfold add_nodes_step. case_decide as Hnew.
  - apply Hidx in Hnew. split; simpl.
    + intros m. rewrite filter_app, filter_one.
      destruct (decide (index_key n = index_key m)) as [Heq | Hne].
      * rewrite Heq, lookup_insert_eq.
        apply index_key_inj in Heq. rewrite decide_True by done.
        split; [done |]. intros H. by apply app_eq_nil in H as [_ ?].
      * rewrite lookup_insert_ne by done. rewrite Hidx.
        rewrite decide_False by (by rewrite <- index_key_inj).
        by rewrite app_nil_r.
    + intros k. rewrite !filter_app, !filter_one.
      rewrite Hfirst, head_app.
      destruct (decide (node_key n = k)) as [<- | Hne].
      * by rewrite Hnew.
      * rewrite app_nil_r. by destruct (head _).
    + by apply sublist_app.
  - split.
    + intros m. rewrite filter_app, filter_one.
      rewrite Hidx. case_decide as Heq; [| by rewrite app_nil_r].
      split; [| intros H; by apply app_eq_nil in H as [_ ?]].
      intros Hm. exfalso. apply Hnew, Hidx.
      rewrite <- Hm. apply list_filter_iff. intros x. by rewrite Heq.
    + intros k. rewrite filter_app, filter_one.
      rewrite Hfirst, head_app.
      destruct (decide (node_key n = k)) as [<- | Hne].
      * destruct (head (filter _ seen)) eqn:Hhd; [done |].
        exfalso. apply Hnew, Hidx. by apply head_None.
      * by destruct (head _).
    + by apply sublist_inserts_r.
Qed.

Lemma tracks_add_nodes b seen ns :
  tracks b seen → tracks (add_nodes b ns) (seen ++ ns).
Proof.
  unfold add_nodes. revert b seen.
  induction ns as [| n ns IH]; intros b seen H; simpl.
  - by rewrite app_nil_r.
  - replace (seen ++ n :: ns) with ((seen ++ [n]) ++ ns)
      by (by rewrite <- app_assoc).
    by apply IH, tracks_step.
Qed.

Lemma tracks_add_edges b seen es :
  tracks b seen → tracks (add_edges b es) seen.
Proof.
  intros [Hidx Hfirst Hord].
  destruct (add_edges_nodes b es) as [Hi Hn].
  split; intros; rewrite ?Hi, ?Hn; auto.
Qed.

Lemma inputs_app cs1 cs2 : inputs (cs1 ++ cs2) = inputs cs1 ++ inputs cs2.
Proof. unfold inputs. apply bind_app. Qed.

Lemma run_app b cs1 cs2 : run b (cs1 ++ cs2) = run (run b cs1) cs2.
Proof. apply foldl_app. Qed.

Lemma tracks_run b seen cs :
  tracks b seen → tracks (run b cs) (seen ++ inputs cs).
Proof.
  revert b seen. induction cs as [| c cs IH]; intros b seen H.
  - simpl. by rewrite app_nil_r.
  - change (c :: cs) with ([c] ++ cs). rewrite run_app, inputs_app.
    rewrite (assoc_L (++)). apply IH.
    destruct c as [ns | es]; simpl.
    + rewrite app_nil_r. by apply tracks_add_nodes.
    + rewrite !app_nil_r. by apply tracks_add_edges.
Qed.

(** The builder's tests, run on the embedding. *)
Example edge_validation :
  let p := mkNode "n1" PIPELINE "build" ∅ in
  let g := from_parse_result "g" "test" [p; mkNode "n2" PIPELINE "build" ∅]
             [mkEdge "e1" CALLS "n1" "nonexistent"] None in
  nodes g = [p] ∧ edges g = [].
Proof. split; reflexivity. Qed.

(** C3. Over any sequence of calls on one builder, the nodes of the built
    graph that carry a given [(node_type, name)] key are exactly the first
    node handed in with that key, whatever the metadata of the later
    ones; so every key handed in, however often, is carried by exactly one
    node of the result, and the result keeps the order of the input. *)
Theorem first_node_wins gid name plat (cs : list call) :
  let g := build (run (new gid name plat) cs) in
  (∀ k, filter (λ m, node_key m = k) (nodes g)
        = option_list (head (filter (λ m, node_key m = k) (inputs cs))))
  ∧ (∀ n, n ∈ inputs cs →
          length (filter (λ m, node_key m = node_key n) (nodes g)) = 1)
  ∧ nodes g `sublist_of` inputs cs.
Proof.
  intros g.
  destruct (tracks_run (new gid name plat) [] cs (tracks_new _ _ _))
    as [_ Hfirst Hord].
  simpl in Hfirst, Hord. fold g in Hfirst, Hord.
  split; [done |]. split; [| done].
  intros n Hn. rewrite Hfirst.
  destruct (head _) eqn:Hhd; [done |].
  apply head_None in Hhd.
  by apply (filter_nil_not_elem_of _ _ n) in Hhd.
Qed.

Lemma first_node_wins_witness :
  let p1 := mkNode "n1" PIPELINE "build" ∅ in
  let p2 := mkNode "n2" PIPELINE "build" {[ "timeout" := VInt 30 ]} in
  let g := build (run (new "g" "test" None) [AddNodes [p1]; AddNodes [p2]]) in
  nodes g = [p1]
  ∧ length (filter (λ m, node_key m = node_key p2) (nodes g)) = 1.
Proof.
  intros p1 p2 g. split; [reflexivity |].
  apply (first_node_wins "g" "test" None [AddNodes [p1]; AddNodes [p2]]).
  simpl. repeat constructor.
Defined.

Lemma ids_add_nodes_step b n : ids b ⊆ ids (add_nodes_step b n).
Proof.
  unfold ids, build, add_nodes_step. case_decide; simpl; [| done].
  rewrite fmap_app. intros x Hx. apply elem_of_app. by left.
Qed.

Lemma ids_add_nodes b ns : ids b ⊆ ids (add_nodes b ns).
Proof.
  unfold add_nodes. revert b. induction ns as [| n ns IH]; intros b; simpl.
  - done.
  - etrans; [apply (ids_add_nodes_step b n) | apply IH].
Qed.

Lemma ids_add_edges b es : ids (add_edges b es) = ids b.
Proof.
  unfold ids, build. by destruct (add_edges_nodes b es) as [_ ->].
Qed.

Lemma add_edges_skips_unknown b es e :
  source_node_id e ∉ ids b ∨ target_node_id e ∉ ids b →
  e ∉ drop (length (edges (build b))) (edges (build (add_edges b es))).
Proof.
  intros Hbad. rewrite add_edges_edges, drop_app_length.
  rewrite list_elem_of_filter. tauto.
Qed.

(** C4. Every edge of a built graph was appended by an [add_edges] call
    at which both its endpoints were ids of nodes already in the graph;
    and a call appends, of its argument, exactly the edges with both
    endpoints among those ids, in order, so an edge with a missing
    endpoint is not among what the call adds.  Both mutators are total
    functions: nothing is raised. *)
Theorem built_edges_have_known_endpoints gid name plat (cs : list call) :
  let b := run (new gid name plat) cs in
  (∀ e, e ∈ edges (build b) →
     ∃ cs1 es cs2,
       cs = cs1 ++ AddEdges es :: cs2 ∧ e ∈ es
       ∧ source_node_id e ∈ ids (run (new gid name plat) cs1)
       ∧ target_node_id e ∈ ids (run (new gid name plat) cs1))
  ∧ (∀ es,
       edges (build (add_edges b es))
       = edges (build b)
         ++ filter (λ e, source_node_id e ∈ ids b ∧ target_node_id e ∈ ids b) es)
  ∧ (∀ es e,
       source_node_id e ∉ ids b ∨ target_node_id e ∉ ids b →
       e ∉ drop (length (edges (build b))) (edges (build (add_edges b es)))).
Proof.
  intros b. split; [| split].
  - subst b. induction cs as [| c cs IH] using rev_ind; intros e He.
    + by apply elem_of_nil in He.
    + rewrite run_app in He. destruct c as [ns | es]; simpl in He.
      * unfold build in He. rewrite add_nodes_edges in He.
        destruct (IH e He) as (cs1 & es & cs2 & -> & ? & ? & ?).
        exists cs1, es, (cs2 ++ [AddNodes ns]).
        by rewrite <- app_assoc.
      * rewrite add_edges_edges in He.
        apply elem_of_app in He as [He | He].
        -- destruct (IH e He) as (cs1 & es' & cs2 & -> & ? & ? & ?).
           exists cs1, es', (cs2 ++ [AddEdges es]).
           by rewrite <- app_assoc.
        -- apply list_elem_of_filter in He as [[? ?] ?].
           by exists cs, es, [].
  - intros es. apply add_edges_edges.
  - intros es e. apply add_edges_skips_unknown.
Qed.

Lemma built_edges_have_known_endpoints_witness :
  let p := mkNode "n1" PIPELINE "build" ∅ in
  let j := mkNode "n2" JOB "compile" ∅ in
  let ok := mkEdge "e1" CALLS "n1" "n2" in
  let bad := mkEdge "e2" CALLS "n1" "nonexistent" in
  let b := run (new "g" "test" None) [AddNodes [p; j]] in
  edges (build (add_edges b [ok; bad])) = [ok]
  ∧ bad ∉ drop (length (edges (build b)))
             (edges (build (add_edges b [ok; bad]))).
Proof.
  intros p j ok bad b. split; [reflexivity |].
  apply (built_edges_have_known_endpoints "g" "test" None [AddNodes [p; j]]).
  right. change ("nonexistent" ∉ ["n1"; "n2"]).
  rewrite !not_elem_of_cons.
  repeat split; try discriminate. apply not_elem_of_nil.
Defined.

(** C10, as the code has it. Once a node has been handed to [add_nodes]
    and no node of the graph carries its id (it was dropped as a
    duplicate, and its id is not the id of a kept node), a node of the
    same type and name is in the graph, and an [add_edges] call adds no
    edge whose source or target is that id. *)
Theorem dropped_duplicate_loses_edges gid name plat (cs : list call)
    (n : Node) (es : list Edge) (e : Edge) :
  let b := run (new gid name plat) cs in
  n ∈ inputs cs →
  node_id n ∉ ids b →
  source_node_id e = node_id n ∨ target_node_id e = node_id n →
  (∃ n', n' ∈ nodes (build b) ∧ n' ≠ n
         ∧ node_type n' = node_type n ∧ node_name n' = node_name n)
  ∧ e ∉ drop (length (edges (build b))) (edges (build (add_edges b es))).
Proof.
  intros b Hin Hid He. split.
  - destruct (tracks_run (new gid name plat) [] cs (tracks_new _ _ _))
      as [_ Hfirst _].
    simpl in Hfirst. specialize (Hfirst (node_key n)).
    destruct (head (filter _ (inputs cs))) as [n0 |] eqn:Hhd.
    + assert (n0 ∈ filter (λ m, node_key m = node_key n) (nodes (build b)))
        as Hn0 by (unfold build, b; rewrite Hfirst; simpl; constructor).
      apply list_elem_of_filter in Hn0 as [Hkey Hn0].
      exists n0. split; [done |]. split.
      * intros ->. apply Hid. unfold ids. by apply list_elem_of_fmap_2.
      * by injection Hkey.
    + apply head_None in Hhd.
      by apply (filter_nil_not_elem_of _ _ n) in Hhd.
  - apply (add_edges_skips_unknown b es e).
    destruct He as [-> | ->]; auto.
Qed.

Lemma dropped_duplicate_loses_edges_witness :
  let p1 := mkNode "n1" PIPELINE "build" ∅ in
  let p2 := mkNode "n2" PIPELINE "build" ∅ in
  let e := mkEdge "e1" CALLS "n1" "n2" in
  let b := run (new "g" "test" None) [AddNodes [p1; p2]] in
  (∃ n', n' ∈ nodes (build b) ∧ n' ≠ p2
         ∧ node_type n' = PIPELINE ∧ node_name n' = "build")
  ∧ e ∉ drop (length (edges (build b))) (edges (build (add_edges b [e]))).
Proof.
  intros p1 p2 e b.
  apply (dropped_duplicate_loses_edges "g" "test" None
           [AddNodes [p1; p2]] p2 [e] e).
  - simpl. repeat constructor.
  - change ("n2" ∉ ["n1"]). rewrite not_elem_of_cons.
    split; [discriminate | apply not_elem_of_nil].
  - by right.
Defined.

(** C10 as stated fails when the dropped node's id is also the id of a
    node that was kept: the same node handed in twice is dropped the
    second time, and an edge from its id is still added. *)
Lemma duplicate_with_kept_id_keeps_edges :
  let p := mkNode "n1" PIPELINE "build" ∅ in
  let j := mkNode "n2" JOB "compile" ∅ in
  let e := mkEdge "e1" CALLS "n1" "n2" in
  let b1 := add_nodes (new "g" "test" None) [p; j] in
  let b2 := add_nodes b1 [p] in
  add_nodes_step b1 p = b1
  ∧ nodes (build b2) = [p; j]
  ∧ source_node_id e = node_id p
  ∧ edges (build (add_edges b2 [e])) = [e].
Proof. repeat split; reflexivity. Qed.

(** *** Further properties of the builder *)

Lemma NoDup_fmap_filter {A B} `{EqDecision B} (f : A → B) (l : list A) :
  (∀ k, length (filter (λ x, f x = k) l) ≤ 1) → NoDup (f <$> l).
Proof.
  induction l as [| x l IH]; intros Hone; csimpl; [constructor |].
  apply NoDup_cons. split.
  - intros (y & Hxy & Hy)%list_elem_of_fmap.
    specialize (Hone (f x)). rewrite filter_cons, decide_True in Hone by done.
    assert (y ∈ filter (λ z, f z = f x) l) as Hin
      by by apply list_elem_of_filter.
    destruct (filter _ l); [by apply elem_of_nil in Hin | simpl in Hone; lia].
  - apply IH. intros k. specialize (Hone k). rewrite filter_cons in Hone.
    case_decide; simpl in Hone; lia.
Qed.

(** X1. No two nodes of a built graph share their type and name. *)
Theorem built_keys_distinct gid name plat (cs : list call) :
  NoDup (node_key <$> nodes (build (run (new gid name plat) cs))).
Proof.
  destruct (tracks_run (new gid name plat) [] cs (tracks_new _ _ _))
    as [_ Hfirst _].
  apply NoDup_fmap_filter. intros k. unfold build. rewrite Hfirst.
  destruct (head _); simpl; lia.
Qed.

Lemma closed_add_nodes b ns : closed b → closed (add_nodes b ns).
Proof.
  unfold closed, build. rewrite add_nodes_edges. intros H.
  eapply Forall_impl; [exact H |]. simpl. intros e [Hs Ht].
  split; by apply (ids_add_nodes b ns).
Qed.

Lemma closed_add_edges b es : closed b → closed (add_edges b es).
Proof.
  unfold closed. rewrite add_edges_edges, ids_add_edges. intros H.
  apply Forall_app. split; [done |].
  apply Forall_forall. by intros e [? _]%list_elem_of_filter.
Qed.

(** X2. Whatever the calls and their order, a built graph has no
    dangling edge: both endpoints of each of its edges are ids of its
    nodes. *)
Theorem built_graph_closed gid name plat (cs : list call) :
  let g := build (run (new gid name plat) cs) in
  Forall (λ e, source_node_id e ∈ node_id <$> nodes g
               ∧ target_node_id e ∈ node_id <$> nodes g) (edges g).
Proof.
  simpl. change (closed (run (new gid name plat) cs)).
  assert (closed (new gid name plat)) as H0 by apply Forall_nil_2.
  revert H0. generalize (new gid name plat).
  induction cs as [| c cs IH]; intros b Hb; simpl; [done |].
  apply IH. destruct c; [by apply closed_add_nodes | by apply closed_add_edges].
Qed.

Lemma add_nodes_step_known b n :
  _node_index b !! index_key n ≠ None → add_nodes_step b n = b.
Proof. intros H. unfold add_nodes_step. by rewrite decide_False. Qed.

Lemma add_nodes_step_index b n k :
  _node_index b !! k ≠ None → _node_index (add_nodes_step b n) !! k ≠ None.
Proof.
  intros H. unfold add_nodes_step. case_decide; simpl; [| done].
  rewrite lookup_insert. by case_decide.
Qed.

Lemma add_nodes_index b ns k :
  _node_index b !! k ≠ None → _node_index (add_nodes b ns) !! k ≠ None.
Proof.
  unfold add_nodes. revert b. induction ns as [| n ns IH]; intros b H; simpl.
  - done.
  - by apply IH, add_nodes_step_index.
Qed.

Lemma add_nodes_indexes b ns n :
  n ∈ ns → _node_index (add_nodes b ns) !! index_key n ≠ None.
Proof.
  unfold add_nodes. revert b. induction ns as [| x ns IH]; intros b Hn.
  - by apply elem_of_nil in Hn.
  - apply elem_of_cons in Hn as [-> | Hn]; simpl; [| by apply IH].
    apply (add_nodes_index _ ns). unfold add_nodes_step.
    case_decide as Hx; simpl; [by rewrite lookup_insert_eq | done].
Qed.

Lemma add_nodes_known b ns :
  (∀ n, n ∈ ns → _node_index b !! index_key n ≠ None) → add_nodes b ns = b.
Proof.
  unfold add_nodes. induction ns as [| n ns IH]; intros H; simpl; [done |].
  rewrite add_nodes_step_known by (apply H; by left).
  apply IH. intros m Hm. apply H. by right.
Qed.

(** X3. Handing the same nodes to [add_nodes] a second time changes
    nothing, in any state of the builder. *)
Theorem add_nodes_again (b : GraphBuilder) (ns : list Node) :
  add_nodes (add_nodes b ns) ns = add_nodes b ns.
Proof. apply add_nodes_known. intros n Hn. by apply add_nodes_indexes. Qed.

Lemma add_edges_no_ids b es :
  nodes (_graph b) = [] → add_edges b es = b.
Proof.
  intros Hn. unfold add_edges, valid_ids. rewrite Hn. simpl.
  induction es as [| e es IH]; simpl; [done |].
  unfold add_edges_step at 2. rewrite decide_False; [done |].
  intros [H _]. by apply elem_of_empty in H.
Qed.

(** X4. Edges handed in before any node are all dropped: on a builder
    with no node yet, [add_edges] does nothing, so a sequence of calls
    that starts with it builds what the rest of the sequence builds. *)
Theorem add_edges_before_nodes gid name plat (es : list Edge)
    (cs : list call) :
  add_edges (new gid name plat) es = new gid name plat
  ∧ run (new gid name plat) (AddEdges es :: cs) = run (new gid name plat) cs.
Proof.
  assert (add_edges (new gid name plat) es = new gid name plat) as H
    by by apply add_edges_no_ids.
  split; [done |]. simpl. by rewrite H.
Qed.


End BuilderProps.

(** ** Insertion-ordered dictionaries: lookup after update *)

Module PyDictProps.
Section dict.
Context {K V : Type} `{EqDecision K}.
Implicit Types (d : list (K * V)) (k : K) (v : V).

Lemma get_set d k v k' :
  PyDict.get (PyDict.set d k v) k'
  = if decide (k = k') then Some v else PyDict.get d k'.
Proof.
  induction d as [| [k0 v0] d IH]; simpl.
  - done.
  - destruct (decide (k0 = k)) as [-> | Hne]; simpl.
    + by destruct (decide (k = k')).
    + rewrite IH. destruct (decide (k0 = k')) as [-> | ?]; [| done].
      by rewrite decide_False.
Qed.

Lemma get_is_Some d k : is_Some (PyDict.get d k) ↔ k ∈ PyDict.keys d.
Proof.
  unfold PyDict.keys. induction d as [| [k0 v0] d IH]; simpl.
  - split; [by intros [? ?] | by intros ?%elem_of_nil].
  - rewrite elem_of_cons. destruct (decide (k0 = k)) as [-> | Hne].
    + split; [by left | by eexists].
    + rewrite IH. split; [by right | by intros [? | ?]].
Qed.

Lemma mem_true d k : PyDict.mem d k = true ↔ k ∈ PyDict.keys d.
Proof. unfold PyDict.mem. by rewrite bool_decide_eq_true, get_is_Some. Qed.

Lemma mem_false d k : PyDict.mem d k = false ↔ k ∉ PyDict.keys d.
Proof. unfold PyDict.mem. by rewrite bool_decide_eq_false, get_is_Some. Qed.

Lemma keys_set d k v :
  PyDict.keys (PyDict.set d k v)
  = if decide (k ∈ PyDict.keys d) then PyDict.keys d else PyDict.keys d ++ [k].
Proof.
  unfold PyDict.keys. induction d as [| [k0 v0] d IH]; csimpl.
  - done.
  - destruct (decide (k0 = k)) as [-> | Hne]; csimpl.
    + rewrite decide_True; [done | by left].
    + rewrite IH. destruct (decide (k ∈ fst <$> d)) as [Hin | Hout].
      * rewrite decide_True; [done | by right].
      * rewrite decide_False; [done |].
        rewrite not_elem_of_cons. by split.
Qed.

Lemma keys_set_NoDup d k v :
  NoDup (PyDict.keys d) → NoDup (PyDict.keys (PyDict.set d k v)).
Proof.
  intros Hnd. rewrite keys_set. case_decide; [done |].
  apply NoDup_app. split; [done |]. split; [| apply NoDup_singleton].
  intros x Hx ->%list_elem_of_singleton. done.
Qed.

(** An item of a dict is what the lookup of its key returns. *)
Lemma get_item d k v :
  NoDup (PyDict.keys d) → (k, v) ∈ d → PyDict.get d k = Some v.
Proof.
  unfold PyDict.keys. induction d as [| [k0 v0] d IH]; simpl.
  - by intros _ ?%elem_of_nil.
  - intros [Hk0 Hnd]%NoDup_cons [Heq | Hin]%elem_of_cons.
    + injection Heq as -> ->. by rewrite decide_True.
    + rewrite decide_False; [by apply IH |].
      intros ->. apply Hk0. by apply (list_elem_of_fmap_2 fst _ (k, v)).
Qed.

End dict.
End PyDictProps.

(** ** GraphDiffer *)

Module DifferProps.
Import Differ.

Lemma index_get_from d ns k :
  PyDict.get (foldl (λ d n, PyDict.set d (node_type n, node_name n) n) d ns) k
  = match last (filter (λ n, node_key n = k) ns) with
    | Some n => Some n
    | None => PyDict.get d k
    end.
Proof.
  revert d. induction ns as [| n ns IH]; intros d; simpl; [done |].
  rewrite IH, PyDictProps.get_set, filter_cons. fold (node_key n).
  destruct (decide (node_key n = k)) as [Hk | Hk].
  - rewrite last_cons. by destruct (last _).
  - done.
Qed.

Lemma index_get ns k :
  PyDict.get (index_nodes ns) k = last (filter (λ n, node_key n = k) ns).
Proof. unfold index_nodes. rewrite index_get_from. by destruct (last _). Qed.

Lemma index_NoDup ns : NoDup (PyDict.keys (index_nodes ns)).
Proof.
  unfold index_nodes.
  assert (NoDup (PyDict.keys ([] : list (NodeType * string * Node)))) as H
    by apply NoDup_nil_2.
  revert H. generalize ([] : list (NodeType * string * Node)).
  induction ns as [| n ns IH]; intros d Hd; simpl; [done |].
  by apply IH, PyDictProps.keys_set_NoDup.
Qed.

Lemma index_keys ns k :
  k ∈ PyDict.keys (index_nodes ns) ↔ k ∈ node_key <$> ns.
Proof.
  rewrite <- PyDictProps.get_is_Some, index_get, last_is_Some.
  rewrite list_elem_of_fmap. split.
  - intros Hne. destruct (filter _ ns) as [| n l] eqn:Hf; [done |].
    assert (n ∈ filter (λ n, node_key n = k) ns) as Hn
      by (rewrite Hf; by left).
    apply list_elem_of_filter in Hn as [? ?]. by exists n.
  - intros (n & -> & Hn) Hnil.
    by apply (filter_nil_not_elem_of _ _ n) in Hnil.
Qed.

Lemma index_get_key ns k n :
  PyDict.get (index_nodes ns) k = Some n → node_key n = k.
Proof.
  rewrite index_get. intros Hn%last_Some_elem_of.
  by apply list_elem_of_filter in Hn as [? _].
Qed.

Lemma index_item_key ns :
  Forall (λ kn, node_key kn.2 = kn.1) (index_nodes ns).
Proof.
  apply Forall_forall. intros [k n] Hin. simpl.
  apply (index_get_key ns).
  by apply PyDictProps.get_item; [apply index_NoDup |].
Qed.

(** What each of the three node passes appends. *)
Lemma added_pass_changes before_nodes after_nodes r :
  Forall (λ kn, node_key kn.2 = kn.1) after_nodes →
  node_changes (added_pass before_nodes after_nodes r)
  = node_changes r
    ++ (change_of "added" "" <$>
          filter (λ k, PyDict.mem before_nodes k = false) (PyDict.keys after_nodes))
  ∧ edge_changes (added_pass before_nodes after_nodes r) = edge_changes r.
Proof.
  unfold added_pass, PyDict.keys. revert r.
  induction after_nodes as [| [k n] l IH]; intros r Hall; csimpl.
  - by rewrite app_nil_r.
  - apply Forall_cons in Hall as [Hk Hall]. simpl in Hk.
    rewrite filter_cons.
    destruct (IH (if PyDict.mem before_nodes k then r
                  else push_node_change r
                         (mkNodeChange "added" (node_name n)
                            (node_type_str (node_type n)) "")) Hall)
      as [-> ->].
    destruct (PyDict.mem before_nodes k) eqn:Hm.
    + by rewrite decide_False.
    + rewrite decide_True by done. simpl. rewrite <- app_assoc.
      split; [| done]. do 2 f_equal. by subst k.
Qed.

Lemma removed_pass_changes before_nodes after_nodes r :
  Forall (λ kn, node_key kn.2 = kn.1) before_nodes →
  node_changes (removed_pass before_nodes after_nodes r)
  = node_changes r
    ++ (change_of "removed" "" <$>
          filter (λ k, PyDict.mem after_nodes k = false) (PyDict.keys before_nodes))
  ∧ edge_changes (removed_pass before_nodes after_nodes r) = edge_changes r.
Proof.
  unfold removed_pass, PyDict.keys. revert r.
  induction before_nodes as [| [k n] l IH]; intros r Hall; csimpl.
  - by rewrite app_nil_r.
  - apply Forall_cons in Hall as [Hk Hall]. simpl in Hk.
    rewrite filter_cons.
    destruct (IH (if PyDict.mem after_nodes k then r
                  else push_node_change r
                         (mkNodeChange "removed" (node_name n)
                            (node_type_str (node_type n)) "")) Hall)
      as [-> ->].
    destruct (PyDict.mem after_nodes k) eqn:Hm.
    + by rewrite decide_False.
    + rewrite decide_True by done. simpl. rewrite <- app_assoc.
      split; [| done]. do 2 f_equal. by subst k.
Qed.

Lemma modified_pass_changes before_nodes after_nodes ks r :
  (∀ k a, PyDict.get after_nodes k = Some a → node_key a = k) →
  let step := λ r key,
    if PyDict.mem after_nodes key then
      match PyDict.get before_nodes key, PyDict.get after_nodes key with
      | Some b, Some a =>
          if metadata_ne (metadata b) (metadata a)
          then push_node_change r
                 (mkNodeChange "modified" (node_name a)
                    (node_type_str (node_type a)) "metadata changed")
          else r
      | _, _ => r
      end
    else r in
  node_changes (foldl step r ks)
  = node_changes r
    ++ (change_of "modified" "metadata changed" <$>
          filter (λ k, differs before_nodes after_nodes k = true) ks)
  ∧ edge_changes (foldl step r ks) = edge_changes r.
Proof.
  intros Hkey step. revert r.
  induction ks as [| k ks IH]; intros r; simpl.
  - by rewrite app_nil_r.
  - destruct (IH (step r k)) as [-> ->]. rewrite filter_cons.
    unfold step, differs, PyDict.mem.
    destruct (PyDict.get after_nodes k) as [a |] eqn:Ha.
    + rewrite bool_decide_eq_true_2 by by eexists.
      destruct (PyDict.get before_nodes k) as [b |].
      * destruct (metadata_ne (metadata b) (metadata a)).
        -- rewrite decide_True by done. simpl. rewrite <- app_assoc.
           split; [| done]. do 2 f_equal.
           apply Hkey in Ha. by subst k.
        -- by rewrite decide_False.
      * by rewrite decide_False.
    + rewrite bool_decide_eq_false_2 by (by intros [? ?]).
      rewrite decide_False; [done |]. by destruct (PyDict.get before_nodes k).
Qed.

Lemma edge_pass_changes change ks r :
  node_changes (edge_pass change ks r) = node_changes r
  ∧ edge_changes (edge_pass change ks r)
    = edge_changes r
      ++ ((λ k, mkEdgeChange change (edge_type_str k.1.1)
                  (take8 k.1.2) (take8 k.2)) <$> elements ks).
Proof.
  unfold edge_pass. generalize (elements ks). intros l. revert r.
  induction l as [| k l IH]; intros r; simpl.
  - by rewrite app_nil_r.
  - destruct (IH (push_edge_change r
                    (mkEdgeChange change (edge_type_str k.1.1)
                       (take8 k.1.2) (take8 k.2)))) as [-> ->].
    simpl. by rewrite <- app_assoc.
Qed.

Lemma absent_keys xs ys k :
  k ∈ filter (λ k, PyDict.mem (index_nodes xs) k = false)
        (PyDict.keys (index_nodes ys))
  ↔ k ∈ node_key <$> ys ∧ k ∉ node_key <$> xs.
Proof.
  rewrite list_elem_of_filter, PyDictProps.mem_false, !index_keys. tauto.
Qed.

(** The two lists of changes of a diff, pass by pass. *)
Lemma diff_changes before after :
  let before_nodes := index_nodes (nodes before) in
  let after_nodes := index_nodes (nodes after) in
  let before_edges := edge_keys (edges before) in
  let after_edges := edge_keys (edges after) in
  let edge_change := λ change (k : EdgeType * string * string),
    mkEdgeChange change (edge_type_str k.1.1) (take8 k.1.2) (take8 k.2) in
  node_changes (diff before after)
  = (change_of "added" "" <$>
       filter (λ k, PyDict.mem before_nodes k = false) (PyDict.keys after_nodes))
    ++ (change_of "removed" "" <$>
          filter (λ k, PyDict.mem after_nodes k = false) (PyDict.keys before_nodes))
    ++ (change_of "modified" "metadata changed" <$>
          filter (λ k, differs before_nodes after_nodes k = true)
            (PyDict.keys before_nodes))
  ∧ edge_changes (diff before after)
    = (edge_change "added" <$> elements (after_edges ∖ before_edges))
      ++ (edge_change "removed" <$> elements (before_edges ∖ after_edges)).
Proof.
  intros bn an be ae edge_change. unfold diff.
  fold bn an be ae.
  set (r0 := mkGraphDiff _ _ _ _ [] []).
  destruct (added_pass_changes bn an r0 (index_item_key _)) as [Ha Ha'].
  set (r1 := added_pass bn an r0) in *.
  destruct (removed_pass_changes bn an r1 (index_item_key _)) as [Hr Hr'].
  set (r2 := removed_pass bn an r1) in *.
  destruct (modified_pass_changes bn an (PyDict.keys bn) r2
              (index_get_key _)) as [Hm Hm'].
  fold (modified_pass bn an r2) in Hm, Hm'.
  set (r3 := modified_pass bn an r2) in *.
  destruct (edge_pass_changes "added" (ae ∖ be) r3) as [He He'].
  set (r4 := edge_pass "added" (ae ∖ be) r3) in *.
  destruct (edge_pass_changes "removed" (be ∖ ae) r4) as [Hf Hf'].
  rewrite Hf, He, Hm, Hr, Ha, Hf', He', Hm', Hr', Ha'. simpl.
  by rewrite <- !app_assoc.
Qed.

(** The differ's tests, run on the embedding. *)
Example added_node_detected :
  let g1 := mkGraph "a" "CI v1" None [mkNode "n1" PIPELINE "Pipeline" ∅] [] in
  let g2 := mkGraph "b" "CI v2" None
              [mkNode "n2" PIPELINE "Pipeline" ∅; mkNode "n3" JOB "Deploy" ∅]
              [] in
  node_changes (diff g1 g2) = [mkNodeChange "added" "Deploy" "job" ""]
  ∧ added_nodes (diff g1 g2) = 1
  ∧ node_changes (diff g2 g1) = [mkNodeChange "removed" "Deploy" "job" ""].
Proof. repeat split; reflexivity. Qed.

Example modified_node_detected :
  let g1 := mkGraph "a" "CI" None
              [mkNode "n1" JOB "Build" {[ "timeout" := VInt 30 ]}] [] in
  let g2 := mkGraph "b" "CI" None
              [mkNode "n2" JOB "Build" {[ "timeout" := VInt 60 ]}] [] in
  node_changes (diff g1 g2)
  = [mkNodeChange "modified" "Build" "job" "metadata changed"].
Proof. reflexivity. Qed.

Example edge_change_detected :
  let ns := [mkNode "n1" PIPELINE "Pipeline" ∅; mkNode "n2" JOB "Build" ∅] in
  let g1 := mkGraph "a" "CI" None ns [] in
  let g2 := mkGraph "b" "CI" None ns
              [mkEdge "e1" CALLS "0123456789" "n2"] in
  edge_changes (diff g1 g2) = [mkEdgeChange "added" "calls" "01234567" "n2"].
Proof. reflexivity. Qed.

(** C1. Diffing a graph against itself reports nothing: no node change,
    no edge change, a total of zero and [has_changes] false. *)
Theorem diff_self_no_changes (g : CICDGraph) :
  node_changes (diff g g) = []
  ∧ edge_changes (diff g g) = []
  ∧ total_changes (diff g g) = 0
  ∧ has_changes (diff g g) = false.
Proof.
  destruct (diff_changes g g) as [Hn He].
  assert (node_changes (diff g g) = []) as Hn'.
  { rewrite Hn.
    rewrite (filter_none (λ k, PyDict.mem _ k = false)).
    2:{ intros k Hk. apply PyDictProps.mem_true in Hk. by rewrite Hk. }
    rewrite (filter_none (λ k, differs _ _ k = true)); [done |].
    intros k _. unfold differs.
    destruct (PyDict.get _ k) as [b |]; [| done].
    unfold metadata_ne. by rewrite metadata_eq_refl. }
  assert (edge_changes (diff g g) = []) as He'.
  { rewrite He. by rewrite difference_diag_L, elements_empty. }
  unfold has_changes, total_changes. by rewrite Hn', He'.
Qed.

(** C2. The node changes of a diff are one "added" change per key of
    [after] that [before] lacks, then one "removed" change per key of
    [before] that [after] lacks, then one "modified" change with details
    "metadata changed" per key of both whose indexed nodes have unequal
    metadata; each change carries the name and type of its key. *)
Theorem node_changes_by_key (before after : CICDGraph) :
  ∃ added removed modified : list (NodeType * string),
    node_changes (diff before after)
    = (change_of "added" "" <$> added)
      ++ (change_of "removed" "" <$> removed)
      ++ (change_of "modified" "metadata changed" <$> modified)
    ∧ NoDup added ∧ NoDup removed ∧ NoDup modified
    ∧ (∀ k, k ∈ added ↔ k ∈ keys_of after ∧ k ∉ keys_of before)
    ∧ (∀ k, k ∈ removed ↔ k ∈ keys_of before ∧ k ∉ keys_of after)
    ∧ (∀ k, k ∈ modified ↔
            ∃ b a, indexed before k = Some b ∧ indexed after k = Some a
                   ∧ metadata_eq (metadata b) (metadata a) = false).
Proof.
  destruct (diff_changes before after) as [Hn _].
  set (bn := index_nodes (nodes before)) in *.
  set (an := index_nodes (nodes after)) in *.
  eexists _, _, _. split; [exact Hn |].
  split; [apply NoDup_filter, index_NoDup |].
  split; [apply NoDup_filter, index_NoDup |].
  split; [apply NoDup_filter, index_NoDup |].
  split; [intros k; apply absent_keys |].
  split; [intros k; apply absent_keys |].
  intros k. rewrite list_elem_of_filter. unfold differs, indexed.
  rewrite <- !index_get. fold bn an. split.
  - intros [Hd Hk].
    destruct (PyDict.get bn k) as [b |]; [| done].
    destruct (PyDict.get an k) as [a |]; [| done].
    exists b, a. repeat split. by apply negb_true_iff.
  - intros (b & a & Hb & Ha & Hne). rewrite Hb, Ha. split.
    + by apply negb_true_iff.
    + apply PyDictProps.get_is_Some. by eexists.
Qed.

(** *** Further properties of the differ *)

(** X6. The edge changes of a diff are one "added" change per edge key
    (type, source id, target id) of [after] that no edge of [before]
    has, then one "removed" change per edge key of [before] that no edge
    of [after] has; each change carries the type and the first eight
    characters of the two ids of its key. *)
Theorem edge_changes_by_key (before after : CICDGraph) :
  ∃ added removed : list (EdgeType * string * string),
    edge_changes (diff before after)
    = (edge_change_of "added" <$> added)
      ++ (edge_change_of "removed" <$> removed)
    ∧ NoDup added ∧ NoDup removed
    ∧ (∀ k, k ∈ added ↔
            k ∈ edge_key <$> edges after ∧ k ∉ edge_key <$> edges before)
    ∧ (∀ k, k ∈ removed ↔
            k ∈ edge_key <$> edges before ∧ k ∉ edge_key <$> edges after).
Proof.
  destruct (diff_changes before after) as [_ He].
  eexists _, _. split; [exact He |].
  split; [apply NoDup_elements |]. split; [apply NoDup_elements |].
  split; intros k; rewrite elem_of_elements, elem_of_difference;
    unfold edge_keys; by rewrite !elem_of_list_to_set.
Qed.

Lemma filter_change_type ct ct' details (ks : list (NodeType * string)) :
  filter (λ c, nc_change_type c = ct) (change_of ct' details <$> ks)
  = if decide (ct' = ct) then change_of ct' details <$> ks else [].
Proof.
  case_decide as H.
  - induction ks as [| k ks IH]; [done |]. csimpl.
    by rewrite filter_cons, decide_True, IH.
  - apply filter_none. intros c (k & -> & _)%list_elem_of_fmap. done.
Qed.

(** The changes of one type among the node changes of a diff. *)
Lemma diff_changes_of_type before after :
  let before_nodes := index_nodes (nodes before) in
  let after_nodes := index_nodes (nodes after) in
  filter (λ c, nc_change_type c = "added") (node_changes (diff before after))
  = change_of "added" "" <$>
      filter (λ k, PyDict.mem before_nodes k = false) (PyDict.keys after_nodes)
  ∧ filter (λ c, nc_change_type c = "removed")
      (node_changes (diff before after))
    = change_of "removed" "" <$>
        filter (λ k, PyDict.mem after_nodes k = false)
          (PyDict.keys before_nodes).
Proof.
  intros bn an. destruct (diff_changes before after) as [-> _].
  fold bn an. rewrite !filter_app, !filter_change_type.
  rewrite !decide_True by done.
  repeat (rewrite decide_False by done). simpl.
  by rewrite !app_nil_r.
Qed.

(** X7. Swapping the two graphs of a diff swaps added and removed nodes:
    the nodes [diff a b] reports as added are, in the same order, the
    nodes [diff b a] reports as removed, and the two counts agree. *)
Theorem diff_swap_added_removed (a b : CICDGraph) :
  reported <$> filter (λ c, nc_change_type c = "added")
                 (node_changes (diff a b))
  = reported <$> filter (λ c, nc_change_type c = "removed")
                   (node_changes (diff b a))
  ∧ added_nodes (diff a b) = removed_nodes (diff b a)
  ∧ removed_nodes (diff a b) = added_nodes (diff b a).
Proof.
  unfold added_nodes, removed_nodes.
  destruct (diff_changes_of_type a b) as [-> ->].
  destruct (diff_changes_of_type b a) as [-> ->].
  rewrite !length_fmap. split; [| done].
  rewrite <- !list_fmap_compose. done.
Qed.

(** X8. A diff reports no node change exactly when the two graphs have
    the same node keys and, for every key, indexed nodes with equal
    metadata; node ids and the order of the nodes play no part. *)
Theorem no_node_changes_iff (before after : CICDGraph) :
  node_changes (diff before after) = []
  ↔ (∀ k, k ∈ keys_of before ↔ k ∈ keys_of after)
    ∧ (∀ k b a, indexed before k = Some b → indexed after k = Some a →
                metadata_eq (metadata b) (metadata a) = true).
Proof.
  destruct (diff_changes before after) as [-> _].
  set (bn := index_nodes (nodes before)).
  set (an := index_nodes (nodes after)).
  assert (∀ (P : NodeType * string → Prop) `{!∀ k, Decision (P k)} ct d l,
            change_of ct d <$> filter P l = [] ↔ ∀ k, k ∈ l → ¬ P k) as Hnil.
  { intros P ? ct d l. split.
    - intros Hf%fmap_nil_inv k Hk HP.
      exact (filter_nil_not_elem_of P l k Hf HP Hk).
    - intros Hf. by rewrite filter_none. }
  rewrite !app_nil, !Hnil. unfold keys_of, indexed. split.
  - intros (Ha & Hr & Hm). split.
    + intros k. rewrite <- !index_keys. fold bn an. split; intros Hk.
      * destruct (PyDict.mem an k) eqn:Hmem;
          [by apply PyDictProps.mem_true | by destruct (Hr k)].
      * destruct (PyDict.mem bn k) eqn:Hmem;
          [by apply PyDictProps.mem_true | by destruct (Ha k)].
    + intros k x y Hx Hy. rewrite <- index_get in Hx, Hy.
      fold bn in Hx. fold an in Hy.
      assert (k ∈ PyDict.keys bn) as Hk
        by (apply PyDictProps.get_is_Some; by eexists).
      specialize (Hm k Hk). unfold differs, metadata_ne in Hm.
      rewrite Hx, Hy in Hm. by destruct (metadata_eq _ _).
  - intros [Hkeys Hmeta]. split; [| split].
    + intros k Hk Hmem. apply PyDictProps.mem_false in Hmem. apply Hmem.
      apply index_keys, Hkeys. by apply index_keys in Hk.
    + intros k Hk Hmem. apply PyDictProps.mem_false in Hmem. apply Hmem.
      apply index_keys, Hkeys. by apply index_keys in Hk.
    + intros k _. unfold differs, metadata_ne.
      destruct (PyDict.get bn k) as [x |] eqn:Hx; [| done].
      destruct (PyDict.get an k) as [y |] eqn:Hy; [| done].
      unfold bn in Hx. unfold an in Hy. rewrite index_get in Hx, Hy.
      by rewrite (Hmeta k x y Hx Hy).
Qed.

End DifferProps.

(** ** CrossProjectLinker *)

Module LinkerProps.
Import Linker.

#[local] Arguments PyStr.drop : simpl never.
#[local] Arguments PyStr.startswith : simpl never.
#[local] Arguments PyStr.strip : simpl never.
#[local] Arguments String.length : simpl never.

Example normalize_examples :
  _normalize "  Image:Nginx " = "nginx"
  ∧ _normalize "secret: DEPLOY_KEY" = "deploy_key"
  ∧ _normalize "staging" = "staging"
  ∧ _normalize "env:image:x" = "x"
  ∧ _normalize "image:env:x" = "env:x".
Proof. repeat split; reflexivity. Qed.

(** C9 as stated fails: the loop over the prefixes goes on after a match,
    so a name can lose two prefixes (or three), where the stated
    normalization removes one. *)
Lemma normalize_strips_two_prefixes :
  _normalize "secret:env:x" = "x"
  ∧ normalize_one_prefix "secret:env:x" = "env:x".
Proof. split; reflexivity. Qed.

(** C9, as the code has it. The name is lowercased and trimmed, then
    "secret:", "env:" and "image:" are stripped one after the other, each
    when the text left starts with it, and the result is trimmed again.
    When the text left by the first prefix stripped starts with none of
    the three, this is the normalization that strips one prefix.
    Normalizing "secret:DEPLOY_KEY" and "DEPLOY_KEY" gives the same. *)
Theorem normalize_strips_prefixes_in_turn (name : string) :
  _normalize name
  = PyStr.strip
      (strip_prefix
         (strip_prefix
            (strip_prefix (PyStr.strip (PyStr.lower name)) "secret:")
            "env:")
         "image:")
  ∧ ((∀ p, p ∈ prefixes → PyStr.startswith (one_prefix_rest name) p = false) →
     _normalize name = normalize_one_prefix name)
  ∧ _normalize "secret:DEPLOY_KEY" = _normalize "DEPLOY_KEY".
Proof.
  split; [reflexivity |]. split; [| reflexivity].
  unfold normalize_one_prefix, one_prefix_rest, _normalize, prefixes.
  set (s := PyStr.strip (PyStr.lower name)). simpl.
  unfold strip_prefix.
  destruct (PyStr.startswith s "secret:") eqn:H1; simpl.
  - intros Hno.
    rewrite (Hno "env:") by (right; left).
    by rewrite (Hno "image:") by (right; right; left).
  - destruct (PyStr.startswith s "env:") eqn:H2; simpl.
    + intros Hno.
      by rewrite (Hno "image:") by (right; right; left).
    + by destruct (PyStr.startswith s "image:") eqn:H3.
Qed.

Lemma normalize_strips_prefixes_in_turn_witness :
  _normalize "secret:DEPLOY_KEY" = normalize_one_prefix "secret:DEPLOY_KEY".
Proof.
  destruct (normalize_strips_prefixes_in_turn "secret:DEPLOY_KEY")
    as (_ & Hone & _).
  apply Hone. intros p Hp. unfold prefixes in Hp.
  repeat (apply elem_of_cons in Hp as [-> | Hp]; [reflexivity |]).
  by apply elem_of_nil in Hp.
Defined.

(** Both passes compare graph ids: as long as every location recorded
    belongs to the same graph id, neither emits an edge. *)

Lemma add_graph_cross_edges m gs :
  cross_edges (foldl add_graph m gs) = cross_edges m
  ∧ graphs (foldl add_graph m gs) = graphs m ++ gs.
Proof.
  revert m. induction gs as [| g gs IH]; intros m; simpl.
  - by rewrite app_nil_r.
  - destruct (IH (add_graph m g)) as [-> ->]. simpl.
    by rewrite <- app_assoc.
Qed.

Section values.
Context {K V : Type} `{EqDecision K} (Q : V → Prop).

Lemma set_values (d : list (K * V)) k v :
  Forall (λ kv, Q kv.2) d → Q v → Forall (λ kv, Q kv.2) (PyDict.set d k v).
Proof.
  intros Hd Hv. induction d as [| [k0 v0] d IH]; simpl.
  - by apply Forall_singleton.
  - apply Forall_cons in Hd as [H0 Hd].
    case_decide; apply Forall_cons; auto.
Qed.

Lemma get_values (d : list (K * V)) k v :
  Forall (λ kv, Q kv.2) d → PyDict.get d k = Some v → Q v.
Proof.
  intros Hd. induction d as [| [k0 v0] d IH]; simpl; [done |].
  apply Forall_cons in Hd as [H0 Hd].
  case_decide; [by intros [= <-] | by apply IH].
Qed.
End values.

Lemma index_append_within gid idx key loc :
  within gid idx → loc.1 = gid → within gid (index_append idx key loc).
Proof.
  intros Hidx Hloc. unfold index_append.
  apply (set_values (Forall (λ loc : string * string, loc.1 = gid)));
    [done |].
  apply Forall_app. split; [| by apply Forall_singleton].
  destruct (PyDict.get idx key) as [locs |] eqn:Hget; simpl; [| done].
  by apply (get_values _ idx key).
Qed.

Lemma node_index_of_within gid gs :
  Forall (λ g, graph_id g = gid) gs → within gid (node_index_of gs).
Proof.
  unfold node_index_of.
  assert (within gid []) as H0 by apply Forall_nil_2.
  revert H0. generalize ([] : list (string * string * list (string * string))).
  induction gs as [| g gs IH]; intros idx Hidx Hgs; simpl; [done |].
  apply Forall_cons in Hgs as [Hg Hgs]. apply IH; [| done].
  clear IH Hgs. revert idx Hidx.
  induction (nodes g) as [| n ns IHn]; intros idx Hidx; simpl; [done |].
  apply IHn. case_decide; [| done].
  by apply index_append_within.
Qed.

Lemma link_key_cross_edges gid multi item :
  Forall (λ loc : string * string, loc.1 = gid) item.2 →
  link_key multi item = multi.
Proof.
  destruct item as [[node_type name] locations]. simpl. intros Hlocs.
  destruct (length locations <? 2); [done |].
  destruct locations as [| [sg sn] rest]; [done |].
  apply Forall_cons in Hlocs as [Hsg Hrest]. simpl in Hsg. subst sg.
  induction rest as [| [tg tn] rest IH]; simpl; [done |].
  apply Forall_cons in Hrest as [Htg Hrest]. simpl in Htg.
  rewrite decide_True by done. by apply IH.
Qed.

Lemma foldl_link_key gid multi idx :
  within gid idx → foldl link_key multi idx = multi.
Proof.
  intros Hidx. induction idx as [| item idx IH]; simpl; [done |].
  apply Forall_cons in Hidx as [Hitem Hidx].
  rewrite (link_key_cross_edges gid) by done. by apply IH.
Qed.

Lemma pipeline_index_of_within gid gs k v :
  Forall (λ g, graph_id g = gid) gs →
  pipeline_index_of gs !! k = Some v → v.1 = gid.
Proof.
  unfold pipeline_index_of.
  assert (∀ k v, (∅ : gmap string (string * string)) !! k = Some v → v.1 = gid)
    as H0 by (intros ? ?; by rewrite lookup_empty).
  revert H0. generalize (∅ : gmap string (string * string)).
  intros idx Hidx Hgs. revert idx Hidx k v.
  induction gs as [| g gs IH]; intros idx Hidx k v; simpl; [apply Hidx |].
  apply Forall_cons in Hgs as [Hg Hgs]. apply IH; [done |].
  clear IH Hgs k v. revert idx Hidx.
  induction (nodes g) as [| n ns IHn]; intros idx Hidx; simpl; [done |].
  apply IHn. case_decide; [| done].
  intros k v. rewrite lookup_insert. case_decide; [| apply Hidx].
  by intros [= <-].
Qed.

Lemma trigger_step_same_graph idx g acc e :
  (∀ k v, idx !! k = Some v → v.1 = graph_id g) →
  trigger_step idx g acc e = acc.
Proof.
  intros Hidx. unfold trigger_step. case_decide; [| done].
  destruct (get_node g _) as [target_node |]; [| done].
  destruct (idx !! _) as [[tg_id tn_id] |] eqn:Hk; [| done].
  apply Hidx in Hk. simpl in Hk. by rewrite decide_False by auto.
Qed.

Lemma detect_triggers_same_graph gid gs :
  Forall (λ g, graph_id g = gid) gs → _detect_triggers gs = [].
Proof.
  intros Hgs. unfold _detect_triggers.
  assert (∀ k v, pipeline_index_of gs !! k = Some v → v.1 = gid) as Hidx
    by (intros k v; by apply pipeline_index_of_within).
  revert Hidx. generalize (pipeline_index_of gs). intros idx Hidx.
  induction gs as [| g gs IH]; simpl; [done |].
  apply Forall_cons in Hgs as [Hg Hgs].
  assert (foldl (trigger_step idx g) [] (edges g) = []) as ->; [| by apply IH].
  induction (edges g) as [| e es IHe]; simpl; [done |].
  rewrite trigger_step_same_graph; [done |].
  intros k v Hk. rewrite Hg. by apply (Hidx k).
Qed.

Lemma link_same_graph gid gs name :
  Forall (λ g, graph_id g = gid) gs → cross_edges (link gs name) = [].
Proof.
  intros Hgs. unfold link.
  rewrite (detect_triggers_same_graph gid) by done. simpl.
  rewrite (foldl_link_key gid) by by apply node_index_of_within.
  by destruct (add_graph_cross_edges (mkMulti name [] []) gs) as [-> _].
Qed.

(** The linker's test on two projects sharing an artifact, a secret and
    an environment, and a trigger across projects. *)
Example shared_resources_linked :
  let a := mkGraph "A" "Build Service" None
             [ mkNode "a1" PIPELINE "CI Build" ∅;
               mkNode "a2" ARTIFACT "my-app.jar" ∅;
               mkNode "a3" SECRET_REF "secret:DEPLOY_KEY" ∅;
               mkNode "a4" ENVIRONMENT "staging" ∅ ] [] in
  let b := mkGraph "B" "Deploy Service" None
             [ mkNode "b1" PIPELINE "CD Deploy" ∅;
               mkNode "b2" ARTIFACT "my-app.jar" ∅;
               mkNode "b3" SECRET_REF "DEPLOY_KEY" ∅;
               mkNode "b4" ENVIRONMENT "staging" ∅;
               mkNode "b5" JOB "ci build" ∅ ]
             [ mkEdge "e1" TRIGGERS "b1" "b5" ] in
  cross_edges (link [a; b] "Multi-Project View")
  = [ mkCrossEdge "A" "a2" "B" "b2" "shared_artifact" 1;
      mkCrossEdge "A" "a3" "B" "b3" "shared_secret" 1;
      mkCrossEdge "A" "a4" "B" "b4" "shared_env" 1;
      mkCrossEdge "B" "b1" "A" "a1" "cross_trigger" (7 # 10) ].
Proof. reflexivity. Qed.

(** C8. Linking a single graph gives a multi-project graph holding that
    graph and no cross-project edge: neither pass emits one. *)
Theorem single_graph_no_cross_edges (g : CICDGraph) (name : string) :
  cross_edges (link [g] name) = []
  ∧ graphs (link [g] name) = [g]
  ∧ foldl link_key (mkMulti name [g] []) (node_index_of [g])
    = mkMulti name [g] []
  ∧ _detect_triggers [g] = [].
Proof.
  assert (Forall (λ g', graph_id g' = graph_id g) [g]) as Hg
    by by apply Forall_singleton.
  split; [by apply (link_same_graph (graph_id g)) |].
  split.
  - unfold link. rewrite (detect_triggers_same_graph (graph_id g)) by done.
    simpl. rewrite (foldl_link_key (graph_id g)); [done |].
    by apply node_index_of_within.
  - split; [| by apply (detect_triggers_same_graph (graph_id g))].
    apply (foldl_link_key (graph_id g)). by apply node_index_of_within.
Qed.

(** *** Further properties of the linker *)

Lemma link_key_edges multi item :
  link_key multi item
  = mkMulti (multi_name multi) (graphs multi)
      (cross_edges multi ++ item_edges item).
Proof.
  destruct item as [[node_type name] locations]. unfold item_edges. simpl.
  destruct locations as [| [sg sn] [| t rest]];
    try (destruct multi; simpl; by rewrite app_nil_r).
  change (length ((sg, sn) :: t :: rest) <? 2) with false. cbv iota.
  generalize (t :: rest). clear t rest. intros rest. revert multi.
  induction rest as [| [tg tn] rest IH]; intros multi.
  - destruct multi; simpl. by rewrite app_nil_r.
  - cbn [foldl]. rewrite IH, filter_cons. simpl.
    destruct (decide (sg = tg)) as [-> | Hne].
    + by rewrite decide_False by (intros H; by apply H).
    + rewrite decide_True by done. simpl. by rewrite <- app_assoc.
Qed.

Lemma foldl_link_key_edges multi idx :
  foldl link_key multi idx
  = mkMulti (multi_name multi) (graphs multi)
      (cross_edges multi ++ (idx ≫= item_edges)).
Proof.
  revert multi. induction idx as [| item idx IH]; intros multi; simpl.
  - destruct multi; simpl. by rewrite app_nil_r.
  - rewrite IH, link_key_edges. simpl. by rewrite <- app_assoc.
Qed.

Lemma trigger_step_edge idx g acc e :
  trigger_step idx g acc e = acc ++ option_list (trigger_edge idx g e).
Proof.
  unfold trigger_step, trigger_edge, TRIGGER_EDGE_TYPES.
  destruct (decide (edge_type e = TRIGGERS)) as [Ht | Ht].
  - rewrite decide_True by by apply elem_of_singleton.
    destruct (get_node g _) as [t |]; simpl; [| by rewrite app_nil_r].
    destruct (idx !! _) as [[tg tn] |]; simpl; [| by rewrite app_nil_r].
    case_decide; simpl; [done | by rewrite app_nil_r].
  - rewrite decide_False by (by rewrite elem_of_singleton).
    by rewrite app_nil_r.
Qed.

Lemma detect_triggers_edges gs :
  _detect_triggers gs
  = gs ≫= λ g, edges g ≫= λ e,
      option_list (trigger_edge (pipeline_index_of gs) g e).
Proof.
  unfold _detect_triggers. generalize (pipeline_index_of gs). intros idx.
  assert (∀ acc, foldl (λ acc g, foldl (trigger_step idx g) acc (edges g))
                   acc gs
                 = acc ++ (gs ≫= λ g, edges g ≫= λ e,
                             option_list (trigger_edge idx g e))) as H.
  { induction gs as [| g gs IH]; intros acc; simpl.
    - by rewrite app_nil_r.
    - rewrite IH, (assoc_L (++)). f_equal.
      generalize (edges g). intros es. revert acc.
      induction es as [| e es IHe]; intros acc; simpl.
      + by rewrite app_nil_r.
      + by rewrite IHe, trigger_step_edge, <- (assoc_L (++)). }
  apply (H []).
Qed.

(** The cross edges of [link]: those of the index entries, then the
    trigger edges. *)
Lemma link_cross_edges gs name :
  cross_edges (link gs name)
  = (node_index_of gs ≫= item_edges) ++ _detect_triggers gs
  ∧ graphs (link gs name) = gs.
Proof.
  unfold link.
  assert (∀ m es, foldl add_cross_edge m es
                  = mkMulti (multi_name m) (graphs m) (cross_edges m ++ es))
    as Hadd.
  { intros m es. revert m. induction es as [| e es IH]; intros m; simpl.
    - destruct m; simpl. by rewrite app_nil_r.
    - rewrite IH. simpl. by rewrite <- app_assoc. }
  rewrite Hadd, foldl_link_key_edges. simpl.
  by destruct (add_graph_cross_edges (mkMulti name [] []) gs) as [-> ->].
Qed.

Section entries.
Context {K V : Type} `{EqDecision K} (Q : K → V → Prop).

Lemma set_entries (d : list (K * V)) k v :
  Forall (λ kv, Q kv.1 kv.2) d → Q k v →
  Forall (λ kv, Q kv.1 kv.2) (PyDict.set d k v).
Proof.
  intros Hd Hv. induction d as [| [k0 v0] d IH]; simpl.
  - by apply Forall_singleton.
  - apply Forall_cons in Hd as [H0 Hd].
    case_decide as Hk; apply Forall_cons; [by subst k0 | auto].
Qed.

Lemma get_entries (d : list (K * V)) k v :
  Forall (λ kv, Q kv.1 kv.2) d → PyDict.get d k = Some v → Q k v.
Proof.
  intros Hd. induction d as [| [k0 v0] d IH]; simpl; [done |].
  apply Forall_cons in Hd as [H0 Hd].
  case_decide as Hk; [intros [= <-]; by subst k0 | by apply IH].
Qed.
End entries.

Lemma node_type_str_inj t1 t2 :
  node_type_str t1 = node_type_str t2 → t1 = t2.
Proof. by destruct t1, t2. Qed.

Lemma index_append_entry gs idx g n :
  Forall (λ kv, entry_of gs kv.1 kv.2) idx →
  g ∈ gs → n ∈ nodes g → node_type n ∈ LINKABLE_TYPES →
  Forall (λ kv, entry_of gs kv.1 kv.2)
    (index_append idx (node_type_str (node_type n), _normalize (node_name n))
       (graph_id g, node_id n)).
Proof.
  intros Hidx Hg Hn Ht. unfold index_append.
  apply (set_entries (entry_of gs)); [done |].
  apply Forall_app. split.
  - destruct (PyDict.get idx _) as [locs |] eqn:Hget; simpl.
    + exact (get_entries (entry_of gs) idx
               (node_type_str (node_type n), _normalize (node_name n))
               locs Hidx Hget).
    + apply Forall_nil_2.
  - apply Forall_singleton. by exists g, n.
Qed.

Lemma node_index_entries gs :
  Forall (λ kv, entry_of gs kv.1 kv.2) (node_index_of gs).
Proof.
  unfold node_index_of.
  assert (∀ gs' idx,
            (∀ g, g ∈ gs' → g ∈ gs) →
            Forall (λ kv, entry_of gs kv.1 kv.2) idx →
            Forall (λ kv, entry_of gs kv.1 kv.2)
              (foldl (λ idx graph,
                        foldl (λ idx node,
                                 if decide (node_type node ∈ LINKABLE_TYPES)
                                 then index_append idx
                                        (node_type_str (node_type node),
                                         _normalize (node_name node))
                                        (graph_id graph, node_id node)
                                 else idx) idx (nodes graph)) idx gs')) as H.
  { induction gs' as [| g gs' IH]; intros idx Hsub Hidx; simpl; [done |].
    apply IH; [intros g' Hg'; apply Hsub; by right |].
    assert (g ∈ gs) as Hg by (apply Hsub; by left).
    assert (∀ ns, (∀ n, n ∈ ns → n ∈ nodes g) →
                  ∀ idx, Forall (λ kv, entry_of gs kv.1 kv.2) idx →
                  Forall (λ kv, entry_of gs kv.1 kv.2)
                    (foldl (λ idx node,
                              if decide (node_type node ∈ LINKABLE_TYPES)
                              then index_append idx
                                     (node_type_str (node_type node),
                                      _normalize (node_name node))
                                     (graph_id g, node_id node)
                              else idx) idx ns)) as Hns.
    { induction ns as [| n ns IHn]; intros Hin idx0 Hidx0; simpl; [done |].
      apply IHn; [intros n' Hn'; apply Hin; by right |].
      case_decide; [| done].
      apply index_append_entry; [done | done | apply Hin; by left | done]. }
    by apply Hns. }
  apply H; [done | apply Forall_nil_2].
Qed.

Lemma item_edges_shared gs item :
  entry_of gs item.1 item.2 → Forall (shared_link gs) (item_edges item).
Proof.
  destruct item as [[ts nm] locs]. unfold item_edges, entry_of. simpl.
  intros Hlocs. destruct locs as [| [sg sn] [| t rest]]; try apply Forall_nil_2.
  apply Forall_cons in Hlocs
    as [(g1 & n1 & Hg1 & Hn1 & Hty & [= -> ->] & Hts & Hnm) Hrest].
  apply Forall_fmap, Forall_forall.
  intros [tg tn] [Hne Hin]%list_elem_of_filter. simpl in *.
  destruct (proj1 (Forall_forall _ _) Hrest _ Hin)
    as (g2 & n2 & Hg2 & Hn2 & _ & [= -> ->] & Hts2 & Hnm2).
  exists (node_type n1), nm. split; [done |].
  assert (node_type n2 = node_type n1) as Hsame
    by (apply node_type_str_inj; congruence).
  exists g1, n1, g2, n2. rewrite Hts.
  split; [done |]. split; [done |]. split; [done |]. split; [done |].
  split; [done |]. split; [done |]. split; [done |]. split; [done |].
  split; done.
Qed.

Lemma get_node_Some g id t :
  get_node g id = Some t → t ∈ nodes g ∧ node_id t = id.
Proof.
  unfold get_node. destruct (list_find _ _) as [[i t'] |] eqn:Hf; [| done].
  simpl. intros [= <-]. apply list_find_Some in Hf as (Hi & Hid & _).
  split; [by eapply list_elem_of_lookup_2 | done].
Qed.

(** Every entry of the pipeline index is the place of a pipeline of a
    graph of [gs] with the entry's key as normalized name. *)
Lemma pipeline_index_entries gs k v :
  pipeline_index_of gs !! k = Some v →
  ∃ g p, g ∈ gs ∧ p ∈ nodes g ∧ node_type p = PIPELINE
         ∧ _normalize (node_name p) = k ∧ v = (graph_id g, node_id p).
Proof.
  unfold pipeline_index_of.
  set (ok := λ idx : gmap string (string * string),
         ∀ k v, idx !! k = Some v →
           ∃ g p, g ∈ gs ∧ p ∈ nodes g ∧ node_type p = PIPELINE
                  ∧ _normalize (node_name p) = k ∧ v = (graph_id g, node_id p)).
  assert (∀ gs' idx, (∀ g, g ∈ gs' → g ∈ gs) → ok idx →
            ok (foldl (λ idx g,
                         foldl (λ idx n,
                                  if decide (node_type n = PIPELINE)
                                  then <[_normalize (node_name n)
                                         := (graph_id g, node_id n)]> idx
                                  else idx) idx (nodes g)) idx gs')) as H.
  { induction gs' as [| g gs' IH]; intros idx Hsub Hidx; simpl; [done |].
    apply IH; [intros g' Hg'; apply Hsub; by right |].
    assert (g ∈ gs) as Hg by (apply Hsub; by left).
    assert (∀ ns, (∀ n, n ∈ ns → n ∈ nodes g) → ∀ idx, ok idx →
              ok (foldl (λ idx n,
                           if decide (node_type n = PIPELINE)
                           then <[_normalize (node_name n)
                                  := (graph_id g, node_id n)]> idx
                           else idx) idx ns)) as Hns.
    { induction ns as [| n ns IHn]; intros Hin idx0 Hidx0; simpl; [done |].
      apply IHn; [intros n' Hn'; apply Hin; by right |].
      case_decide as Hp; [| done].
      intros k0 v0. rewrite lookup_insert. case_decide as Hk; [| apply Hidx0].
      intros [= <-]. exists g, n.
      split; [done |]. split; [apply Hin; by left | done]. }
    by apply Hns. }
  apply (H gs ∅); [done |]. intros k0 v0. by rewrite lookup_empty.
Qed.

Lemma trigger_edge_link gs g e x :
  g ∈ gs → e ∈ edges g →
  trigger_edge (pipeline_index_of gs) g e = Some x → trigger_link gs x.
Proof.
  intros Hg He. unfold trigger_edge. case_decide as Ht; [| done].
  destruct (get_node g _) as [t |] eqn:Hget; [| done]. simpl.
  destruct (pipeline_index_of gs !! _) as [[tg tn] |] eqn:Hidx; [| done].
  simpl. case_decide as Hne; [| done]. intros [= <-].
  apply get_node_Some in Hget as [Htin Htid].
  apply pipeline_index_entries in Hidx
    as (g2 & p & Hg2 & Hp & Hpt & Hnm & [= -> ->]).
  by exists g, e, t, g2, p.
Qed.

(** Every cross edge is a shared link or a trigger link. *)
Lemma link_sound gs name :
  Forall (λ x, shared_link gs x ∨ trigger_link gs x)
    (cross_edges (link gs name)).
Proof.
  destruct (link_cross_edges gs name) as [-> _].
  apply Forall_app. split.
  - apply Forall_bind.
    eapply Forall_impl; [apply node_index_entries |]. simpl.
    intros item Hitem%item_edges_shared.
    eapply Forall_impl; [exact Hitem |]. by left.
  - rewrite detect_triggers_edges. apply Forall_bind, Forall_forall.
    intros g Hg. unfold compose. apply Forall_bind, Forall_forall.
    intros e He. unfold compose.
    destruct (trigger_edge (pipeline_index_of gs) g e) as [x |] eqn:Hx;
      simpl; [| apply Forall_nil_2].
    apply Forall_singleton. right. by apply (trigger_edge_link gs g e).
Qed.

(** X9. Every cross-project edge of [link] is of one of two kinds: a
    shared link, with confidence 1, between two linkable nodes of the
    same type and the same normalized name in two graphs of different
    ids; or a trigger link, with confidence 0.7, from the source of a
    TRIGGERS edge to a pipeline of another graph that has the normalized
    name of the edge's target. *)
Theorem cross_edges_sound (gs : list CICDGraph) (name : string) :
  Forall (λ x, shared_link gs x ∨ trigger_link gs x)
    (cross_edges (link gs name)).
Proof. apply link_sound. Qed.

(** X10. No cross-project edge joins a graph id to itself, and the
    link types are the five labels of the linkable node types, with
    confidence 1, and "cross_trigger", with confidence 0.7: the fallback
    label "shared_resource" of [_link_type_for] is never produced by
    [link]. *)
Theorem cross_edges_labels (gs : list CICDGraph) (name : string) :
  Forall (λ x, cx_source_graph_id x ≠ cx_target_graph_id x
               ∧ (link_type x ∈ ["shared_artifact"; "shared_image";
                                 "shared_secret"; "shared_env";
                                 "shared_service"]
                  ∧ confidence x = 1%Q
                  ∨ link_type x = "cross_trigger"
                    ∧ confidence x = (7 # 10)%Q))
    (cross_edges (link gs name)).
Proof.
  eapply Forall_impl; [apply link_sound |]. simpl.
  intros x [(ty & nm & Hty & g1 & n1 & g2 & n2 & ? & ? & ? & ? & ? & ? & ?
             & ? & Hne & ->)
           | (g & e & t & g2 & p & ? & ? & ? & ? & ? & ? & ? & ? & ? & Hne
              & ->)]; simpl.
  - split; [done |]. left. split; [| done]. unfold LINKABLE_TYPES in Hty.
    repeat (apply elem_of_cons in Hty as [-> | Hty];
            [match goal with
             | |- ?t ∈ _ =>
                 let v := eval vm_compute in t in
                 replace t with v by (vm_compute; reflexivity)
             end; repeat constructor |]).
    by apply elem_of_nil in Hty.
  - split; [by apply not_eq_sym |]. by right.
Qed.

(** X11. No false positives: when no linkable type and normalized name
    occurs in two graphs of different ids, and no TRIGGERS edge targets
    a node with the normalized name of a pipeline of a graph of another
    id, [link] finds no cross-project edge. *)
Theorem no_common_names_no_cross_edges (gs : list CICDGraph)
    (name : string) :
  (∀ g1 n1 g2 n2,
     g1 ∈ gs → n1 ∈ nodes g1 → g2 ∈ gs → n2 ∈ nodes g2 →
     node_type n1 ∈ LINKABLE_TYPES → node_type n1 = node_type n2 →
     _normalize (node_name n1) = _normalize (node_name n2) →
     graph_id g1 = graph_id g2) →
  (∀ g e t g2 p,
     g ∈ gs → e ∈ edges g → edge_type e = TRIGGERS →
     t ∈ nodes g → node_id t = target_node_id e →
     g2 ∈ gs → p ∈ nodes g2 → node_type p = PIPELINE →
     _normalize (node_name p) = _normalize (node_name t) →
     graph_id g2 = graph_id g) →
  cross_edges (link gs name) = [].
Proof.
  intros Hshared Htrigger.
  pose proof (link_sound gs name) as Hsound.
  destruct (cross_edges (link gs name)) as [| x xs]; [done |].
  apply Forall_cons in Hsound as [Hx _]. exfalso.
  destruct Hx as [(ty & nm & Hty & g1 & n1 & g2 & n2 & Hg1 & Hn1 & Hg2 & Hn2
                   & Ht1 & Ht2 & Hm1 & Hm2 & Hne & _)
                 | (g & e & t & g2 & p & Hg & He & Het & Ht & Hid & Hg2 & Hp
                    & Hpt & Hnm & Hne & _)].
  - apply Hne, (Hshared g1 n1 g2 n2); try done; congruence.
  - by apply Hne, (Htrigger g e t g2 p).
Qed.

Lemma no_common_names_no_cross_edges_witness :
  let g1 := mkGraph "A" "Alpha" None
              [ mkNode "a1" PIPELINE "Alpha Pipeline" ∅;
                mkNode "a2" ARTIFACT "alpha.jar" ∅ ] [] in
  let g2 := mkGraph "B" "Beta" None
              [ mkNode "b1" PIPELINE "Beta Pipeline" ∅;
                mkNode "b2" ARTIFACT "beta.jar" ∅ ] [] in
  cross_edges (link [g1; g2] "Multi-Project View") = [].
Proof.
  intros g1 g2. apply no_common_names_no_cross_edges.
  - intros h1 n1 h2 n2 Hh1 Hn1 Hh2 Hn2 Hty _ Hnm.
    repeat (apply elem_of_cons in Hh1 as [-> | Hh1]);
      [| | by apply elem_of_nil in Hh1];
      (repeat (apply elem_of_cons in Hh2 as [-> | Hh2]);
       [| | by apply elem_of_nil in Hh2]); try reflexivity;
      (repeat (apply elem_of_cons in Hn1 as [-> | Hn1]);
       [| | by apply elem_of_nil in Hn1]);
      (repeat (apply elem_of_cons in Hn2 as [-> | Hn2]);
       [| | by apply elem_of_nil in Hn2]);
      vm_compute in Hnm; discriminate Hnm.
  - intros h e t h2 p Hh He.
    repeat (apply elem_of_cons in Hh as [-> | Hh]);
      [| | by apply elem_of_nil in Hh]; by apply elem_of_nil in He.
Defined.

Lemma index_append_recorded idx key loc g n :
  recorded idx g n → recorded (index_append idx key loc) g n.
Proof.
  intros (locs & Hget & Hin). unfold recorded, index_append.
  rewrite PyDictProps.get_set. case_decide as Hk.
  - subst key. rewrite Hget. simpl. eexists. split; [done |].
    apply elem_of_app. by left.
  - by exists locs.
Qed.

Lemma index_append_records idx g n :
  recorded
    (index_append idx (node_type_str (node_type n), _normalize (node_name n))
       (graph_id g, node_id n)) g n.
Proof.
  unfold recorded, index_append. rewrite PyDictProps.get_set.
  rewrite decide_True by done. eexists. split; [done |].
  apply elem_of_app. right. by left.
Qed.

Lemma index_append_NoDup idx key loc :
  NoDup (PyDict.keys idx) → NoDup (PyDict.keys (index_append idx key loc)).
Proof. apply PyDictProps.keys_set_NoDup. Qed.

Lemma node_index_recorded gs g n :
  g ∈ gs → n ∈ nodes g → node_type n ∈ LINKABLE_TYPES →
  recorded (node_index_of gs) g n ∧ NoDup (PyDict.keys (node_index_of gs)).
Proof.
  unfold node_index_of.
  set (inner := λ (graph : CICDGraph) idx ns,
         foldl (λ idx node,
                  if decide (node_type node ∈ LINKABLE_TYPES)
                  then index_append idx
                         (node_type_str (node_type node),
                          _normalize (node_name node))
                         (graph_id graph, node_id node)
                  else idx) idx ns).
  set (outer := λ idx gs',
         foldl (λ idx graph, inner graph idx (nodes graph)) idx gs').
  change (g ∈ gs → n ∈ nodes g → node_type n ∈ LINKABLE_TYPES →
          recorded (outer [] gs) g n ∧ NoDup (PyDict.keys (outer [] gs))).
  assert (∀ graph ns idx, recorded idx g n → recorded (inner graph idx ns) g n)
    as Hin_keep.
  { intros graph ns. induction ns as [| x ns IH]; intros idx H; [done |].
    simpl. apply IH. case_decide; [by apply index_append_recorded | done]. }
  assert (∀ graph ns idx, NoDup (PyDict.keys idx) →
            NoDup (PyDict.keys (inner graph idx ns))) as Hin_nd.
  { intros graph ns. induction ns as [| x ns IH]; intros idx H; [done |].
    simpl. apply IH. case_decide; [by apply index_append_NoDup | done]. }
  assert (∀ gs' idx, recorded idx g n → recorded (outer idx gs') g n)
    as Hout_keep.
  { induction gs' as [| x gs' IH]; intros idx H; [done |].
    simpl. by apply IH, Hin_keep. }
  assert (∀ gs' idx, NoDup (PyDict.keys idx) →
            NoDup (PyDict.keys (outer idx gs'))) as Hout_nd.
  { induction gs' as [| x gs' IH]; intros idx H; [done |].
    simpl. by apply IH, Hin_nd. }
  intros Hg Hn Hty. split; [| apply Hout_nd, NoDup_nil_2].
  assert (∀ ns idx, n ∈ ns → recorded (inner g idx ns) g n) as Hin_new.
  { induction ns as [| x ns IH]; intros idx Hx.
    - by apply elem_of_nil in Hx.
    - apply elem_of_cons in Hx as [<- | Hx]; simpl; [| by apply IH].
      rewrite decide_True by done. apply Hin_keep, index_append_records. }
  generalize ([] : list (string * string * list (string * string))).
  induction gs as [| x gs IH]; intros idx.
  - by apply elem_of_nil in Hg.
  - apply elem_of_cons in Hg as [<- | Hg]; simpl; [| by apply IH].
    by apply Hout_keep, Hin_new.
Qed.

Lemma get_elem {K V} `{EqDecision K} (d : list (K * V)) k v :
  PyDict.get d k = Some v → (k, v) ∈ d.
Proof.
  induction d as [| [k0 v0] d IH]; simpl; [done |].
  case_decide as Hk; [intros [= <-]; subst; by left |].
  intros H. right. by apply IH.
Qed.

(** The edges of an entry are shared links on the entry's key. *)
Lemma item_edges_shared_on gs ty nm locs :
  entry_of gs (node_type_str ty, nm) locs →
  Forall (shared_on gs ty nm) (item_edges (node_type_str ty, nm, locs)).
Proof.
  unfold item_edges, entry_of. simpl.
  intros Hlocs. destruct locs as [| [sg sn] [| t rest]]; try apply Forall_nil_2.
  apply Forall_cons in Hlocs
    as [(g1 & n1 & Hg1 & Hn1 & Hty & [= -> ->] & Hts & Hnm) Hrest].
  apply Forall_fmap, Forall_forall.
  intros [tg tn] [Hne Hin]%list_elem_of_filter. simpl in *.
  destruct (proj1 (Forall_forall _ _) Hrest _ Hin)
    as (g2 & n2 & Hg2 & Hn2 & _ & [= -> ->] & Hts2 & Hnm2).
  apply node_type_str_inj in Hts, Hts2.
  by exists g1, n1, g2, n2.
Qed.

(** X12. A linkable resource present in two graphs of different ids is
    linked: [link] emits a shared link, of the label of the resource's
    type, between two nodes of that type and normalized name. *)
Theorem shared_resource_linked (gs : list CICDGraph) (name : string)
    (g1 g2 : CICDGraph) (n1 n2 : Node) :
  g1 ∈ gs → n1 ∈ nodes g1 → g2 ∈ gs → n2 ∈ nodes g2 →
  node_type n1 ∈ LINKABLE_TYPES →
  node_type n2 = node_type n1 →
  _normalize (node_name n2) = _normalize (node_name n1) →
  graph_id g1 ≠ graph_id g2 →
  ∃ x, x ∈ cross_edges (link gs name)
       ∧ shared_on gs (node_type n1) (_normalize (node_name n1)) x.
Proof.
  intros Hg1 Hn1 Hg2 Hn2 Hty Hty2 Hnm Hne.
  destruct (node_index_recorded gs g1 n1 Hg1 Hn1 Hty)
    as [(locs & Hget & Hin1) _].
  destruct (node_index_recorded gs g2 n2 Hg2 Hn2) as [(locs2 & Hget2 & Hin2) _];
    [by rewrite Hty2 |].
  rewrite Hty2, Hnm, Hget in Hget2. injection Hget2 as <-.
  set (key := (node_type_str (node_type n1), _normalize (node_name n1))) in *.
  assert ((key, locs) ∈ node_index_of gs) as Hitem by by apply get_elem.
  assert (entry_of gs key locs) as Hentry.
  { pose proof (node_index_entries gs) as Hall.
    by apply (proj1 (Forall_forall _ _) Hall (key, locs)). }
  assert (∃ x, x ∈ item_edges (key, locs)) as [x Hx].
  { unfold item_edges. simpl.
    destruct locs as [| [sg sn] rest]; [by apply elem_of_nil in Hin1 |].
    assert (∃ t : string * string, t ∈ rest ∧ sg ≠ t.1) as (t & Ht & Hst).
    { destruct (decide (sg = graph_id g1)) as [-> | Hsg].
      - exists (graph_id g2, node_id n2). split; [| done].
        apply elem_of_cons in Hin2 as [[= Heq _] | ?]; [| done].
        by destruct Hne.
      - exists (graph_id g1, node_id n1). split; [| done].
        apply elem_of_cons in Hin1 as [[= Heq _] | ?]; [| done].
        by destruct Hsg. }
    destruct rest as [| r rest]; [by apply elem_of_nil in Ht |].
    eexists. apply list_elem_of_fmap. exists t. split; [done |].
    by apply list_elem_of_filter. }
  exists x. split.
  - destruct (link_cross_edges gs name) as [-> _].
    apply elem_of_app. left. apply list_elem_of_bind. by exists (key, locs).
  - pose proof (item_edges_shared_on gs (node_type n1) _ locs Hentry) as Hall.
    by apply (proj1 (Forall_forall _ _) Hall).
Qed.

Lemma shared_resource_linked_witness :
  let a := mkNode "a1" SECRET_REF "secret:DEPLOY_KEY" ∅ in
  let b := mkNode "b1" SECRET_REF "Deploy_Key " ∅ in
  let g1 := mkGraph "A" "Build Service" None [a] [] in
  let g2 := mkGraph "B" "Deploy Service" None [b] [] in
  ∃ x, x ∈ cross_edges (link [g1; g2] "Multi-Project View")
       ∧ shared_on [g1; g2] SECRET_REF "deploy_key" x.
Proof.
  intros a b g1 g2.
  apply (shared_resource_linked [g1; g2] "Multi-Project View" g1 g2 a b).
  - repeat constructor.
  - repeat constructor.
  - repeat constructor.
  - repeat constructor.
  - repeat constructor.
  - reflexivity.
  - reflexivity.
  - discriminate.
Defined.

End LinkerProps.

(** ** DiffSimulator *)

Module SimulatorProps.
Import Simulator.

Lemma preserves_refl h : preserves h h.
Proof. by intros l o. Qed.

Lemma preserves_trans h1 h2 h3 :
  preserves h1 h2 → preserves h2 h3 → preserves h1 h3.
Proof. intros H12 H23 l o Hl. by apply H23, H12. Qed.

Lemma prefix_preserves h h' : h `prefix_of` h' → preserves h h'.
Proof. intros Hp l o Hl. by apply (prefix_lookup_Some h). Qed.

Lemma alloc_lookup (h : heap) o : (h ++ [o]) !! length h = Some o.
Proof. by apply list_lookup_middle. Qed.

Lemma read_node_Some h l n :
  read_node h l = Some n
  ↔ ∃ m, h !! l = Some (ONode (node_id n) (node_type n) (node_name n) m)
         ∧ h !! m = Some (ODict (metadata n)).
Proof.
  unfold read_node. split.
  - destruct (h !! l) as [[id ty nm m | | |] |]; try done.
    destruct (h !! m) as [[| | d |] |] eqn:Hm; try done.
    intros [= <-]. by exists m.
  - intros (m & -> & ->). by destruct n.
Qed.

Lemma read_edge_Some h l e : read_edge h l = Some e ↔ h !! l = Some (OEdge e).
Proof.
  unfold read_edge. split.
  - destruct (h !! l) as [[| e' | |] |]; try done. by intros [= ->].
  - by intros ->.
Qed.

Lemma read_graph_Some h l g :
  read_graph h l = Some g
  ↔ ∃ ns es,
      h !! l = Some (OGraph (graph_id g) (graph_name g) (platform g) ns es)
      ∧ Forall2 (λ l n, read_node h l = Some n) ns (nodes g)
      ∧ Forall2 (λ l e, read_edge h l = Some e) es (edges g).
Proof.
  unfold read_graph. split.
  - destruct (h !! l) as [[| | | id name plat ns es] |]; try done.
    destruct (mapM (read_node h) ns) as [ns' |] eqn:Hns; [| done].
    destruct (mapM (read_edge h) es) as [es' |] eqn:Hes; [| done].
    simpl. intros [= <-]. exists ns, es. simpl.
    by rewrite <- !mapM_Some.
  - intros (ns & es & -> & Hns & Hes).
    apply mapM_Some in Hns, Hes. rewrite Hns, Hes. simpl. by destruct g.
Qed.

Lemma read_node_preserved h h' l n :
  preserves h h' → read_node h l = Some n → read_node h' l = Some n.
Proof.
  intros Hp (m & Hl & Hm)%read_node_Some. apply read_node_Some.
  exists m. split; by apply Hp.
Qed.

Lemma read_edge_preserved h h' l e :
  preserves h h' → read_edge h l = Some e → read_edge h' l = Some e.
Proof. rewrite !read_edge_Some. intros Hp. apply Hp. Qed.

Lemma read_graph_preserved h h' l g :
  preserves h h' → read_graph h l = Some g → read_graph h' l = Some g.
Proof.
  intros Hp (ns & es & Hl & Hns & Hes)%read_graph_Some.
  apply read_graph_Some. exists ns, es. split; [by apply Hp |]. split.
  - eapply Forall2_impl; [exact Hns |]. intros ? ?. by apply read_node_preserved.
  - eapply Forall2_impl; [exact Hes |]. intros ? ?. by apply read_edge_preserved.
Qed.

Lemma mirrors_preserved n0 h h' o l' :
  preserves h h' → mirrors n0 h o l' → mirrors n0 h' o l'.
Proof.
  intros Hp [d k Hk | e k Hk | id ty nm m d m' k Hm Hk Hle Hm'].
  - apply mirrors_dict. by apply Hp.
  - apply mirrors_edge. by apply Hp.
  - apply (mirrors_node _ _ _ _ _ _ d m'); auto.
Qed.

Lemma copy_of_preserved n0 h h' l l' :
  preserves h h' → copy_of n0 h l l' → copy_of n0 h' l l'.
Proof.
  intros Hp [Hle (o & Hl & Hm)]. split; [done |].
  exists o. split; [by apply Hp | by apply (mirrors_preserved _ h)].
Qed.

(** Allocation keeps the invariant and returns a location past the
    original store. *)
Lemma alloc_inv n0 (st : copying) o :
  copy_inv n0 st → copy_inv n0 (st.1 ++ [o], st.2).
Proof.
  intros [Hmemo Hlen]. split; simpl.
  - intros l l' Hl. apply (copy_of_preserved _ st.1); [| by apply Hmemo].
    apply prefix_preserves. by eexists.
  - rewrite length_app. lia.
Qed.

Lemma memoized_ok n0 (st : copying) l o (fresh : ST copying loc) :
  copy_inv n0 st →
  st.1 !! l = Some o →
  (st.2 !! l = None →
   ∃ l' st', fresh st = Some (l', st') ∧ copy_inv n0 st'
             ∧ st.1 `prefix_of` st'.1 ∧ n0 ≤ l' ∧ mirrors n0 st'.1 o l') →
  ∃ l' st', memoized l fresh st = Some (l', st') ∧ copy_inv n0 st'
            ∧ st.1 `prefix_of` st'.1 ∧ copy_of n0 st'.1 l l'.
Proof.
  intros Hinv Hl Hfresh. unfold memoized.
  destruct (st.2 !! l) as [l' |] eqn:Hmemo.
  - exists l', st. split; [done |]. split; [done |]. split; [done |].
    by apply (ci_memo _ _ Hinv).
  - destruct (Hfresh eq_refl) as (l' & [h' memo'] & -> & Hinv' & Hp & Hle & Hm).
    simpl in *. exists l', (h', <[l := l']> memo').
    assert (copy_of n0 h' l l') as Hcopy.
    { split; [done |]. exists o. split; [| done].
      by apply (prefix_lookup_Some st.1). }
    split; [done |]. split; [| by split].
    split; simpl; [| apply (ci_len _ _ Hinv')].
    intros k k'. rewrite lookup_insert. case_decide as Hk.
    + intros [= <-]. by subst k.
    + apply (ci_memo _ _ Hinv').
Qed.

Lemma copy_plain_ok n0 (st : copying) l o :
  copy_inv n0 st →
  st.1 !! l = Some o →
  mirrors n0 (st.1 ++ [o]) o (length st.1) →
  ∃ l' st', memoized l (alloc o) st = Some (l', st') ∧ copy_inv n0 st'
            ∧ st.1 `prefix_of` st'.1 ∧ copy_of n0 st'.1 l l'.
Proof.
  intros Hinv Hl Hm. apply (memoized_ok n0 st l o); [done | done |].
  intros _. exists (length st.1), (st.1 ++ [o], st.2).
  split; [done |]. split; [by apply alloc_inv |].
  split; [by eexists |]. split; [apply (ci_len _ _ Hinv) | done].
Qed.

Lemma copy_dict_ok n0 (st : copying) l d :
  copy_inv n0 st →
  st.1 !! l = Some (ODict d) →
  ∃ l' st', copy_dict l st = Some (l', st') ∧ copy_inv n0 st'
            ∧ st.1 `prefix_of` st'.1 ∧ copy_of n0 st'.1 l l'.
Proof.
  intros Hinv Hl. unfold copy_dict. rewrite Hl.
  apply copy_plain_ok; [done | done |].
  apply mirrors_dict, alloc_lookup.
Qed.

Lemma copy_edge_ok n0 (st : copying) l e :
  copy_inv n0 st →
  st.1 !! l = Some (OEdge e) →
  ∃ l' st', copy_edge l st = Some (l', st') ∧ copy_inv n0 st'
            ∧ st.1 `prefix_of` st'.1 ∧ copy_of n0 st'.1 l l'.
Proof.
  intros Hinv Hl. unfold copy_edge. rewrite Hl.
  apply copy_plain_ok; [done | done |].
  apply mirrors_edge, alloc_lookup.
Qed.

Lemma copy_node_ok n0 (st : copying) l id ty nm m d :
  copy_inv n0 st →
  st.1 !! l = Some (ONode id ty nm m) →
  st.1 !! m = Some (ODict d) →
  ∃ l' st', copy_node l st = Some (l', st') ∧ copy_inv n0 st'
            ∧ st.1 `prefix_of` st'.1 ∧ copy_of n0 st'.1 l l'.
Proof.
  intros Hinv Hl Hm. unfold copy_node. rewrite Hl.
  apply (memoized_ok n0 st l (ONode id ty nm m)); [done | done |].
  intros _. unfold bind.
  destruct (copy_dict_ok n0 st m d Hinv Hm)
    as (m' & st1 & -> & Hinv1 & Hp1 & Hle & o & Hm1 & Hmir).
  assert (o = ODict d) as ->.
  { apply (prefix_lookup_Some _ _ _ _ Hm) in Hp1. congruence. }
  inversion Hmir as [d' k Hk | |]; subst.
  exists (length st1.1), (st1.1 ++ [ONode id ty nm m'], st1.2).
  assert (st1.1 `prefix_of` st1.1 ++ [ONode id ty nm m']) as Hp2
    by by eexists.
  split; [done |]. split; [by apply alloc_inv |].
  split; [by etrans |]. split; [apply (ci_len _ _ Hinv1) |].
  apply (mirrors_node _ _ _ _ _ _ d m'); [| apply alloc_lookup | done |].
  - by apply (prefix_lookup_Some st1.1).
  - by apply (prefix_lookup_Some st1.1).
Qed.

(** A loop of copies: every element is copied in the final store. *)
Section copies.
Context (n0 : nat) (f : loc → ST copying loc) (pre : heap → loc → Prop).
Hypothesis f_ok : ∀ (st : copying) l,
  copy_inv n0 st → pre st.1 l →
  ∃ l' st', f l st = Some (l', st') ∧ copy_inv n0 st'
            ∧ st.1 `prefix_of` st'.1 ∧ copy_of n0 st'.1 l l'.
Hypothesis pre_mono : ∀ h h' l, h `prefix_of` h' → pre h l → pre h' l.

Lemma for_each_copy_ok (st : copying) ls :
  copy_inv n0 st → Forall (pre st.1) ls →
  ∃ ls' st', for_each f ls st = Some (ls', st') ∧ copy_inv n0 st'
             ∧ st.1 `prefix_of` st'.1 ∧ Forall2 (copy_of n0 st'.1) ls ls'.
Proof.
  revert st. induction ls as [| l ls IH]; intros st Hinv Hpre; simpl.
  - exists [], st. split; [done |]. split; [done |]. split; [done |].
    constructor.
  - apply Forall_cons in Hpre as [Hl Hls]. unfold bind.
    destruct (f_ok st l Hinv Hl) as (l' & st1 & -> & Hinv1 & Hp1 & Hc).
    destruct (IH st1 Hinv1) as (ls' & st2 & -> & Hinv2 & Hp2 & Hcs).
    { eapply Forall_impl; [exact Hls |]. intros k. by apply pre_mono. }
    exists (l' :: ls'), st2. split; [done |]. split; [done |].
    split; [by etrans |]. apply Forall2_cons. split; [| done].
    apply (copy_of_preserved _ st1.1); [by apply prefix_preserves | done].
Qed.
End copies.

(** The copy of a readable node reads as the same node, and so for
    edges. *)
Lemma copy_of_read_node n0 h l l' n :
  copy_of n0 h l l' → read_node h l = Some n → read_node h l' = Some n.
Proof.
  intros [_ (o & Hl & Hm)] (m & Hl' & Hd)%read_node_Some.
  rewrite Hl in Hl'. injection Hl' as ->.
  inversion Hm as [| | id ty nm m0 d m' k Hm0 Hk Hle Hm']; subst.
  apply read_node_Some. exists m'. split; [done |]. congruence.
Qed.

Lemma copy_of_read_edge n0 h l l' e :
  copy_of n0 h l l' → read_edge h l = Some e → read_edge h l' = Some e.
Proof.
  intros [_ (o & Hl & Hm)] Hl'%read_edge_Some.
  rewrite Hl in Hl'. injection Hl' as ->.
  inversion Hm; subst. by apply read_edge_Some.
Qed.

Lemma copy_of_fresh_node n0 h l l' n :
  copy_of n0 h l l' → read_node h l = Some n → fresh_node n0 h l'.
Proof.
  intros [Hle (o & Hl & Hm)] (m & Hl' & Hd)%read_node_Some.
  rewrite Hl in Hl'. injection Hl' as ->.
  inversion Hm as [| | id ty nm m0 d m' k Hm0 Hk Hle' Hm']; subst.
  split; [done |]. by exists (node_id n), (node_type n), (node_name n), m', d.
Qed.

(** What [deepcopy] returns on a store that holds a graph at [l]: a new
    graph object, past the original store like every object it refers
    to, that reads as the same graph; the original store is a prefix of
    the new one. *)
Lemma deepcopy_ok h l g :
  read_graph h l = Some g →
  ∃ l' h' ns' es',
    deepcopy l h = Some (l', h')
    ∧ h `prefix_of` h'
    ∧ length h ≤ l'
    ∧ h' !! l' = Some (OGraph (graph_id g) (graph_name g) (platform g) ns' es')
    ∧ Forall2 (λ k n, fresh_node (length h) h' k ∧ read_node h' k = Some n)
        ns' (nodes g)
    ∧ Forall2 (λ k e, length h ≤ k ∧ read_edge h' k = Some e) es' (edges g).
Proof.
  intros (ns & es & Hl & Hns & Hes)%read_graph_Some.
  unfold deepcopy. rewrite Hl. unfold bind.
  assert (copy_inv (length h) (h, ∅)) as Hinv0.
  { split; simpl; [| done]. intros k k'. by rewrite lookup_empty. }
  destruct (for_each_copy_ok (length h) copy_node
              (λ h k, is_Some (read_node h k))) with (st := (h, ∅ : gmap loc loc))
              (ls := ns)
    as (ns' & st1 & -> & Hinv1 & Hp1 & Hcn); [| | done | |].
  { intros st k Hinv [n (m & Hk & Hm)%read_node_Some].
    by apply (copy_node_ok _ _ _ _ _ _ _ _ Hinv Hk Hm). }
  { intros h1 h2 k Hp [n Hn]. exists n.
    apply (read_node_preserved h1); [by apply prefix_preserves | done]. }
  { simpl. apply Forall_forall. intros k Hk.
    destruct (proj1 (list_elem_of_lookup _ _) Hk) as [i Hi].
    destruct (Forall2_lookup_l _ _ _ _ _ Hns Hi) as (n & _ & Hn).
    by exists n. }
  simpl in Hp1.
  destruct (for_each_copy_ok (length h) copy_edge
              (λ h k, is_Some (read_edge h k))) with (st := st1) (ls := es)
    as (es' & st2 & -> & Hinv2 & Hp2 & Hce); [| | done | |].
  { intros st k Hinv [e Hk%read_edge_Some].
    by apply (copy_edge_ok _ _ _ _ Hinv Hk). }
  { intros h1 h2 k Hp [e He]. exists e.
    apply (read_edge_preserved h1); [by apply prefix_preserves | done]. }
  { apply Forall_forall. intros k Hk.
    destruct (proj1 (list_elem_of_lookup _ _) Hk) as [i Hi].
    destruct (Forall2_lookup_l _ _ _ _ _ Hes Hi) as (e & _ & He).
    exists e. apply (read_edge_preserved h); [by apply prefix_preserves | done]. }
  simpl.
  set (o := OGraph (graph_id g) (graph_name g) (platform g) ns' es').
  assert (h `prefix_of` st2.1) as Hp02 by by etrans.
  assert (st2.1 `prefix_of` st2.1 ++ [o]) as Hp23 by by eexists.
  assert (preserves h (st2.1 ++ [o])) as Hpres
    by (apply prefix_preserves; by etrans).
  exists (length st2.1), (st2.1 ++ [o]), ns', es'.
  split; [done |]. split; [by etrans |].
  split; [apply (ci_len _ _ Hinv2) |]. split; [apply alloc_lookup |].
  split.
  - apply (Forall2_through _ _ _ _ _ _ Hcn Hns). intros k k' n Hc Hr.
    assert (copy_of (length h) (st2.1 ++ [o]) k k') as Hc'.
    { apply (copy_of_preserved _ st1.1); [| done].
      apply prefix_preserves. by etrans. }
    apply (read_node_preserved h (st2.1 ++ [o])) in Hr; [| done].
    split; [exact (copy_of_fresh_node _ _ k k' n Hc' Hr) |].
    exact (copy_of_read_node _ _ k k' n Hc' Hr).
  - apply (Forall2_through _ _ _ _ _ _ Hce Hes). intros k k' e Hc Hr.
    assert (copy_of (length h) (st2.1 ++ [o]) k k') as Hc'.
    { apply (copy_of_preserved _ st2.1); [by apply prefix_preserves | done]. }
    apply (read_edge_preserved h (st2.1 ++ [o])) in Hr; [| done].
    split; [apply Hc |]. exact (copy_of_read_edge _ _ k k' e Hc' Hr).
Qed.

Lemma deepcopy_proj_inv h l g :
  read_graph h l = Some g →
  ∃ lp h' ns' es',
    deepcopy l h = Some (lp, h') ∧ length h ≤ lp ∧ proj_inv h lp g ns' es' h'.
Proof.
  intros Hg.
  destruct (deepcopy_ok h l g Hg)
    as (lp & h' & ns' & es' & Hd & Hp & Hle & Hlp & Hns & Hes).
  exists lp, h', ns', es'. split; [done |]. split; [done |].
  split; [by apply prefix_preserves | done | |].
  - eapply Forall2_impl; [exact Hns |]. simpl.
    intros k n [[Hk (id & ty & nm & m' & d & Hk' & Hm' & Hd')]
                (m & Hk'' & Hm)%read_node_Some].
    split; [done |]. rewrite Hk' in Hk''. injection Hk'' as -> -> -> ->.
    by exists m, d.
  - eapply Forall2_impl; [exact Hes |]. simpl.
    by intros k e [Hk ?%read_edge_Some].
Qed.

Lemma proj_node_at h0 lp g ns' es' h k :
  proj_inv h0 lp g ns' es' h → k ∈ ns' →
  ∃ id ty nm m d,
    h !! k = Some (ONode id ty nm m) ∧ length h0 ≤ m ∧ h !! m = Some (ODict d).
Proof.
  intros [_ _ Hns _] [i Hi]%list_elem_of_lookup.
  destruct (Forall2_lookup_l _ _ _ _ _ Hns Hi) as (n & _ & _ & m & d & ?).
  by exists (node_id n), (node_type n), (node_name n), m, d.
Qed.

(** Replacing a dict past [h0] by a dict keeps the invariant. *)
Lemma set_dict_inv h0 lp g ns' es' h m d d' :
  proj_inv h0 lp g ns' es' h →
  h !! m = Some (ODict d) → length h0 ≤ m →
  proj_inv h0 lp g ns' es' (<[m := ODict d']> h).
Proof.
  intros [Hf Hg Hns Hes] Hm Hle.
  assert (∀ k o, h !! k = Some o → (∀ d0, o ≠ ODict d0) →
                 <[m := ODict d']> h !! k = Some o) as Hother.
  { intros k o Hk Ho. rewrite list_lookup_insert_ne; [done |].
    intros <-. rewrite Hm in Hk. injection Hk as <-. by apply (Ho d). }
  split.
  - intros k o Hk. rewrite list_lookup_insert_ne; [by apply Hf |].
    apply lookup_lt_Some in Hk. lia.
  - by apply Hother.
  - eapply Forall2_impl; [exact Hns |]. simpl.
    intros k n (Hk & m0 & d0 & Hk' & Hm0 & Hd0). split; [done |].
    destruct (decide (m = m0)) as [<- | Hne].
    + exists m, d'. split; [by apply Hother |]. split; [done |].
      apply list_lookup_insert_eq. by apply lookup_lt_Some in Hm.
    + exists m0, d0. split; [by apply Hother |]. split; [done |].
      by rewrite list_lookup_insert_ne.
  - eapply Forall2_impl; [exact Hes |]. simpl.
    intros k e [Hk Hk']. split; [done |]. by apply Hother.
Qed.

Lemma annotate_ok h0 lp g ns' es' h s k :
  proj_inv h0 lp g ns' es' h → k ∈ ns' →
  ∃ h2, annotate s k h = Some ((), h2) ∧ proj_inv h0 lp g ns' es' h2.
Proof.
  intros Hinv Hk.
  destruct (proj_node_at _ _ _ _ _ _ _ Hinv Hk)
    as (id & ty & nm & m & d & Hk' & Hle & Hm).
  unfold annotate. rewrite Hk'. case_decide; [| by exists h].
  unfold bind, dict_setitem. rewrite Hm.
  rewrite list_lookup_insert_eq by by apply lookup_lt_Some in Hm.
  eexists. split; [done |].
  eapply set_dict_inv; [by eapply set_dict_inv | | done].
  apply list_lookup_insert_eq. by apply lookup_lt_Some in Hm.
Qed.

Lemma for_each_annotate_ok h0 lp g ns' es' h s ks :
  proj_inv h0 lp g ns' es' h → Forall (λ k, k ∈ ns') ks →
  ∃ us h2, for_each (annotate s) ks h = Some (us, h2)
           ∧ proj_inv h0 lp g ns' es' h2.
Proof.
  revert h. induction ks as [| k ks IH]; intros h Hinv Hks; simpl.
  - by exists [], h.
  - apply Forall_cons in Hks as [Hk Hks]. unfold bind.
    destruct (annotate_ok _ _ _ _ _ _ s k Hinv Hk) as (h1 & -> & Hinv1).
    destruct (IH h1 Hinv1 Hks) as (us & h2 & -> & Hinv2).
    by exists (() :: us), h2.
Qed.

Lemma apply_suggestion_ok h0 lp g ns' es' h s :
  proj_inv h0 lp g ns' es' h →
  ∃ h2, _apply_suggestion lp s h = Some ((), h2)
        ∧ proj_inv h0 lp g ns' es' h2.
Proof.
  intros Hinv. unfold _apply_suggestion. rewrite (pj_graph _ _ _ _ _ _ Hinv).
  unfold bind.
  destruct (for_each_annotate_ok _ _ _ _ _ _ s ns' Hinv)
    as (us & h2 & -> & Hinv2); [by apply Forall_forall |].
  by exists h2.
Qed.

Lemma for_each_apply_suggestion_ok h0 lp g ns' es' h ss :
  proj_inv h0 lp g ns' es' h →
  ∃ us h2, for_each (_apply_suggestion lp) ss h = Some (us, h2)
           ∧ proj_inv h0 lp g ns' es' h2.
Proof.
  revert h. induction ss as [| s ss IH]; intros h Hinv; simpl.
  - by exists [], h.
  - unfold bind.
    destruct (apply_suggestion_ok _ _ _ _ _ _ s Hinv) as (h1 & -> & Hinv1).
    destruct (IH h1 Hinv1) as (us & h2 & -> & Hinv2).
    by exists (() :: us), h2.
Qed.

Lemma project_ok h l g plan :
  read_graph h l = Some g →
  ∃ lp h' ns' es',
    project l plan h = Some (lp, h') ∧ length h ≤ lp
    ∧ proj_inv h lp g ns' es' h'.
Proof.
  intros Hg. unfold project, bind.
  destruct (deepcopy_proj_inv h l g Hg)
    as (lp & h1 & ns' & es' & -> & Hle & Hinv1).
  destruct (for_each_apply_suggestion_ok _ _ _ _ _ _ (suggestions plan) Hinv1)
    as (us & h2 & -> & Hinv2).
  by exists lp, h2, ns', es'.
Qed.

(** The projected graph reads as a graph with the nodes of [g], up to
    their metadata, and the edges of [g]. *)
Lemma proj_inv_read h0 lp g ns' es' h :
  proj_inv h0 lp g ns' es' h →
  ∃ p, read_graph h lp = Some p
       ∧ graph_id p = graph_id g
       ∧ Forall2 same_node (nodes p) (nodes g)
       ∧ edges p = edges g.
Proof.
  intros [Hf Hg Hns Hes].
  assert (∃ pn, Forall2 (λ k p, read_node h k = Some p) ns' pn
                ∧ Forall2 same_node pn (nodes g)) as (pn & Hpn & Hsame).
  { clear -Hns. induction Hns as [| k n ks gs Hk Hns IH].
    - exists []. split; constructor.
    - destruct IH as (pn & Hpn & Hsame).
      destruct Hk as (_ & m & d & Hk & _ & Hm).
      exists (mkNode (node_id n) (node_type n) (node_name n) d :: pn).
      split; constructor; try done.
      apply read_node_Some. by exists m. }
  exists (mkGraph (graph_id g) (graph_name g) (platform g) pn (edges g)).
  split; [| done]. apply read_graph_Some. exists ns', es'. simpl.
  split; [done |]. split; [done |].
  eapply Forall2_impl; [exact Hes |]. simpl.
  intros k e [_ Hk]. by apply read_edge_Some.
Qed.

Lemma proj_inv_separate h lp g ns' es' h' :
  length h ≤ lp → proj_inv h lp g ns' es' h' → separate h h' lp.
Proof.
  intros Hle [Hf Hg Hns Hes]. split; [done |].
  exists (graph_id g), (graph_name g), (platform g), ns', es'.
  split; [done |]. split.
  - apply Forall_forall. intros k [i Hi]%list_elem_of_lookup.
    destruct (Forall2_lookup_l _ _ _ _ _ Hns Hi)
      as (n & _ & Hk & m & d & Hk' & Hm & Hd).
    split; [done |].
    by exists (node_id n), (node_type n), (node_name n), m, d.
  - apply Forall_forall. intros k [i Hi]%list_elem_of_lookup.
    destruct (Forall2_lookup_l _ _ _ _ _ Hes Hi) as (e & _ & Hk & Hk').
    split; [done |]. exists e. by apply read_edge_Some.
Qed.

Lemma filter_fmap_length {A B} (f : A → B) (P : B → Prop)
    `{!∀ y, Decision (P y)} (l : list A) :
  length (filter P (f <$> l)) = length (filter (λ x, P (f x)) l).
Proof.
  induction l as [| x l IH]; [done |]. csimpl.
  rewrite !filter_cons. case_decide; simpl; by rewrite IH.
Qed.

Lemma filter_split_length {A} (P : A → Prop) `{!∀ x, Decision (P x)}
    (l : list A) :
  length (filter P l) + length (filter (λ x, ¬ P x) l) = length l.
Proof.
  induction l as [| x l IH]; [done |].
  rewrite !filter_cons.
  destruct (decide (P x)), (decide (¬ P x)); simpl; try done; lia.
Qed.

(** *** Further properties of the simulator *)

Lemma annotate_skip s k h id ty nm m :
  h !! k = Some (ONode id ty nm m) → id ∉ affected_node_ids s →
  annotate s k h = Some ((), h).
Proof. intros Hk Hid. unfold annotate. rewrite Hk. by rewrite decide_False. Qed.

Lemma for_each_annotate_skip s ks h :
  Forall (λ k, ∃ id ty nm m, h !! k = Some (ONode id ty nm m)
                             ∧ id ∉ affected_node_ids s) ks →
  ∃ us, for_each (annotate s) ks h = Some (us, h).
Proof.
  induction ks as [| k ks IH]; intros Hks; simpl; [by exists [] |].
  apply Forall_cons in Hks as [(id & ty & nm & m & Hk & Hid) Hks].
  unfold bind. rewrite (annotate_skip s k h id ty nm m Hk Hid).
  destruct (IH Hks) as [us ->]. by eexists.
Qed.

(** The projection when no suggestion names a node of the graph: the
    store of the deep copy, untouched, where the copy reads as the
    graph. *)
Lemma project_untouched h graph plan g :
  read_graph h graph = Some g →
  (∀ s n, s ∈ suggestions plan → n ∈ nodes g →
          node_id n ∉ affected_node_ids s) →
  ∃ lp h', project graph plan h = Some (lp, h')
           ∧ deepcopy graph h = Some (lp, h')
           ∧ read_graph h' lp = Some g.
Proof.
  intros Hg Hfree.
  destruct (deepcopy_ok h graph g Hg)
    as (lp & h' & ns' & es' & Hd & Hp & Hle & Hlp & Hns & Hes).
  exists lp, h'.
  assert (read_graph h' lp = Some g) as Hread.
  { apply read_graph_Some. exists ns', es'. split; [done |]. split.
    - eapply Forall2_impl; [exact Hns |]. by intros k n [_ ?].
    - eapply Forall2_impl; [exact Hes |]. by intros k e [_ ?]. }
  split; [| done]. unfold project, bind. rewrite Hd.
  assert (∀ ss, (∀ s, s ∈ ss → s ∈ suggestions plan) →
            ∃ us, for_each (_apply_suggestion lp) ss h' = Some (us, h'))
    as Hss.
  { induction ss as [| s ss IH]; intros Hsub; simpl; [by exists [] |].
    unfold bind, _apply_suggestion at 1. rewrite Hlp. unfold bind.
    destruct (for_each_annotate_skip s ns' h') as [us ->].
    { apply Forall_forall. intros k [i Hi]%list_elem_of_lookup.
      destruct (Forall2_lookup_l _ _ _ _ _ Hns Hi)
        as (n & Hn & _ & (m & Hk & _)%read_node_Some).
      exists (node_id n), (node_type n), (node_name n), m.
      split; [done |]. apply Hfree; [apply Hsub; by left |].
      by eapply list_elem_of_lookup_2. }
    simpl. destruct IH as [us' ->]; [intros s' Hs'; apply Hsub; by right |].
    by eexists. }
  destruct (Hss (suggestions plan)) as [us ->]; done.
Qed.

Lemma mark_weaken h0 lp g ns' es' plan (must must' : loc → string → Prop) h :
  (∀ k id, must' k id → must k id) →
  mark_inv h0 lp g ns' es' plan must h → mark_inv h0 lp g ns' es' plan must' h.
Proof.
  intros Hsub [Hp Hns]. split; [done |].
  eapply Forall2_impl; [exact Hns |]. simpl.
  intros k n (m & d & Hk & Hm & Ha & Hmark). exists m, d.
  repeat (split; [done |]). auto.
Qed.

Lemma mark_write h0 lp g ns' es' plan must h m d d' :
  mark_inv h0 lp g ns' es' plan must h →
  h !! m = Some (ODict d) → length h0 ≤ m →
  (∀ key, key ≠ "refactored" → key ≠ "refactor_rule" →
          d' !! key = d !! key) →
  (marked plan d → marked plan d') →
  mark_inv h0 lp g ns' es' plan must (<[m := ODict d']> h).
Proof.
  intros [Hp Hns] Hm Hle Hkeep Hmark.
  split; [by eapply set_dict_inv |].
  eapply Forall2_impl; [exact Hns |]. simpl.
  intros k n (m1 & d1 & Hk & Hm1 & Ha & Hmust).
  assert (<[m := ODict d']> h !! k
          = Some (ONode (node_id n) (node_type n) (node_name n) m1)) as Hk'.
  { rewrite list_lookup_insert_ne; [done |]. intros <-. congruence. }
  destruct (decide (m = m1)) as [<- | Hne].
  - exists m, d'. split; [done |].
    split; [apply list_lookup_insert_eq; by apply lookup_lt_Some in Hm |].
    assert (d1 = d) as -> by congruence. split.
    + intros key H1 H2. rewrite Hkeep by done. by apply Ha.
    + auto.
  - exists m1, d1. split; [done |].
    split; [by rewrite list_lookup_insert_ne |]. done.
Qed.

Lemma mark_add h0 lp g ns' es' plan must h k id ty nm m d :
  mark_inv h0 lp g ns' es' plan must h →
  h !! k = Some (ONode id ty nm m) → h !! m = Some (ODict d) →
  marked plan d →
  mark_inv h0 lp g ns' es' plan (λ k' id', must k' id' ∨ k' = k) h.
Proof.
  intros [Hp Hns] Hk Hm Hd. split; [done |].
  eapply Forall2_impl; [exact Hns |]. simpl.
  intros k1 n (m1 & d1 & Hk1 & Hm1 & Ha & Hmust). exists m1, d1.
  repeat (split; [done |]). intros [? | ->]; [auto |].
  assert (m1 = m) as -> by congruence. congruence.
Qed.

Lemma annotate_mark h0 lp g ns' es' plan must h s k :
  mark_inv h0 lp g ns' es' plan must h →
  k ∈ ns' → s ∈ suggestions plan →
  ∃ h2, annotate s k h = Some ((), h2)
        ∧ mark_inv h0 lp g ns' es' plan
            (λ k' id', must k' id' ∨ (k' = k ∧ id' ∈ affected_node_ids s)) h2.
Proof.
  intros Hinv Hk Hs. pose proof Hinv as [Hp Hns].
  destruct (proj_node_at _ _ _ _ _ _ _ Hp Hk)
    as (id & ty & nm & m & d & Hk' & Hle & Hm).
  unfold annotate. rewrite Hk'. case_decide as Hid.
  - unfold bind, dict_setitem. rewrite Hm.
    rewrite list_lookup_insert_eq by by apply lookup_lt_Some in Hm.
    eexists. split; [done |].
    set (d1 := <["refactored" := VBool true]> d).
    set (d2 := <["refactor_rule" := VStr (rule_id s)]> d1).
    set (h1 := <[m := ODict d1]> h).
    assert (h1 !! m = Some (ODict d1)) as Hm1
      by (apply list_lookup_insert_eq; by apply lookup_lt_Some in Hm).
    assert (mark_inv h0 lp g ns' es' plan must h1) as Hinv1.
    { apply (mark_write _ _ _ _ _ _ _ _ _ d); try done.
      - intros key H1 H2. unfold d1. by rewrite lookup_insert_ne.
      - intros [_ (s0 & Hs0 & Hr)]. split; [apply lookup_insert_eq |].
        exists s0. split; [done |]. unfold d1. by rewrite lookup_insert_ne. }
    assert (mark_inv h0 lp g ns' es' plan must (<[m := ODict d2]> h1))
      as Hinv2.
    { apply (mark_write _ _ _ _ _ _ _ _ _ d1); try done.
      - intros key H1 H2. unfold d2. by rewrite lookup_insert_ne.
      - intros [Hr _]. split.
        + unfold d2. by rewrite lookup_insert_ne.
        + exists s. split; [done |]. apply lookup_insert_eq. }
    eapply mark_weaken;
      [| eapply (mark_add _ _ _ _ _ _ _ _ k id ty nm m d2); [exact Hinv2 | |
         | ]].
    + intros k0 id0 [? | [-> _]]; [by left | by right].
    + rewrite list_lookup_insert_ne by (intros <-; congruence).
      unfold h1. rewrite list_lookup_insert_ne by (intros <-; congruence).
      done.
    + apply list_lookup_insert_eq. unfold h1. rewrite length_insert.
      by apply lookup_lt_Some in Hm.
    + split.
      * unfold d2, d1. rewrite lookup_insert_ne by done.
        apply lookup_insert_eq.
      * exists s. split; [done |]. apply lookup_insert_eq.
  - exists h. split; [done |]. split; [done |].
    eapply Forall2_impl; [exact Hns |]. simpl.
    intros k1 n (m1 & d1 & Hk1 & Hm1 & Ha & Hmust). exists m1, d1.
    repeat (split; [done |]). intros [? | [-> Hin]]; [auto |].
    destruct Hid. congruence.
Qed.

Lemma for_each_annotate_mark h0 lp g ns' es' plan must h s ks :
  mark_inv h0 lp g ns' es' plan must h →
  Forall (λ k, k ∈ ns') ks → s ∈ suggestions plan →
  ∃ us h2, for_each (annotate s) ks h = Some (us, h2)
           ∧ mark_inv h0 lp g ns' es' plan
               (λ k' id', must k' id'
                          ∨ (k' ∈ ks ∧ id' ∈ affected_node_ids s)) h2.
Proof.
  intros Hinv Hks Hs. revert must h Hinv.
  induction ks as [| k ks IH]; intros must h Hinv; simpl.
  - exists [], h. split; [done |]. eapply mark_weaken; [| exact Hinv].
    intros k id [? | [?%elem_of_nil _]]; done.
  - apply Forall_cons in Hks as [Hk Hks]. unfold bind.
    destruct (annotate_mark _ _ _ _ _ _ _ _ s k Hinv Hk Hs)
      as (h1 & -> & Hinv1).
    destruct (IH Hks _ h1 Hinv1) as (us & h2 & -> & Hinv2).
    exists (() :: us), h2. split; [done |].
    eapply mark_weaken; [| exact Hinv2]. simpl.
    intros k0 id0 [? | [[-> | ?]%elem_of_cons ?]]; auto.
Qed.

Lemma apply_suggestions_mark h0 lp g ns' es' plan must h ss :
  mark_inv h0 lp g ns' es' plan must h →
  (∀ s, s ∈ ss → s ∈ suggestions plan) →
  ∃ us h2, for_each (_apply_suggestion lp) ss h = Some (us, h2)
           ∧ mark_inv h0 lp g ns' es' plan
               (λ k' id', must k' id'
                          ∨ ∃ s, s ∈ ss ∧ k' ∈ ns'
                                 ∧ id' ∈ affected_node_ids s) h2.
Proof.
  intros Hinv Hsub. revert must h Hinv.
  induction ss as [| s ss IH]; intros must h Hinv; simpl.
  - exists [], h. split; [done |]. eapply mark_weaken; [| exact Hinv].
    intros k id [? | (s & ?%elem_of_nil & _)]; done.
  - unfold bind, _apply_suggestion at 1.
    rewrite (pj_graph _ _ _ _ _ _ (proj1 Hinv)). unfold bind.
    destruct (for_each_annotate_mark _ _ _ _ _ _ _ _ s ns' Hinv)
      as (us1 & h1 & -> & Hinv1);
      [by apply Forall_forall | apply Hsub; by left |].
    simpl.
    destruct (IH (λ s' Hs', Hsub s' (list_elem_of_further _ _ _ Hs')) _ h1 Hinv1)
      as (us & h2 & -> & Hinv2).
    exists (() :: us), h2. split; [done |].
    eapply mark_weaken; [| exact Hinv2]. simpl.
    intros k0 id0 [? | (s0 & [-> | ?]%elem_of_cons & ? & ?)]; eauto 7.
Qed.

Lemma Forall2_elem_l {A B} (P : A → B → Prop) (l : list A) (k : list B) :
  Forall2 P l k → Forall2 (λ x y, x ∈ l ∧ P x y) l k.
Proof.
  induction 1 as [| x y l k Hxy Hlk IH]; constructor.
  - split; [by left | done].
  - eapply Forall2_impl; [exact IH |]. simpl. intros a b [? ?].
    split; [by right | done].
Qed.

(** X16. The projected graph has the nodes and edges of the input graph;
    each node keeps its id, type and name and every metadata entry
    except "refactored" and "refactor_rule"; and every node whose id a
    suggestion names has "refactored" set to True and "refactor_rule"
    set to the rule id of a suggestion of the plan. *)
Theorem projection_marks_affected_nodes h graph plan g :
  read_graph h graph = Some g →
  ∃ lp h' p,
    project graph plan h = Some (lp, h')
    ∧ read_graph h' lp = Some p
    ∧ edges p = edges g
    ∧ Forall2 (λ q n,
                 same_node q n
                 ∧ agree (metadata q) (metadata n)
                 ∧ ((∃ s, s ∈ suggestions plan
                          ∧ node_id n ∈ affected_node_ids s) →
                    marked plan (metadata q)))
        (nodes p) (nodes g).
Proof.
  intros Hg. unfold project, bind.
  destruct (deepcopy_ok h graph g Hg)
    as (lp & h1 & ns' & es' & Hd & Hpre & Hle & Hlp & Hns & Hes).
  destruct (deepcopy_proj_inv h graph g Hg)
    as (lp0 & h10 & ns0 & es0 & Hd0 & _ & Hinv0).
  rewrite Hd in Hd0. injection Hd0 as <- <-.
  assert (ns0 = ns' ∧ es0 = es') as [-> ->].
  { pose proof (pj_graph _ _ _ _ _ _ Hinv0) as Hlp0.
    rewrite Hlp in Hlp0. by injection Hlp0 as <- <-. }
  rewrite Hd.
  assert (mark_inv h lp g ns' es' plan (λ _ _, False) h1) as Hmark0.
  { split; [done |]. eapply Forall2_impl; [exact Hns |]. simpl.
    intros k n [_ (m & Hk & Hm)%read_node_Some].
    exists m, (metadata n). by repeat split. }
  destruct (apply_suggestions_mark _ _ _ _ _ _ _ _ (suggestions plan) Hmark0)
    as (us & h2 & -> & [Hp2 Hns2]); [done |].
  apply Forall2_elem_l in Hns2.
  assert (∃ pn, Forall2 (λ k q, read_node h2 k = Some q) ns' pn
                ∧ Forall2 (λ q n,
                     same_node q n ∧ agree (metadata q) (metadata n)
                     ∧ ((∃ s, s ∈ suggestions plan
                              ∧ node_id n ∈ affected_node_ids s) →
                        marked plan (metadata q))) pn (nodes g))
    as (pn & Hpn & Hprops).
  { assert (Forall2 (λ k n, ∃ m d,
                h2 !! k = Some (ONode (node_id n) (node_type n)
                                  (node_name n) m)
                ∧ h2 !! m = Some (ODict d)
                ∧ agree d (metadata n)
                ∧ ((∃ s, s ∈ suggestions plan
                         ∧ node_id n ∈ affected_node_ids s) →
                   marked plan d)) ns' (nodes g)) as Hns3.
    { eapply Forall2_impl; [exact Hns2 |]. simpl.
      intros k n (Hin & m & d & Hk & Hm & Ha & Hmust). exists m, d.
      repeat (split; [done |]). intros (s & Hs & Hid).
      apply Hmust. right. by exists s. }
    clear -Hns3. induction Hns3 as [| k n ks gs Hk Hrest IH].
    - exists []. split; constructor.
    - destruct IH as (pn & Hpn & Hprops).
      destruct Hk as (m & d & Hk & Hm & Ha & Hmust).
      exists (mkNode (node_id n) (node_type n) (node_name n) d :: pn).
      split; constructor; try done.
      apply read_node_Some. by exists m. }
  exists lp, h2, (mkGraph (graph_id g) (graph_name g) (platform g) pn (edges g)).
  split; [done |]. split; [| done].
  apply read_graph_Some. exists ns', es'. simpl.
  split; [apply (pj_graph _ _ _ _ _ _ Hp2) |]. split; [done |].
  eapply Forall2_impl; [apply (pj_edges _ _ _ _ _ _ Hp2) |]. simpl.
  intros k e [_ Hk]. by apply read_edge_Some.
Qed.

Section simulation.
Context {score : Type} (compute_scores : CICDGraph → @Scores score).

(** On a store that holds a graph, [simulate] returns: it projects the
    graph and reads the projection, and its result is built from those. *)
Lemma simulate_ok h graph findings plan g :
  read_graph h graph = Some g →
  ∃ lp h' ns' es' p,
    project graph plan h = Some (lp, h')
    ∧ length h ≤ lp
    ∧ proj_inv h lp g ns' es' h'
    ∧ read_graph h' lp = Some p
    ∧ Forall2 same_node (nodes p) (nodes g)
    ∧ edges p = edges g
    ∧ ∃ res,
        simulate compute_scores graph findings plan h = Some (res, h')
        ∧ findings_removed res
          = length findings - length (remaining findings plan)
        ∧ findings_remaining res = length (remaining findings plan)
        ∧ projected_node_count res = length (nodes p)
        ∧ projected_edge_count res = length (edges p).
Proof.
  intros Hg.
  destruct (project_ok h graph g plan Hg)
    as (lp & h' & ns' & es' & Hproj & Hle & Hinv).
  destruct (proj_inv_read _ _ _ _ _ _ Hinv) as (p & Hp & _ & Hsame & Hedges).
  exists lp, h', ns', es', p. repeat (split; [done |]).
  unfold simulate. rewrite Hg. simpl. rewrite Hproj. simpl. rewrite Hp. simpl.
  eexists. split; [done |]. by simpl.
Qed.

(** C5. [simulate] leaves every object of the store it was called on as
    it was, so the input graph reads as the same graph afterwards, nodes,
    edges and metadata included; the graph it annotates is a copy whose
    graph object, nodes, metadata dicts and edges are all new objects. *)
Theorem simulate_never_mutates_input h graph findings plan g :
  read_graph h graph = Some g →
  ∃ res h' lp,
    simulate compute_scores graph findings plan h = Some (res, h')
    ∧ project graph plan h = Some (lp, h')
    ∧ preserves h h'
    ∧ read_graph h' graph = Some g
    ∧ separate h h' lp.
Proof.
  intros Hg.
  destruct (simulate_ok h graph findings plan g Hg)
    as (lp & h' & ns' & es' & p & Hproj & Hle & Hinv & _ & _ & _
        & res & Hsim & _).
  exists res, h', lp. split; [done |]. split; [done |].
  split; [apply (pj_frame _ _ _ _ _ _ Hinv) |].
  split; [| by apply (proj_inv_separate _ _ g ns' es')].
  apply (read_graph_preserved h); [apply (pj_frame _ _ _ _ _ _ Hinv) | done].
Qed.

(** C6. The projected counts of the result are the numbers of nodes and
    of edges of the input graph. *)
Theorem simulate_keeps_counts h graph findings plan g :
  read_graph h graph = Some g →
  ∃ res h',
    simulate compute_scores graph findings plan h = Some (res, h')
    ∧ projected_node_count res = length (nodes g)
    ∧ projected_edge_count res = length (edges g).
Proof.
  intros Hg.
  destruct (simulate_ok h graph findings plan g Hg)
    as (lp & h' & ns' & es' & p & _ & _ & _ & _ & Hsame & Hedges
        & res & Hsim & _ & _ & Hn & He).
  exists res, h'. split; [done |].
  rewrite Hn, He, Hedges. split; [| done].
  by apply Forall2_length in Hsame.
Qed.

(** C7. [findings_removed] counts the findings whose rule id is the rule
    id of some suggestion of the plan, [findings_remaining] counts the
    others, which [remaining] keeps in their order; both counts are
    functions of the rule ids of the findings and of the suggestions
    alone. *)
Theorem findings_split_by_rule_id h graph findings plan g :
  read_graph h graph = Some g →
  let fixed := rule_id <$> suggestions plan in
  ∃ res h',
    simulate compute_scores graph findings plan h = Some (res, h')
    ∧ findings_removed res
      = length (filter (λ r, r ∈ fixed) (finding_rule_id <$> findings))
    ∧ findings_remaining res
      = length (filter (λ r, r ∉ fixed) (finding_rule_id <$> findings))
    ∧ findings_remaining res = length (remaining findings plan)
    ∧ remaining findings plan
      = filter (λ f, finding_rule_id f ∉ fixed) findings
    ∧ remaining findings plan `sublist_of` findings.
Proof.
  intros Hg fixed.
  destruct (simulate_ok h graph findings plan g Hg)
    as (lp & h' & ns' & es' & p & _ & _ & _ & _ & _ & _
        & res & Hsim & Hrem & Hkeep & _).
  assert (remaining findings plan
          = filter (λ f, finding_rule_id f ∉ fixed) findings) as Hfilter.
  { unfold remaining, fixed_rule_ids. apply list_filter_iff. intros f.
    by rewrite elem_of_list_to_set. }
  exists res, h'. split; [done |].
  rewrite Hrem, Hkeep, Hfilter, !filter_fmap_length.
  pose proof (filter_split_length (λ f, finding_rule_id f ∈ fixed) findings).
  split; [lia |]. split; [done |]. split; [done |]. split; [done |].
  apply sublist_filter.
Qed.

(** X14. When no suggestion of the plan names a node of the graph, the
    projected graph is the deep copy as it was made: it reads as the
    input graph, and every score delta has equal before and after. *)
Theorem simulate_unaffected_graph h graph findings plan g :
  read_graph h graph = Some g →
  (∀ s n, s ∈ suggestions plan → n ∈ nodes g →
          node_id n ∉ affected_node_ids s) →
  let sc := compute_scores g in
  ∃ res h' lp,
    simulate compute_scores graph findings plan h = Some (res, h')
    ∧ project graph plan h = Some (lp, h')
    ∧ read_graph h' lp = Some g
    ∧ score_deltas res
      = [ mkScoreDelta "complexity" (complexity_score sc) (complexity_score sc);
          mkScoreDelta "fragility" (fragility_score sc) (fragility_score sc);
          mkScoreDelta "maturity" (maturity_score sc) (maturity_score sc) ].
Proof.
  intros Hg Hfree sc.
  destruct (project_untouched h graph plan g Hg Hfree)
    as (lp & h' & Hproj & _ & Hread).
  unfold simulate. rewrite Hg. simpl. rewrite Hproj. simpl.
  rewrite Hread. simpl. by eexists _, h', lp.
Qed.

(** X15. With an empty plan no finding is removed, all remain, and the
    projected graph reads as the input graph, with its counts. *)
Theorem simulate_empty_plan h graph findings plan g :
  read_graph h graph = Some g →
  suggestions plan = [] →
  ∃ res h' lp,
    simulate compute_scores graph findings plan h = Some (res, h')
    ∧ project graph plan h = Some (lp, h')
    ∧ read_graph h' lp = Some g
    ∧ findings_removed res = 0
    ∧ findings_remaining res = length findings
    ∧ projected_node_count res = length (nodes g)
    ∧ projected_edge_count res = length (edges g).
Proof.
  intros Hg Hempty.
  destruct (project_untouched h graph plan g Hg)
    as (lp & h' & Hproj & _ & Hread).
  { intros s n Hs. rewrite Hempty in Hs. by apply elem_of_nil in Hs. }
  assert (remaining findings plan = findings) as Hrem.
  { unfold remaining, fixed_rule_ids. rewrite Hempty. simpl.
    induction findings as [| f fs IH]; [done |].
    rewrite filter_cons, decide_True by apply not_elem_of_empty.
    by rewrite IH. }
  unfold simulate. rewrite Hg. simpl. rewrite Hproj. simpl.
  rewrite Hread. simpl. rewrite Hrem.
  eexists _, h', lp. repeat (split; [done |]). simpl.
  split; [lia | done].
Qed.

End simulation.

Example simulate_example :
  simulate example_scores 5 example_findings example_plan example_heap
  = Some
      (mkResult "p" "g" 1 1
         [ mkScoreDelta "complexity" 2 2; mkScoreDelta "fragility" 1 1;
           mkScoreDelta "maturity" 0 1 ] 2 1,
       example_heap
       ++ [ ODict ∅;
            ONode "n1" PIPELINE "Pipeline" 6;
            ODict (<[ "refactor_rule" := VStr "no-timeout" ]>
                     (<[ "refactored" := VBool true ]>
                        {[ "timeout" := VInt 30 ]}));
            ONode "n2" JOB "Build" 8;
            OEdge (mkEdge "e1" CALLS "n1" "n2");
            OGraph "g" "Test CI" None [7; 9] [10] ]).
Proof. reflexivity. Qed.

Lemma simulate_never_mutates_input_witness :
  ∃ res h' lp,
    simulate example_scores 5 example_findings example_plan example_heap
    = Some (res, h')
    ∧ project 5 example_plan example_heap = Some (lp, h')
    ∧ preserves example_heap h'
    ∧ read_graph h' 5 = Some example_graph
    ∧ separate example_heap h' lp.
Proof.
  exact (simulate_never_mutates_input example_scores example_heap 5
           example_findings example_plan example_graph eq_refl).
Defined.

Lemma simulate_keeps_counts_witness :
  ∃ res h',
    simulate example_scores 5 example_findings example_plan example_heap
    = Some (res, h')
    ∧ projected_node_count res = 2
    ∧ projected_edge_count res = 1.
Proof.
  exact (simulate_keeps_counts example_scores example_heap 5
           example_findings example_plan example_graph eq_refl).
Defined.

Lemma findings_split_by_rule_id_witness :
  ∃ res h',
    simulate example_scores 5 example_findings example_plan example_heap
    = Some (res, h')
    ∧ findings_removed res
      = length (filter (λ r, r ∈ ["no-timeout"])
                  ["no-timeout"; "unpinned-images"])
    ∧ findings_remaining res
      = length (filter (λ r, r ∉ ["no-timeout"])
                  ["no-timeout"; "unpinned-images"])
    ∧ findings_remaining res = length (remaining example_findings example_plan)
    ∧ remaining example_findings example_plan
      = filter (λ f, finding_rule_id f ∉ ["no-timeout"]) example_findings
    ∧ remaining example_findings example_plan `sublist_of` example_findings.
Proof.
  exact (findings_split_by_rule_id example_scores example_heap 5
           example_findings example_plan example_graph eq_refl).
Defined.

Lemma simulate_unaffected_graph_witness :
  ∃ res h' lp,
    simulate example_scores 5 example_findings stray_plan example_heap
    = Some (res, h')
    ∧ project 5 stray_plan example_heap = Some (lp, h')
    ∧ read_graph h' lp = Some example_graph
    ∧ score_deltas res
      = [ mkScoreDelta "complexity" 2 2; mkScoreDelta "fragility" 1 1;
          mkScoreDelta "maturity" 0 0 ].
Proof.
  apply (simulate_unaffected_graph example_scores example_heap 5
           example_findings stray_plan example_graph eq_refl).
  intros s n Hs Hn.
  apply elem_of_cons in Hs as [-> | Hs]; [| by apply elem_of_nil in Hs].
  simpl. rewrite not_elem_of_cons. split; [| apply not_elem_of_nil].
  repeat (apply elem_of_cons in Hn as [-> | Hn]; [discriminate |]).
  by apply elem_of_nil in Hn.
Defined.

Lemma simulate_empty_plan_witness :
  ∃ res h' lp,
    simulate example_scores 5 example_findings empty_plan example_heap
    = Some (res, h')
    ∧ project 5 empty_plan example_heap = Some (lp, h')
    ∧ read_graph h' lp = Some example_graph
    ∧ findings_removed res = 0
    ∧ findings_remaining res = 2
    ∧ projected_node_count res = 2
    ∧ projected_edge_count res = 1.
Proof.
  exact (simulate_empty_plan example_scores example_heap 5 example_findings
           empty_plan example_graph eq_refl eq_refl).
Defined.

Lemma projection_marks_affected_nodes_witness :
  ∃ lp h' p,
    project 5 example_plan example_heap = Some (lp, h')
    ∧ read_graph h' lp = Some p
    ∧ edges p = edges example_graph
    ∧ Forall2 (λ q n,
                 same_node q n
                 ∧ agree (metadata q) (metadata n)
                 ∧ ((∃ s, s ∈ suggestions example_plan
                          ∧ node_id n ∈ affected_node_ids s) →
                    marked example_plan (metadata q)))
        (nodes p) (nodes example_graph).
Proof.
  exact (projection_marks_affected_nodes example_heap 5 example_plan
           example_graph eq_refl).
Defined.

End SimulatorProps.

(** ** String methods *)

Module PyStrProps.
Import PyStr.

Lemma lower_char_idem c : lower_char (lower_char c) = lower_char c.
Proof. by destruct c as [[] [] [] [] [] [] [] []]. Qed.

Lemma is_space_lower_char c : is_space (lower_char c) = is_space c.
Proof. by destruct c as [[] [] [] [] [] [] [] []]. Qed.

Lemma lower_idem s : lower (lower s) = lower s.
Proof.
  induction s as [| c s IH]; simpl; [done |].
  by rewrite lower_char_idem, IH.
Qed.

Lemma lower_app s t : lower (s +:+ t) = lower s +:+ lower t.
Proof. induction s as [| c s IH]; simpl; [done | by rewrite IH]. Qed.

Lemma lower_lstrip s : lower (lstrip s) = lstrip (lower s).
Proof.
  induction s as [| c s IH]; simpl; [done |].
  rewrite is_space_lower_char. by destruct (is_space c).
Qed.

Lemma lower_rev_onto s acc :
  lower (rev_onto s acc) = rev_onto (lower s) (lower acc).
Proof.
  revert acc. induction s as [| c s IH]; intros acc; simpl; [done |].
  by rewrite IH.
Qed.

Lemma lower_reverse s : lower (reverse s) = reverse (lower s).
Proof. apply lower_rev_onto. Qed.

Lemma lower_strip s : lower (strip s) = strip (lower s).
Proof.
  unfold strip, rstrip.
  by rewrite lower_reverse, lower_lstrip, lower_reverse, lower_lstrip.
Qed.

Lemma lower_drop n s : lower (drop n s) = drop n (lower s).
Proof.
  revert s. induction n as [| n IH]; intros [| c s]; simpl; auto.
Qed.

Lemma app_nil_r s : s +:+ "" = s.
Proof. induction s as [| c s IH]; [done |]. exact (f_equal (String c) IH). Qed.

Lemma app_assoc s t u : (s +:+ t) +:+ u = s +:+ (t +:+ u).
Proof. induction s as [| c s IH]; [done |]. exact (f_equal (String c) IH). Qed.

Lemma rev_onto_app s acc : rev_onto s acc = reverse s +:+ acc.
Proof.
  unfold reverse. revert acc.
  induction s as [| c s IH]; intros acc; simpl; [done |].
  rewrite (IH (String c acc)), (IH (String c "")). by rewrite app_assoc.
Qed.

Lemma reverse_cons c s : reverse (String c s) = reverse s +:+ String c "".
Proof. unfold reverse. simpl. apply rev_onto_app. Qed.

Lemma reverse_app s t : reverse (s +:+ t) = reverse t +:+ reverse s.
Proof.
  induction s as [| c s IH].
  - exact (eq_sym (app_nil_r (reverse t))).
  - change (String c s +:+ t) with (String c (s +:+ t)).
    by rewrite !reverse_cons, IH, app_assoc.
Qed.

Lemma reverse_involutive s : reverse (reverse s) = s.
Proof.
  induction s as [| c s IH]; [done |].
  by rewrite reverse_cons, reverse_app, IH.
Qed.

Lemma lstrip_idem s : lstrip (lstrip s) = lstrip s.
Proof.
  induction s as [| c s IH]; simpl; [done |].
  destruct (is_space c) eqn:Hc; [done |]. simpl. by rewrite Hc.
Qed.

Lemma lstrip_app s t :
  lstrip (s +:+ t)
  = match lstrip s with "" => lstrip t | _ => lstrip s +:+ t end.
Proof.
  induction s as [| c s IH]; [done |].
  change (String c s +:+ t) with (String c (s +:+ t)). simpl lstrip.
  destruct (is_space c); [exact IH | done].
Qed.

(** [rstrip], one character at a time. *)
Lemma rstrip_cons c s :
  rstrip (String c s)
  = match rstrip s with
    | "" => if is_space c then "" else String c ""
    | _ => String c (rstrip s)
    end.
Proof.
  unfold rstrip. rewrite reverse_cons, lstrip_app.
  destruct (lstrip (reverse s)) as [| d r] eqn:Hr.
  - simpl. by destruct (is_space c).
  - rewrite reverse_app. simpl.
    destruct (reverse (String d r)) eqn:Hrev; [| done].
    apply (f_equal reverse) in Hrev. rewrite reverse_involutive in Hrev.
    discriminate Hrev.
Qed.

Lemma lstrip_rstrip s : lstrip (rstrip s) = rstrip (lstrip s).
Proof.
  induction s as [| c s IH]; [done |].
  simpl lstrip at 2. destruct (is_space c) eqn:Hc.
  - rewrite <- IH, rstrip_cons, Hc.
    destruct (rstrip s) eqn:Hr; [done |]. simpl. by rewrite Hc.
  - rewrite rstrip_cons, Hc. destruct (rstrip s); simpl; by rewrite Hc.
Qed.

Lemma rstrip_idem s : rstrip (rstrip s) = rstrip s.
Proof.
  unfold rstrip. by rewrite reverse_involutive, lstrip_idem.
Qed.

Lemma strip_idem s : strip (strip s) = strip s.
Proof.
  unfold strip. by rewrite lstrip_rstrip, lstrip_idem, rstrip_idem.
Qed.

End PyStrProps.

(** ** Name normalization *)

Module NormalizeProps.
Import Linker.

Lemma strip_prefix_lower s p :
  PyStr.lower s = s → PyStr.lower (strip_prefix s p) = strip_prefix s p.
Proof.
  intros Hs. unfold strip_prefix. destruct (PyStr.startswith s p); [| done].
  by rewrite PyStrProps.lower_drop, Hs.
Qed.

(** X13. Normalization ignores letter case and surrounding whitespace,
    and its results are lowercase and trimmed. *)
Theorem normalize_ignores_case_and_margins (name : string) :
  _normalize (PyStr.lower name) = _normalize name
  ∧ _normalize (PyStr.strip name) = _normalize name
  ∧ PyStr.lower (_normalize name) = _normalize name
  ∧ PyStr.strip (_normalize name) = _normalize name.
Proof.
  unfold _normalize. split; [by rewrite PyStrProps.lower_idem |].
  split; [by rewrite PyStrProps.lower_strip, PyStrProps.strip_idem |].
  split; [| apply PyStrProps.strip_idem].
  rewrite PyStrProps.lower_strip. f_equal. simpl.
  repeat apply strip_prefix_lower.
  by rewrite PyStrProps.lower_strip, PyStrProps.lower_idem.
Qed.

End NormalizeProps.

Module PyTextProps.
Import PyText.

Lemma replace_char_app old new s t :
  replace_char old new (s +:+ t)
  = replace_char old new s +:+ replace_char old new t.
Proof.
  induction s as [| c s IH]; simpl; [done |].
  case_decide; rewrite IH; [| done].
  symmetry. apply PyStrProps.app_assoc.
Qed.

Lemma has_char_app c s t :
  has_char c (s +:+ t) = has_char c s || has_char c t.
Proof.
  induction s as [| d s IH]; simpl; [done |].
  by rewrite IH, orb_assoc.
Qed.

Lemma count_char_app c s t :
  count_char c (s +:+ t) = count_char c s + count_char c t.
Proof.
  induction s as [| d s IH]; simpl; [done |]. rewrite IH. lia.
Qed.

Lemma count_char_none c s : has_char c s = false → count_char c s = 0.
Proof.
  induction s as [| d s IH]; simpl; [done |].
  intros [Hd Hs]%orb_false_elim. apply bool_decide_eq_false in Hd.
  rewrite decide_False by done. by rewrite IH.
Qed.

Lemma replace_char_absent old new s :
  has_char old s = false → replace_char old new s = s.
Proof.
  induction s as [| d s IH]; simpl; [done |].
  intros [Hd Hs]%orb_false_elim. apply bool_decide_eq_false in Hd.
  rewrite decide_False by done. by rewrite IH.
Qed.

Lemma replace_char_removes old new s :
  has_char old new = false → has_char old (replace_char old new s) = false.
Proof.
  intros Hnew. induction s as [| d s IH]; simpl; [done |].
  case_decide as Hd.
  - by rewrite has_char_app, Hnew, IH.
  - simpl. rewrite IH. by rewrite bool_decide_eq_false_2.
Qed.

Lemma replace_char_keeps_absent c old new s :
  has_char c new = false → has_char c s = false →
  has_char c (replace_char old new s) = false.
Proof.
  intros Hnew. induction s as [| d s IH]; simpl; [done |].
  intros [Hd Hs]%orb_false_elim.
  destruct (decide (d = old)).
  - by rewrite has_char_app, Hnew, IH.
  - simpl. by rewrite Hd, IH.
Qed.

Lemma replace_char_length old c d s :
  String.length (replace_char old (String c (String d "")) s)
  = String.length s + count_char old s.
Proof.
  induction s as [| e s IH]; simpl; [done |].
  case_decide; cbv [String.append]; simpl; rewrite IH; lia.
Qed.

Lemma replace_char_count c old new s :
  c ≠ old → count_char c new = 0 →
  count_char c (replace_char old new s) = count_char c s.
Proof.
  intros Hc Hnew. induction s as [| e s IH]; simpl; [done |].
  destruct (decide (e = old)) as [-> | He].
  - rewrite count_char_app, Hnew, IH. by rewrite decide_False.
  - simpl. by rewrite IH.
Qed.

Lemma foldl_snoc {A} (f : A → string) (acc : list string) (l : list A) :
  foldl (λ lines x, lines ++ [f x]) acc l = acc ++ (f <$> l).
Proof.
  revert acc. induction l as [| x l IH]; intros acc; simpl.
  - by rewrite app_nil_r.
  - by rewrite IH, <- app_assoc.
Qed.

Lemma count_char_join c (lines : list string) :
  Forall (λ l, has_char c l = false) lines →
  count_char c (join (String c "") lines) = length lines - 1.
Proof.
  induction 1 as [| l rest Hl Hrest IH]; [done |].
  destruct rest as [| l' rest]; [by apply count_char_none |].
  change (join (String c "") (l :: l' :: rest))
    with (l +:+ String c "" +:+ join (String c "") (l' :: rest)).
  rewrite !count_char_app, IH, (count_char_none _ _ Hl). simpl.
  rewrite decide_True by done. lia.
Qed.

End PyTextProps.


Module ExporterProps.
Import PyText Exporter PyTextProps.

Lemma xml_escape_cons c s :
  _xml_escape (String c s) = xml_char c +:+ _xml_escape s.
Proof.
  unfold _xml_escape, xml_char. simpl.
  destruct (decide (c = amp)) as [-> | Hamp].
  { by rewrite !replace_char_app. }
  simpl. destruct (decide (c = lt)) as [-> | Hlt].
  { by rewrite !replace_char_app. }
  simpl. destruct (decide (c = gt)) as [-> | Hgt].
  { by rewrite !replace_char_app. }
  simpl. destruct (decide (c = quote)) as [-> | Hq]; [done | done].
Qed.

Lemma xml_escape_one_pass text : _xml_escape text = xml_one_pass text.
Proof.
  induction text as [| c s IH]; [done |].
  rewrite xml_escape_cons. simpl. by rewrite IH.
Qed.

Lemma xml_char_safe c :
  has_char lt (xml_char c) = false ∧ has_char gt (xml_char c) = false
  ∧ has_char quote (xml_char c) = false.
Proof.
  unfold xml_char. repeat case_decide; simpl; try done.
  rewrite !bool_decide_eq_false_2 by done. done.
Qed.

Lemma xml_one_pass_safe s :
  has_char lt (xml_one_pass s) = false
  ∧ has_char gt (xml_one_pass s) = false
  ∧ has_char quote (xml_one_pass s) = false.
Proof.
  induction s as [| c s (IH1 & IH2 & IH3)]; simpl; [done |].
  destruct (xml_char_safe c) as (H1 & H2 & H3).
  by rewrite !has_char_app, H1, H2, H3, IH1, IH2, IH3.
Qed.

Lemma xml_one_pass_inj s t : xml_one_pass s = xml_one_pass t → s = t.
Proof.
  revert t. induction s as [| c s IH]; intros [| d t]; simpl.
  - done.
  - unfold xml_char. repeat case_decide; discriminate.
  - unfold xml_char. repeat case_decide; discriminate.
  - unfold xml_char. intros H.
    destruct (decide (c = amp)), (decide (c = lt)), (decide (c = gt)),
      (decide (c = quote)), (decide (d = amp)), (decide (d = lt)),
      (decide (d = gt)), (decide (d = quote));
      cbv [String.append] in H; simplify_eq; try done;
      f_equal; by apply IH.
Qed.

Lemma node_color_plain ty : has_char newline (_node_color ty) = false.
Proof.
  unfold _node_color. cbv zeta.
  match goal with |- context [?m !! ty] => destruct (m !! ty) eqn:E end;
    [| done].
  apply elem_of_list_to_map_2 in E. simpl.
  repeat (apply elem_of_cons in E as [[= ? ->] | E]; [done |]).
  by apply elem_of_nil in E.
Qed.

Lemma dot_escape_plain text : has_char newline (_dot_escape text) = false.
Proof. unfold _dot_escape. by apply replace_char_removes. Qed.

Lemma dot_node_line_plain node :
  has_char newline (dot_node_line node) = false.
Proof.
  unfold dot_node_line. cbv zeta.
  by rewrite !has_char_app, !dot_escape_plain, node_color_plain.
Qed.

Lemma dot_edge_line_plain edge :
  has_char newline (dot_edge_line edge) = false.
Proof.
  unfold dot_edge_line.
  by rewrite !has_char_app, !dot_escape_plain.
Qed.

Lemma dot_lines_shape graph :
  dot_lines graph
  = [ "digraph " +:+ q +:+ _dot_escape (graph_name graph) +:+ q +:+ " {";
      "  rankdir=LR;";
      "  node [shape=box, style=filled, fillcolor=lightblue];"; "" ]
    ++ (dot_node_line <$> nodes graph) ++ [""]
    ++ (dot_edge_line <$> edges graph) ++ ["}"].
Proof.
  unfold dot_lines. cbv zeta. rewrite !foldl_snoc. simpl.
  by rewrite <- !app_assoc.
Qed.

(** X17. The four chained replacements of [_xml_escape] amount to one
    pass that escapes each character on its own: the ampersands of the
    entities are not escaped again.  The result holds no angle bracket
    and no double quote. *)
Theorem xml_escape_safe (text : string) :
  _xml_escape text = xml_one_pass text
  ∧ has_char lt (_xml_escape text) = false
  ∧ has_char gt (_xml_escape text) = false
  ∧ has_char quote (_xml_escape text) = false.
Proof.
  split; [apply xml_escape_one_pass |].
  rewrite xml_escape_one_pass. apply xml_one_pass_safe.
Qed.

(** X18. [_xml_escape] loses nothing: two texts with the same escaped
    form are the same text. *)
Theorem xml_escape_injective (s t : string) :
  _xml_escape s = _xml_escape t → s = t.
Proof. rewrite !xml_escape_one_pass. apply xml_one_pass_inj. Qed.

Lemma xml_escape_injective_witness :
  _xml_escape "a<b&c" = _xml_escape "a<b&c" ∧ "a<b&c" = "a<b&c".
Proof.
  split; [reflexivity |].
  apply (xml_escape_injective "a<b&c" "a<b&c"). reflexivity.
Defined.

(** X19. [_dot_escape] adds one character for each double quote and
    each newline of the text, and its result holds no newline. *)
Theorem dot_escape_length (text : string) :
  String.length (_dot_escape text)
  = String.length text + count_char quote text + count_char newline text
  ∧ has_char newline (_dot_escape text) = false.
Proof.
  split; [| apply dot_escape_plain].
  unfold _dot_escape. rewrite !replace_char_length.
  by rewrite replace_char_count.
Qed.

(** X20. [export_dot] writes one statement per line whatever the names
    hold: the text has five newlines more than the graph has nodes and
    edges. *)
Theorem export_dot_line_count (graph : CICDGraph) :
  count_char newline (export_dot graph)
  = length (nodes graph) + length (edges graph) + 5.
Proof.
  unfold export_dot. rewrite count_char_join.
  - rewrite dot_lines_shape. simpl.
    repeat first [rewrite length_app | rewrite length_fmap
                 | progress simpl]. lia.
  - rewrite dot_lines_shape.
    repeat first [apply Forall_cons; split | apply Forall_app; split
                 | apply Forall_nil ]; try done.
    + by rewrite !has_char_app, dot_escape_plain.
    + apply Forall_fmap, Forall_forall. intros ? _.
      apply dot_node_line_plain.
    + apply Forall_fmap, Forall_forall. intros ? _.
      apply dot_edge_line_plain.
Qed.

End ExporterProps.

Module DocIntelProps.
Import PyText DocIntel PyTextProps.

Lemma detect_foldl acc ps :
  foldl (λ results path,
           match classify path with
           | Some r => results ++ [r]
           | None => results
           end) acc ps
  = acc ++ omap classify ps.
Proof.
  revert acc. induction ps as [| p ps IH]; intros acc; simpl.
  - by rewrite app_nil_r.
  - rewrite IH. destruct (classify p); [by rewrite <- app_assoc | done].
Qed.

Lemma detect_omap ps : detect_doc_files ps = omap classify ps.
Proof. apply detect_foldl. Qed.

Lemma classify_path p r : classify p = Some r → r.1 = p.
Proof.
  unfold classify. cbv zeta.
  repeat match goal with
         | |- context [if ?b then _ else _] => destruct b
         end; by intros [= <-].
Qed.

Lemma rsplit_last_plain sep s : has_char sep (rsplit_last sep s) = false.
Proof.
  induction s as [| c s IH]; simpl; [done |].
  destruct (has_char sep s) eqn:Hs; [done |].
  destruct (decide (c = sep)) as [-> | Hc]; [done |].
  simpl. by rewrite Hs, bool_decide_eq_false_2.
Qed.

Lemma basename_plain s : has_char slash (basename_of s) = false.
Proof.
  unfold basename_of. destruct (has_char slash s) eqn:Hs; [| done].
  apply rsplit_last_plain.
Qed.

Lemma classify_lower p :
  classify (PyStr.lower p) = (λ r, (PyStr.lower p, r.2)) <$> classify p.
Proof.
  unfold classify. cbv zeta. rewrite PyStrProps.lower_idem.
  repeat match goal with
         | |- context [if ?b then _ else _] => destruct b
         end; done.
Qed.

(** X21. [detect_doc_files] judges each path on its own and keeps the
    order: the result for a concatenation is the concatenation of the
    results, and the paths reported are a sublist of the paths given,
    each with the spelling it came in. *)
Theorem detect_per_path (ps qs : list string) :
  detect_doc_files (ps ++ qs) = detect_doc_files ps ++ detect_doc_files qs
  ∧ (detect_doc_files ps).*1 `sublist_of` ps.
Proof.
  rewrite !detect_omap. split; [apply omap_app |].
  induction ps as [| p ps IH]; simpl; [done |].
  destruct (classify p) as [r |] eqn:Hr.
  - simpl. rewrite (classify_path _ _ Hr). by apply sublist_skip.
  - by apply sublist_cons.
Qed.

(** X22. The letter case of a path has no influence on its category:
    lower-casing every path leaves the list of detected types as it
    is. *)
Theorem detect_ignores_case (ps : list string) :
  (detect_doc_files (PyStr.lower <$> ps)).*2 = (detect_doc_files ps).*2.
Proof.
  rewrite !detect_omap.
  induction ps as [| p ps IH]; simpl; [done |].
  rewrite classify_lower. destruct (classify p); simpl; [f_equal |]; exact IH.
Qed.

(** X23. A path is a code-owners file exactly when its last component,
    lower-cased, is "codeowners": the component holds no slash, so the
    alternative ".github/codeowners" of the source never matches. *)
Theorem codeowners_by_basename (path : string) :
  basename_of (PyStr.lower path) ≠ ".github/codeowners"
  ∧ (classify path = Some (path, CODEOWNERS)
     ↔ basename_of (PyStr.lower path) = "codeowners").
Proof.
  assert (Hne : basename_of (PyStr.lower path) ≠ ".github/codeowners").
  { intros H. pose proof (basename_plain (PyStr.lower path)) as Hs.
    rewrite H in Hs. discriminate Hs. }
  assert (Hco : basename_of (PyStr.lower path)
                ∈ ["codeowners"; ".github/codeowners"] →
                basename_of (PyStr.lower path) = "codeowners").
  { intros [? | Hin%list_elem_of_singleton]%elem_of_cons; done. }
  split; [done |]. unfold classify. cbv zeta. split.
  - repeat match goal with
           | |- context [if bool_decide ?P then _ else _] =>
               destruct (bool_decide_reflect P)
           | |- context [if ?b then _ else _] => destruct b
           end; try (intros [= ?]; fail); intros _.
    by apply Hco.
  - intros ->. reflexivity.
Qed.

End DocIntelProps.

Module DocScoreProps.
Import PyText DocIntel.

Lemma sort_loop (ft : gset string) s0 (l : list (string * string)) :
  let s := foldl (λ score '(doc_key, doc_label),
                    if decide (doc_key ∈ ft)
                    then append_found score doc_label
                    else append_missing score doc_label) s0 l in
  found s = found s0 ++ (filter (λ kv, kv.1 ∈ ft) l).*2
  ∧ missing s = missing s0 ++ (filter (λ kv, kv.1 ∉ ft) l).*2
  ∧ total_expected s = total_expected s0
  ∧ coverage_pct s = coverage_pct s0
  ∧ drift_warnings s = drift_warnings s0
  ∧ drift_score s = drift_score s0.
Proof.
  cbv zeta. revert s0. induction l as [| [k v] l IH]; intros s0.
  - simpl. by rewrite !app_nil_r.
  - rewrite !filter_cons. cbn [foldl fst].
    destruct (decide (k ∈ ft)) as [Hk | Hk].
    + rewrite decide_False by (by intros ?).
      destruct (IH (append_found s0 v)) as (-> & -> & -> & -> & -> & ->).
      simpl. by rewrite <- app_assoc.
    + rewrite decide_True by done.
      destruct (IH (append_missing s0 v)) as (-> & -> & -> & -> & -> & ->).
      simpl. by rewrite <- app_assoc.
Qed.

Lemma filter_sublist_mono {A} (P Q : A → Prop) `{∀ x, Decision (P x)}
    `{∀ x, Decision (Q x)} (l : list A) :
  (∀ x, P x → Q x) → filter P l `sublist_of` filter Q l.
Proof.
  intros HPQ. induction l as [| x l IH]; [done |].
  rewrite !filter_cons. destruct (decide (P x)) as [HP | HP].
  - rewrite decide_True by auto. by apply sublist_skip.
  - destruct (decide (Q x)); [by apply sublist_cons | done].
Qed.

Section scoring.
Variable doc_type_value : Node → option string.

Lemma types_loop_grows (X : gset string) (l : list Node) :
  X ⊆ foldl (λ found_types node,
               match doc_type_value node with
               | Some v => found_types ∪ {[ v ]}
               | None => found_types
               end) X l.
Proof.
  revert X. induction l as [| n l IH]; intros X; simpl; [done |].
  etrans; [| apply IH]. destruct (doc_type_value n); set_solver.
Qed.

Lemma found_types_add_node g n :
  found_types_of doc_type_value g
  ⊆ found_types_of doc_type_value (add_node g n).
Proof.
  unfold found_types_of, add_node. cbv zeta. simpl.
  rewrite filter_app, foldl_app. apply types_loop_grows.
Qed.

(** The state of the score after the loop over the categories and the
    coverage step. *)
Lemma score_fields g :
  let s := score_documentation doc_type_value g in
  let ft := found_types_of doc_type_value g in
  found s = (filter (λ kv, kv.1 ∈ ft) _EXPECTED_DOCS).*2
  ∧ missing s = (filter (λ kv, kv.1 ∉ ft) _EXPECTED_DOCS).*2
  ∧ total_expected s = 5
  ∧ coverage_pct s
    = (inject_Z (Z.of_nat (length (found s))) / inject_Z 5 * 100)%Q.
Proof.
  cbv zeta. unfold score_documentation. cbv zeta.
  match goal with
  | |- context [foldl ?f new_score _EXPECTED_DOCS] =>
      destruct (sort_loop (found_types_of doc_type_value g) new_score
                  _EXPECTED_DOCS) as (Hf & Hm & Ht & Hc & Hw & Hd);
      cbv zeta in Hf, Hm, Ht, Hc, Hw, Hd;
      set (s := foldl f new_score _EXPECTED_DOCS) in *
  end.
  change (total_expected new_score) with 5 in Ht.
  rewrite Ht. rewrite decide_True by lia.
  repeat match goal with
         | |- context [if ?b then _ else _] => destruct b
         end; simpl; rewrite ?Hf, ?Hm; done.
Qed.

(** X24. The five expected categories are split between [found] and
    [missing], each in the order of the table, and the coverage is 20
    for each category found. *)
Theorem score_splits_expected (graph : CICDGraph) :
  let s := score_documentation doc_type_value graph in
  found s ++ missing s ≡ₚ _EXPECTED_DOCS.*2
  ∧ found s `sublist_of` _EXPECTED_DOCS.*2
  ∧ missing s `sublist_of` _EXPECTED_DOCS.*2
  ∧ total_expected s = 5
  ∧ (coverage_pct s == inject_Z (20 * Z.of_nat (length (found s))))%Q.
Proof.
  cbv zeta. destruct (score_fields graph) as (Hf & Hm & Ht & Hc).
  cbv zeta in Hf, Hm, Ht, Hc. rewrite Hc, Hf, Hm.
  split; [| split; [| split; [| split]]].
  - rewrite <- fmap_app. apply fmap_Permutation, filter_app_complement.
  - apply fmap_sublist, sublist_filter.
  - apply fmap_sublist, sublist_filter.
  - done.
  - unfold Qeq. simpl. lia.
Qed.

(** X25. Coverage never goes down when a node is added to the graph:
    what was found stays found. *)
Theorem coverage_grows_with_nodes (graph : CICDGraph) (node : Node) :
  let s := score_documentation doc_type_value graph in
  let s' := score_documentation doc_type_value (add_node graph node) in
  found s `sublist_of` found s'
  ∧ (coverage_pct s <= coverage_pct s')%Q.
Proof.
  cbv zeta.
  destruct (score_fields graph) as (Hf & _ & _ & Hc).
  destruct (score_fields (add_node graph node)) as (Hf' & _ & _ & Hc').
  cbv zeta in Hf, Hc, Hf', Hc'.
  assert (Hsub : found (score_documentation doc_type_value graph)
                 `sublist_of`
                 found (score_documentation doc_type_value
                          (add_node graph node))).
  { rewrite Hf, Hf'. apply fmap_sublist, filter_sublist_mono.
    intros kv. apply found_types_add_node. }
  split; [done |]. rewrite Hc, Hc'. apply sublist_length in Hsub.
  unfold Qle. simpl. lia.
Qed.

(** X26. The drift score is 0 without a warning, 0.3 when secrets lack a
    security policy, and 0.5 as soon as a deployment lacks a runbook: it
    never exceeds 0.5. *)
Theorem drift_levels (graph : CICDGraph) :
  let s := score_documentation doc_type_value graph in
  drift_warnings s = [] ∧ drift_score s = 0%Q
  ∨ drift_warnings s = [secrets_warning] ∧ drift_score s = (3 # 10)%Q
  ∨ drift_warnings s = [deploy_warning] ∧ drift_score s = (1 # 2)%Q
  ∨ drift_warnings s = [deploy_warning; secrets_warning]
    ∧ drift_score s = (1 # 2)%Q.
Proof.
  cbv zeta. unfold score_documentation. cbv zeta.
  match goal with
  | |- context [foldl ?f new_score _EXPECTED_DOCS] =>
      destruct (sort_loop (found_types_of doc_type_value graph) new_score
                  _EXPECTED_DOCS) as (_ & _ & _ & _ & Hw & Hd);
      cbv zeta in Hw, Hd;
      set (s := foldl f new_score _EXPECTED_DOCS) in *
  end.
  repeat match goal with
         | |- context [if ?b then _ else _] => destruct b
         end; simpl; rewrite ?Hw, ?Hd; simpl; auto.
Qed.

End scoring.
End DocScoreProps.

Module WorkedExamples.
Import PyText Exporter DocIntel.

Example xml_escape_example :
  _xml_escape "a & b <c>" = "a &amp; b &lt;c&gt;".
Proof. reflexivity. Qed.

Example detect_example :
  detect_doc_files
    ["README.md"; "src/main.py"; "docs/guide.md"; ".github/CODEOWNERS";
     "docs/adr/0001.md"; "ops/Runbook.md"]
  = [("README.md", README); ("docs/guide.md", DOCS_DIR);
     (".github/CODEOWNERS", CODEOWNERS); ("docs/adr/0001.md", ADR);
     ("ops/Runbook.md", RUNBOOK)].
Proof. reflexivity. Qed.

Example export_dot_example :
  export_dot (mkGraph "g" "G" None [mkNode "n1" JOB "build" ∅] [])
  = "digraph " +:+ q +:+ "G" +:+ q +:+ " {" +:+ String newline
      ("  rankdir=LR;" +:+ String newline
      ("  node [shape=box, style=filled, fillcolor=lightblue];"
       +:+ String newline (String newline
      ("  " +:+ q +:+ "n1" +:+ q +:+ " [label=" +:+ q +:+ "build\n(job)"
       +:+ q +:+ ", fillcolor=" +:+ q +:+ "#2196F3" +:+ q +:+ "];"
       +:+ String newline (String newline "}"))))).
Proof. reflexivity. Qed.

End WorkedExamples.
